(** * edwards25519-extra: hash-to-curve (Elligator 2) and ECVRF

    A shallow embedding of the Go packages [h2c], [ecvrf] and [vrf] and
    of the parts of their backend (filippo.io/edwards25519 and its
    [field] package, crypto/sha512) that they call, followed by the
    properties proved about them.

    Conventions.
    - A field element is a [Zmod p] with [p = 2^255 - 19]; a scalar is
      a [Zmod q] with [q] the order of the base point.
    - Go's [int] flags returned by [Equal], [IsNegative] and
      [SqrtRatio] are integers 0/1 combined with [Z.lor] and [Z.lxor].
    - A method [v.Op(a, b)] that overwrites its receiver becomes
      [let v := Op a b in ...]; rebinding a name is the mutation.
    - A byte slice is a [list byte]; Go's [(value, error)] results are
      [res], and code that can panic returns [exec].
    - Where a function appends to a slice it was handed ([ecvrf]), its
      arguments are windows on a shared memory, so that what the
      append overwrites is seen by later reads. *)

From Stdlib Require Import String ZArith Zmod List Lia Bool Ring Znumtheory.
From coqutil Require Import Byte Word.LittleEndianList Z.bitblast.
Import ListNotations.
Import Init.Byte.
Local Open Scope Z_scope.

(** ** Results, errors and panics *)

Inductive res (A : Type) : Type :=
| Ok (a : A)
| Err (e : string).
Arguments Ok {A} a.
Arguments Err {A} e.

Inductive exec (A : Type) : Type :=
| Ret (a : A)
| Panic (msg : string).
Arguments Ret {A} a.
Arguments Panic {A} msg.

Definition bind {A B : Type} (m : exec A) (k : A -> exec B) : exec B :=
  match m with
  | Ret a => k a
  | Panic msg => Panic msg
  end.

Notation "x <- m ;; k" := (bind m (fun x => k))
  (at level 61, m at next level, right associativity).

Definition is_ret {A : Type} (m : exec A) : Prop :=
  match m with Ret _ => True | Panic _ => False end.

(** [unwrap m pf] is the value of a computation known not to panic; it
    is how the package-level constants, which Go initialises with
    [mustFeFromBytes], are obtained. *)
Definition unwrap {A : Type} (m : exec A) : is_ret m -> A :=
  match m return is_ret m -> A with
  | Ret a => fun _ => a
  | Panic _ => fun pf => match pf with end
  end.

(** ** Byte strings *)

Definition zeros (n : nat) : list byte := repeat x00 n.

(** [b[lo:hi]] *)
Definition slice (b : list byte) (lo hi : nat) : list byte :=
  firstn (hi - lo) (skipn lo b).

(** [copy(dst[lo:hi], src)]: copies [min (hi - lo) (len src)] bytes. *)
Definition copy_at (dst : list byte) (lo hi : nat) (src : list byte) : list byte :=
  let n := Nat.min (hi - lo) (length src) in
  firstn lo dst ++ firstn n src ++ skipn (lo + n) dst.

(** [var buf [n]byte; h.Sum(buf[:0])]: the digest lands in the array. *)
Definition sum_into (n : nat) (digest : list byte) : list byte :=
  copy_at (zeros n) 0 n digest.

(** *** Slices that share memory

    A Go slice is a window [(off, len, cap)] on a backing array, and
    [append] writes into the spare capacity of its first argument when
    the new elements fit.  Where a function appends to a slice it was
    handed, memory is modelled: one flat array of bytes in which every
    backing array is a region, and slices as windows on it. *)

Definition Mem : Type := list byte.

Record Slice : Type := { off : nat; len : nat; cap : nat }.

(** The contents of a slice. *)
Definition load (m : Mem) (s : Slice) : list byte :=
  slice m (off s) (off s + len s).

(** [s[lo:]] and [s[:hi]] *)
Definition slice_from (s : Slice) (lo : nat) : Slice :=
  {| off := off s + lo; len := len s - lo; cap := cap s - lo |}.
Definition slice_to (s : Slice) (hi : nat) : Slice :=
  {| off := off s; len := hi; cap := cap s |}.

Definition write (m : Mem) (pos : nat) (data : list byte) : Mem :=
  firstn pos m ++ data ++ skipn (pos + length data) m.

(** [append(s, data...)]: in place when [len s + len data <= cap s],
    else into a newly allocated array. *)
Definition append_slice (m : Mem) (s : Slice) (data : list byte) : Mem * Slice :=
  let n := (len s + length data)%nat in
  if (n <=? cap s)%nat
  then (write m (off s + len s) data, {| off := off s; len := n; cap := cap s |})
  else (m ++ load m s ++ data, {| off := length m; len := n; cap := n |}).

(** The positions an append of [n] elements to [s] writes: none when
    a new array is allocated. *)
Definition appended (s : Slice) (n : nat) (i : nat) : Prop :=
  (len s + n <= cap s)%nat /\ (off s + len s <= i < off s + len s + n)%nat.

(** A slice lies within memory. *)
Definition valid_slice (m : Mem) (s : Slice) : Prop :=
  (len s <= cap s)%nat /\ (off s + cap s <= length m)%nat.

(** [dst[i] = f(dst[i])] *)
Definition update_at (dst : list byte) (i : nat) (f : byte -> byte) : list byte :=
  match nth_error dst i with
  | Some x => firstn i dst ++ f x :: skipn (S i) dst
  | None => dst
  end.

Definition byte_and (b : byte) (m : Z) : byte := byte.of_Z (Z.land (byte.unsigned b) m).
Definition byte_or (b : byte) (m : Z) : byte := byte.of_Z (Z.lor (byte.unsigned b) m).

(** [bytes.Equal]; [subtle.ConstantTimeCompare] is the same test
    returning 1 or 0. *)
Fixpoint bytes_eqb (a b : list byte) : bool :=
  match a, b with
  | [], [] => true
  | x :: a', y :: b' => Byte.eqb x y && bytes_eqb a' b'
  | _, _ => false
  end.

Definition ConstantTimeCompare (a b : list byte) : Z :=
  if bytes_eqb a b then 1 else 0.

(** Go's [T, err := f(); if err != nil { panic(msg + err.Error()) }]. *)
Definition must {A : Type} (msg : string) (r : res A) : exec A :=
  match r with
  | Ok a => Ret a
  | Err e => Panic (msg ++ e)
  end.

(** ** Number theory used to certify the field's modulus *)

Module Primality.

Fixpoint powmod_pos (a : Z) (e : positive) (n : Z) : Z :=
  match e with
  | xH => a mod n
  | xO e' => let y := powmod_pos a e' n in (y * y) mod n
  | xI e' => let y := powmod_pos a e' n in ((y * y) mod n * a) mod n
  end.

Definition powmod (a e n : Z) : Z :=
  match e with
  | Z0 => 1 mod n
  | Zpos e' => powmod_pos a e' n
  | Zneg _ => 0
  end.

Fixpoint no_divisor_from (n d : Z) (fuel : nat) : bool :=
  match fuel with
  | O => true
  | S fuel' => negb (n mod d =? 0) && no_divisor_from n (d + 1) fuel'
  end.

Definition trial_prime (n : Z) : bool :=
  (1 <? n) && no_divisor_from n 2 (Z.to_nat (Z.sqrt n - 1)).

(** One line of a Pocklington certificate for [N]: a prime factor [q]
    of [N - 1] and a base [a] of order divisible by the full power of
    [q] in [N - 1]. *)
Definition pock_check (N : Z) (qa : Z * Z) : bool :=
  let (q, a) := qa in
  (powmod a (N - 1) N =? 1) && (Z.gcd (powmod a ((N - 1) / q) N - 1) N =? 1).

Definition pock_certificate (N : Z) (qas : list (Z * Z)) : bool :=
  let F := fold_right Z.mul 1 (map fst qas) in
  (1 <? N) && ((N - 1) mod F =? 0) && (N <=? F * F) &&
  forallb (fun qa => 1 <? fst qa) qas && forallb (pock_check N) qas.

End Primality.

(** ** Backend: package [field] of filippo.io/edwards25519

    Arithmetic modulo [p = 2^255 - 19].  The Go type keeps five 51-bit
    limbs; every method is documented by the value it computes modulo
    [p], which is what is modelled. *)

Module field.

Definition p : Z := 2 ^ 255 - 19.

Definition Element : Type := Zmod p.

Definition Zero : Element := Zmod.zero.
Definition One : Element := Zmod.one.
Definition Add (a b : Element) : Element := Zmod.add a b.
Definition Subtract (a b : Element) : Element := Zmod.sub a b.
Definition Negate (a : Element) : Element := Zmod.opp a.
Definition Multiply (x y : Element) : Element := Zmod.mul x y.
Definition Square (x : Element) : Element := Zmod.mul x x.

(** [Invert]: [z^(p-2)]; 0 when [z = 0]. *)
Definition Invert (z : Element) : Element := Zmod.pow z (p - 2).

(** [Pow22523]: [x^((p-5)/8)], with [(p-5)/8 = 2^252 - 3]. *)
Definition Pow22523 (x : Element) : Element := Zmod.pow x (2 ^ 252 - 3).

(** [SetBytes]: 32 bytes little-endian; the top bit is ignored and the
    values [2^255-19 .. 2^255-1] are accepted and reduced. *)
Definition SetBytes (x : list byte) : res Element :=
  if (length x =? 32)%nat
  then Ok (Zmod.of_Z p (le_combine x mod 2 ^ 255))
  else Err "edwards25519: invalid field element input size".

(** [SetWideBytes]: 64 bytes little-endian, reduced modulo [p]. *)
Definition SetWideBytes (x : list byte) : res Element :=
  if (length x =? 64)%nat
  then Ok (Zmod.of_Z p (le_combine x))
  else Err "edwards25519: invalid SetWideBytes input size".

(** [Bytes]: the canonical 32-byte little-endian encoding. *)
Definition Bytes (v : Element) : list byte := le_split 32 (Zmod.to_Z v).

Definition Equal (v u : Element) : Z :=
  ConstantTimeCompare (Bytes v) (Bytes u).

(** [Select a b cond]: [a] if [cond = 1], [b] if [cond = 0]. *)
Definition Select (a b : Element) (cond : Z) : Element :=
  if cond =? 1 then a else b.

(** [IsNegative]: [v.Bytes()[0] & 1]. *)
Definition IsNegative (v : Element) : Z :=
  Z.land (byte.unsigned (hd x00 (Bytes v))) 1.

Definition Absolute (u : Element) : Element :=
  Select (Negate u) u (IsNegative u).

Definition sqrtM1 : Element :=
  Zmod.of_Z p 19681161376707505956807079304988542015446066515923890162744021073123829784752.

(** [r.SqrtRatio(u, v)]: the new value of the receiver and [wasSquare]. *)
Definition SqrtRatio (u v : Element) : Element * Z :=
  let v2 := Square v in
  let uv3 := Multiply u (Multiply v2 v) in
  let uv7 := Multiply uv3 (Square v2) in
  let rr := Multiply uv3 (Pow22523 uv7) in
  let check := Multiply v (Square rr) in
  let uNeg := Negate u in
  let correctSignSqrt := Equal check u in
  let flippedSignSqrt := Equal check uNeg in
  let flippedSignSqrtI := Equal check (Multiply uNeg sqrtM1) in
  let rPrime := Multiply rr sqrtM1 in
  let rr := Select rPrime rr (Z.lor flippedSignSqrt flippedSignSqrtI) in
  (Absolute rr, Z.lor correctSignSqrt flippedSignSqrt).

End field.

(** ** Backend: package [edwards25519]

    Scalars are integers modulo the prime order [q] of the base point
    and are modelled concretely.  Points are the elements of the curve
    group; the operations on them are an interface ([PointRep],
    [PointOps]) whose documented contract is stated separately
    ([CurveLaws], [GroupLaws]). *)

Module edwards25519.

Definition q : Z := 2 ^ 252 + 27742317777372353535851937790883648493.

Module Scalar.

Definition t : Type := Zmod q.

(** [SetUniformBytes]: 64 bytes little-endian, reduced modulo [q]. *)
Definition SetUniformBytes (x : list byte) : res t :=
  if (length x =? 64)%nat
  then Ok (Zmod.of_Z q (le_combine x))
  else Err "edwards25519: invalid SetUniformBytes input length".

(** [SetCanonicalBytes]: 32 bytes little-endian encoding a value below [q]. *)
Definition SetCanonicalBytes (x : list byte) : res t :=
  if (length x =? 32)%nat
  then if le_combine x <? q
       then Ok (Zmod.of_Z q (le_combine x))
       else Err "invalid scalar encoding"
  else Err "invalid scalar length".

(** [SetBytesWithClamping]: RFC 8032 clamping followed by a wide reduction. *)
Definition SetBytesWithClamping (x : list byte) : res t :=
  if (length x =? 32)%nat
  then
    let wideBytes := copy_at (zeros 64) 0 64 x in
    let wideBytes := update_at wideBytes 0 (fun b => byte_and b 248) in
    let wideBytes := update_at wideBytes 31 (fun b => byte_and b 63) in
    let wideBytes := update_at wideBytes 31 (fun b => byte_or b 64) in
    SetUniformBytes wideBytes
  else Err "edwards25519: invalid SetBytesWithClamping input length".

Definition Multiply (x y : t) : t := Zmod.mul x y.
Definition Add (x y : t) : t := Zmod.add x y.
Definition Bytes (s : t) : list byte := le_split 32 (Zmod.to_Z s).
Definition Equal (s u : t) : Z := if Zmod.eqb s u then 1 else 0.

End Scalar.

(** The curve constant [d = -121665/121666]. *)
Definition d : field.Element :=
  Zmod.of_Z field.p
    37095705934669439343138083508754565189542113879843219016388785533085940283555.

(** [isOnCurve]: the test [SetExtendedCoordinates] applies,
    [-X^2 + Y^2 = Z^2 + d T^2] and [X Y = T Z]. *)
Definition isOnCurve (X Y Z T : field.Element) : bool :=
  let XX := field.Square X in
  let YY := field.Square Y in
  let ZZ := field.Square Z in
  let TT := field.Square T in
  let lhs := field.Subtract YY XX in
  let rhs := field.Add (field.Multiply d TT) ZZ in
  if negb (field.Equal lhs rhs =? 1) then false
  else
    let lhs := field.Multiply X Y in
    let rhs := field.Multiply T Z in
    field.Equal lhs rhs =? 1.

(** A point is an element of the curve group; the Go type stores it
    in extended coordinates.  [PointRep] is the part of the interface
    that converts between points and coordinates, [PointOps] the group
    operations and the encoding. *)
Class PointRep : Type := {
  Point : Type;
  (** [SetExtendedCoordinates]: the point [(X:Y:Z:T)], or an error if
      the coordinates are not on the curve. *)
  SetExtendedCoordinates :
    field.Element -> field.Element -> field.Element -> field.Element -> res Point;
  (** [ExtendedCoordinates]: [(X, Y, Z, T)] with [x = X/Z], [y = Y/Z],
      [x y = T/Z]. *)
  ExtendedCoordinates :
    Point -> field.Element * field.Element * field.Element * field.Element
}.

Class PointOps {rep : PointRep} : Type := {
  NewIdentityPoint : Point;
  NewGeneratorPoint : Point;
  (** [SetBytes]: decodes a 32-byte encoding; accepts the non-canonical
      encodings of valid points. *)
  SetBytes : list byte -> res Point;
  (** [Bytes]: the canonical encoding of RFC 8032. *)
  Bytes : Point -> list byte;
  Add : Point -> Point -> Point;
  Negate : Point -> Point;
  Equal : Point -> Point -> Z;
  ScalarMult : Scalar.t -> Point -> Point;
  ScalarBaseMult : Scalar.t -> Point;
  MultByCofactor : Point -> Point;
  (** [VarTimeDoubleScalarBaseMult a A b = a * A + b * B] *)
  VarTimeDoubleScalarBaseMult : Scalar.t -> Point -> Scalar.t -> Point;
  (** [VarTimeMultiScalarMult scalars points = sum (scalars[i] * points[i])] *)
  VarTimeMultiScalarMult : list Scalar.t -> list Point -> Point
}.

Section Contract.
Context {rep : PointRep}.

(** Affine coordinates [(X/Z, Y/Z)] of a point. *)
Definition affine (P : Point) : field.Element * field.Element :=
  let '(X, Y, Z, _) := ExtendedCoordinates P in
  let zInv := field.Invert Z in
  (field.Multiply X zInv, field.Multiply Y zInv).

(** Contract of the coordinate interface. *)
Class CurveLaws : Prop := {
  SetExtendedCoordinates_on_curve :
    forall X Y Z T, isOnCurve X Y Z T = true ->
      exists P, SetExtendedCoordinates X Y Z T = Ok P /\
                (Z <> Zmod.zero ->
                 affine P = (field.Multiply X (field.Invert Z),
                             field.Multiply Y (field.Invert Z)));
  SetExtendedCoordinates_off_curve :
    forall X Y Z T, isOnCurve X Y Z T = false ->
      exists e, SetExtendedCoordinates X Y Z T = Err e;
  ExtendedCoordinates_on_curve :
    forall P, let '(X, Y, Z, T) := ExtendedCoordinates P in
      isOnCurve X Y Z T = true /\ Z <> Zmod.zero
}.

Context {ops : PointOps}.

(** [n * P] by repeated addition, to state what the scalar
    multiplications compute. *)
Fixpoint nmul (n : nat) (P : Point) : Point :=
  match n with
  | O => NewIdentityPoint
  | S n' => Add P (nmul n' P)
  end.

Definition zmul (z : Z) (P : Point) : Point := nmul (Z.to_nat z) P.

Fixpoint msm (scalars : list Scalar.t) (points : list Point) : Point :=
  match scalars, points with
  | s :: scalars', P :: points' =>
      Add (zmul (Zmod.to_Z s) P) (msm scalars' points')
  | _, _ => NewIdentityPoint
  end.

(** Contract of the group interface: an abelian group of exponent
    [8 q] in which [B] has order [q], with a canonical encoding. *)
Class GroupLaws : Prop := {
  Add_assoc : forall P Q R, Add P (Add Q R) = Add (Add P Q) R;
  Add_comm : forall P Q, Add P Q = Add Q P;
  Add_identity_l : forall P, Add NewIdentityPoint P = P;
  Add_Negate_r : forall P, Add P (Negate P) = NewIdentityPoint;
  Equal_eq : forall P Q, Equal P Q = 1 <-> P = Q;
  ScalarMult_spec : forall s P, ScalarMult s P = zmul (Zmod.to_Z s) P;
  ScalarBaseMult_spec : forall s, ScalarBaseMult s = zmul (Zmod.to_Z s) NewGeneratorPoint;
  MultByCofactor_spec : forall P, MultByCofactor P = zmul 8 P;
  VarTimeDoubleScalarBaseMult_spec :
    forall a A b,
      VarTimeDoubleScalarBaseMult a A b =
      Add (zmul (Zmod.to_Z a) A) (zmul (Zmod.to_Z b) NewGeneratorPoint);
  VarTimeMultiScalarMult_spec :
    forall scalars points, length scalars = length points ->
      VarTimeMultiScalarMult scalars points = msm scalars points;
  group_exponent : forall P, zmul (8 * q) P = NewIdentityPoint;
  generator_order :
    forall n, 0 <= n -> (zmul n NewGeneratorPoint = NewIdentityPoint <-> (q | n));
  Bytes_length : forall P, length (Bytes P) = 32%nat;
  SetBytes_Bytes : forall P, SetBytes (Bytes P) = Ok P;
  SetExtendedCoordinates_total :
    forall X Y Z T, isOnCurve X Y Z T = true ->
      exists P, SetExtendedCoordinates X Y Z T = Ok P
}.
End Contract.

Arguments CurveLaws rep : clear implicits.
Arguments GroupLaws rep ops : clear implicits.

End edwards25519.

(** ** Backend: hash functions

    [crypto/sha512] is an arbitrary function on byte strings; a
    [crypto.Hash] carries its output and block sizes. *)

Class Sha512 : Type := { sha512 : list byte -> list byte }.

Module crypto.
Record Hash : Type := {
  Sum : list byte -> list byte;
  Size : nat;
  BlockSize : nat
}.
Definition SHA512 {H : Sha512} : Hash :=
  {| Sum := sha512; Size := 64; BlockSize := 128 |}.
End crypto.

(** ** Package [h2c]: hashing to edwards25519 / curve25519 *)

Module h2c.
Import field edwards25519.

Definition ell : nat := 48.
Definition kay : nat := 128.
Definition encodeToCurveSize : nat := ell.
Definition hashToCurveSize : nat := ell * 2.

(** *** expand_message_xmd *)

(** [I2OSP x n]: [x] as [n] bytes, big-endian. *)
Definition I2OSP (x : Z) (n : nat) : list byte := rev (le_split n x).

Fixpoint xor_bytes (a b : list byte) : list byte :=
  match a, b with
  | x :: a', y :: b' =>
      byte.of_Z (Z.lxor (byte.unsigned x) (byte.unsigned y)) :: xor_bytes a' b'
  | _, _ => []
  end.

(** Blocks [b_i .. b_ell] given [b_(i-1)]. *)
Fixpoint xmd_blocks (H : list byte -> list byte) (b_0 prev DST_prime : list byte)
    (i : Z) (n : nat) : list byte :=
  match n with
  | O => []
  | S n' =>
      let b_i := H (xor_bytes b_0 prev ++ I2OSP i 1 ++ DST_prime) in
      b_i ++ xmd_blocks H b_0 b_i DST_prime (i + 1) n'
  end.

(** Modelled from the spec: [ExpandMessageXMD] (its source file is not
    part of the sources at hand), section 4.B: [expand_message_xmd] of
    RFC 9380 with the oversize-DST rule; the result is what the Go
    function writes into its [out] argument of length [L]. *)
Definition ExpandMessageXMD (L : nat) (hFunc : crypto.Hash) (DST msg : list byte)
    : res (list byte) :=
  let H := crypto.Sum hFunc in
  let b_in_bytes := crypto.Size hFunc in
  let s_in_bytes := crypto.BlockSize hFunc in
  if (255 * Z.of_nat b_in_bytes <? Z.of_nat L) || (65535 <? Z.of_nat L)
  then Err "h2c: requested output length too large"
  else
    let DST :=
      if (255 <? length DST)%nat
      then H (list_byte_of_string "H2C-OVERSIZE-DST-" ++ DST)
      else DST in
    let ell := ((L + b_in_bytes - 1) / b_in_bytes)%nat in
    if (255 <? ell)%nat
    then Err "h2c: requested output length too large"
    else
      let DST_prime := DST ++ I2OSP (Z.of_nat (length DST)) 1 in
      let Z_pad := I2OSP 0 s_in_bytes in
      let l_i_b_str := I2OSP (Z.of_nat L) 2 in
      let b_0 := H (Z_pad ++ msg ++ l_i_b_str ++ I2OSP 0 1 ++ DST_prime) in
      let b_1 := H (b_0 ++ I2OSP 1 1 ++ DST_prime) in
      let uniform_bytes := b_1 ++ xmd_blocks H b_0 b_1 DST_prime 2 (ell - 1) in
      Ok (firstn L uniform_bytes).

(** *** Elligator 2 (elligator2.go) *)

Definition mustFeFromBytes (b : list byte) : exec Element :=
  must "h2c: failed to deserialize constant: " (field.SetBytes b).

Definition mustFeFromUint64 (x : Z) : exec Element :=
  let b := zeros 32 in
  let b := copy_at b 0 32 (le_split 8 x) in
  mustFeFromBytes b.

Definition constZero : Element := Zero.
Definition constOne : Element := One.
Definition constTwo : Element := field.Add constOne constOne.

Definition constMONTGOMERY_A : Element :=
  unwrap (mustFeFromUint64 486662) I.
Definition constMONTGOMERY_A_SQUARED : Element :=
  unwrap (mustFeFromUint64 (486662 * 486662)) I.

Definition constSQRT_M1 : Element :=
  unwrap (mustFeFromBytes
    [xb0; xa0; x0e; x4a; x27; x1b; xee; xc4; x78; xe4; x2f; xad; x06; x18; x43; x2f;
     xa7; xd7; xfb; x3d; x99; x00; x4d; x2b; x0b; xdf; xc1; x4f; x80; x24; x83; x2b]) I.

Definition constMONTGOMERY_NEG_A : Element :=
  unwrap (mustFeFromBytes
    [xe7; x92; xf8; xff; xff; xff; xff; xff; xff; xff; xff; xff; xff; xff; xff; xff;
     xff; xff; xff; xff; xff; xff; xff; xff; xff; xff; xff; xff; xff; xff; xff; x7f]) I.

Definition constMONTGOMERY_SQRT_NEG_A_PLUS_TWO : Element :=
  unwrap (mustFeFromBytes
    [x06; x7e; x45; xff; xaa; x04; x6e; xcc; x82; x1a; x7d; x4b; xd1; xd3; xa1; xc5;
     x7e; x4f; xfc; x03; xdc; x08; x7b; xd2; xbb; x06; xa0; x60; xf4; xed; x26; x0f]) I.

Definition constMONTGOMERY_U_FACTOR : Element :=
  unwrap (mustFeFromBytes
    [x8d; xbe; xe2; x6b; xb1; xc9; x23; x76; x0e; x37; xa0; xa5; xf2; xcf; x79; xa1;
     xb1; x50; x08; x84; xcd; xfe; x65; xa9; xe9; x41; x7c; x60; xff; xb6; xf9; x28]) I.

Definition constMONTGOMERY_V_FACTOR : Element :=
  unwrap (mustFeFromBytes
    [x3e; x5f; xf1; xb5; xd8; xe4; x11; x3b; x87; x1b; xd0; x52; xf9; xe7; xbc; xd0;
     x58; x28; x04; xc2; x66; xff; xb2; xd4; xf4; x20; x3e; xb0; x7f; xdb; x7c; x54]) I.

Definition feIsZero (fe : Element) : Z := field.Equal fe constZero.

Definition ell2MontgomeryFlavor (r : Element) : Element * Element :=
  (* r1 *)
  let t1 := Square r in
  let t1 := Multiply t1 constTwo in
  (* r2 *)
  let u := field.Add t1 constOne in
  let t2 := Square u in
  (* numerator *)
  let t3 := Multiply constMONTGOMERY_A_SQUARED t1 in
  let t3 := Subtract t3 t2 in
  let t3 := Multiply t3 constMONTGOMERY_A in
  (* denominator *)
  let t1 := Multiply t2 u in
  let t1 := Multiply t1 t3 in
  let '(t1, isSquare) := SqrtRatio constOne t1 in
  let u := Square r in
  let u := Multiply u constMONTGOMERY_U_FACTOR in
  let v := Multiply r constMONTGOMERY_V_FACTOR in
  let u := Select constOne u isSquare in
  let v := Select constOne v isSquare in
  let v := Multiply v t3 in
  let v := Multiply v t1 in
  let t1 := Square t1 in
  let u := Multiply u constMONTGOMERY_NEG_A in
  let u := Multiply u t3 in
  let u := Multiply u t2 in
  let u := Multiply u t1 in
  let negV := field.Negate v in
  let v := Select negV v (Z.lxor isSquare (IsNegative v)) in
  (u, v).

Section WithPoints.
Context {rep : PointRep}.

Definition newEdwardsFromXY (x y : Element) : exec Point :=
  let Z := One in
  let T := Multiply x y in
  must "h2c: failed to create edwards point from x, y: "
       (SetExtendedCoordinates x y Z T).

Definition ell2EdwardsFlavor (r : Element) : exec Point :=
  let '(u, v) := ell2MontgomeryFlavor r in
  (* Per RFC 7748: (x, y) = (sqrt(-486664)*u/v, (u-1)/(u+1)) *)
  let x := Invert v in
  let x := Multiply x u in
  let x := Multiply x constMONTGOMERY_SQRT_NEG_A_PLUS_TWO in
  let uMinusOne := Subtract u constOne in
  let uPlusOne := field.Add u constOne in
  let uPlusOneIsZero := feIsZero uPlusOne in
  let uPlusOne := Invert uPlusOne in
  let y := Multiply uMinusOne uPlusOne in
  let resultUndefined := Z.lor (feIsZero v) uPlusOneIsZero in
  let x := Select constZero x resultUndefined in
  let y := Select constOne y resultUndefined in
  newEdwardsFromXY x y.

(** *** Montgomery points (montgomery.go of the h2c subdirectory) *)

Record montgomeryPoint : Type := { mont_u : Element; mont_v : Element }.

Definition newMontgomeryPointFromEdwards (p : Point) : montgomeryPoint :=
  let '(xExt, yExt, zExt, _) := ExtendedCoordinates p in
  (* Convert from extended (x, y, z, t) coordinates to x, y. *)
  let zInv := Invert zExt in
  let x := Multiply xExt zInv in
  let y := Multiply yExt zInv in
  (* Per RFC 7748: (u, v) = ((1+y)/(1-y), sqrt(-486664)*u/x) *)
  let onePlusY := field.Add constOne y in
  let oneMinusY := Subtract constOne y in
  let u := Invert oneMinusY in
  let u := Multiply onePlusY u in
  let v := Invert x in
  let v := Multiply v constMONTGOMERY_SQRT_NEG_A_PLUS_TWO in
  let v := Multiply v u in
  let u := Select constZero u (feIsZero x) in
  {| mont_u := u; mont_v := v |}.

Definition ToEdwardsPoint (v : montgomeryPoint) : exec Point :=
  (* Per RFC 7748: (x, y) = (sqrt(-486664)*u/v, (u-1)/(u+1)) *)
  let x := Invert (mont_v v) in
  let x := Multiply x (mont_u v) in
  let x := Multiply x constMONTGOMERY_SQRT_NEG_A_PLUS_TWO in
  let uMinusOne := Subtract (mont_u v) constOne in
  let uPlusOne := field.Add (mont_u v) constOne in
  let uPlusOneIsZero := feIsZero uPlusOne in
  let uPlusOne := Invert uPlusOne in
  let y := Multiply uMinusOne uPlusOne in
  (* The mapping is undefined when a denominator is zero: the
     identity is returned. *)
  let resultUndefined := Z.lor (feIsZero (mont_v v)) uPlusOneIsZero in
  let x := Select constZero x resultUndefined in
  let y := Select constOne y resultUndefined in
  (* Convert from Edwards (x, y) to extended (x, y, z, t) coordinates. *)
  newEdwardsFromXY x y.

(** *** Suites (h2c.go) *)

Fixpoint reversed_loop (b out : list byte) (i j : nat) : list byte :=
  (* for i, j := bLen-1, 0; i >= 0; i, j = i-1, j+1 { out[j] = b[i] } *)
  let out := update_at out j (fun _ => nth i b x00) in
  match i with
  | O => out
  | S i' => reversed_loop b out i' (S j)
  end.

Definition reversedByteSlice (b : list byte) : list byte :=
  let bLen := length b in
  if (bLen =? 0)%nat then []
  else
    let out := zeros bLen in
    reversed_loop b out (bLen - 1) 0.

Definition uniformToField25519 (b : list byte) : exec Element :=
  if negb (length b =? ell)%nat
  then Panic "h2c: invalid uniform bytes length"
  else
    let bExtended := zeros (64 - ell) in
    let bExtended := bExtended ++ b in
    let bLE := reversedByteSlice bExtended in
    must "h2c: failed to decode wide field element: " (SetWideBytes bLE).

Context {ops : PointOps}.

Definition hashToCurve (uniformBytes : list byte) : exec Point :=
  fe0 <- uniformToField25519 (slice uniformBytes 0 ell) ;;
  fe1 <- uniformToField25519 (slice uniformBytes ell hashToCurveSize) ;;
  Q0 <- ell2EdwardsFlavor fe0 ;;
  Q1 <- ell2EdwardsFlavor fe1 ;;
  let p := edwards25519.Add Q0 Q1 in
  Ret (MultByCofactor p).

Definition encodeToCurve (uniformBytes : list byte) : exec Point :=
  fe <- uniformToField25519 uniformBytes ;;
  Q <- ell2EdwardsFlavor fe ;;
  Ret (MultByCofactor Q).

(** [var uniformBytes [n]byte; ExpandMessageXMD(uniformBytes[:], ...)] *)
Definition expand_into (n : nat) (hFunc : crypto.Hash) (dst msg : list byte)
    : res (list byte) :=
  match ExpandMessageXMD n hFunc dst msg with
  | Ok out => Ok (copy_at (zeros n) 0 n out)
  | Err e => Err e
  end.

Definition Edwards25519_XMD_ELL2_RO (hFunc : crypto.Hash)
    (domainSeparator message : list byte) : exec (res Point) :=
  match expand_into hashToCurveSize hFunc domainSeparator message with
  | Err e => Ret (Err ("h2c: failed to expand message: " ++ e))
  | Ok uniformBytes => P <- hashToCurve uniformBytes ;; Ret (Ok P)
  end.

Definition Edwards25519_XMD_ELL2_NU (hFunc : crypto.Hash)
    (domainSeparator message : list byte) : exec (res Point) :=
  match expand_into encodeToCurveSize hFunc domainSeparator message with
  | Err e => Ret (Err ("h2c: failed to expand message: " ++ e))
  | Ok uniformBytes => P <- encodeToCurve uniformBytes ;; Ret (Ok P)
  end.

Context {H : Sha512}.

Definition Edwards25519_XMD_SHA512_ELL2_RO (domainSeparator message : list byte)
    : exec (res Point) :=
  Edwards25519_XMD_ELL2_RO crypto.SHA512 domainSeparator message.

Definition Edwards25519_XMD_SHA512_ELL2_NU (domainSeparator message : list byte)
    : exec (res Point) :=
  Edwards25519_XMD_ELL2_NU crypto.SHA512 domainSeparator message.

End WithPoints.

End h2c.

(** ** Backend: [crypto/ed25519] keys

    The private keys the VRF takes are the standard library's: the
    32-byte seed followed by the public key derived from it
    (RFC 8032, section 5.1.5). *)

Module ed25519.
Import edwards25519.

Section WithBackend.
Context {rep : PointRep} {ops : PointOps} {H : Sha512}.

Definition NewKeyFromSeed (seed : list byte) : exec (list byte) :=
  let l := length seed in
  if negb (l =? 32)%nat
  then Panic ("ed25519: bad seed length: " ++ coqutil.Datatypes.String.of_nat l)
  else
    let h := sum_into 64 (sha512 seed) in
    s <- must "ed25519: internal error: setting scalar failed"
           (Scalar.SetBytesWithClamping (slice h 0 32)) ;;
    let A := ScalarBaseMult s in
    let publicKey := Bytes A in
    let privateKey := zeros 64 in
    let privateKey := copy_at privateKey 0 64 seed in
    let privateKey := copy_at privateKey 32 64 publicKey in
    Ret privateKey.

Definition Public (priv : list byte) : list byte :=
  let publicKey := zeros 32 in
  copy_at publicKey 0 32 (skipn 32 priv).
End WithBackend.

End ed25519.

(** ** Package [ecvrf]: ECVRF-EDWARDS25519-SHA512-ELL2, draft 10 and earlier

    [hashToCurveH2cSuite] builds its input with [append(Y, alpha...)],
    which may write into the backing array of the key it was handed;
    [Prove] and [Verify] therefore take the memory and the argument
    slices.  The functions that only read take byte strings. *)

Module ecvrf.
Import edwards25519.

Definition ProofSize : nat := 80.
Definition OutputSize : nat := 64.

Definition zeroString : byte := x00.
Definition twoString : byte := x02.
Definition threeString : byte := x03.
Definition suiteString : byte := x04.

Definition h2cDST : list byte :=
  list_byte_of_string "ECVRF_" ++
  list_byte_of_string "edwards25519_XMD:SHA-512_ELL2_NU_" ++
  [suiteString].

Section WithBackend.
Context {rep : PointRep} {ops : PointOps} {H : Sha512}.

Definition hashToCurveH2cSuite (m : Mem) (Y alphaString : Slice)
    : Mem * exec (res Point) :=
  let '(m, stringToHash) := append_slice m Y (load m alphaString) in
  (m, h2c.Edwards25519_XMD_SHA512_ELL2_NU h2cDST (load m stringToHash)).

Definition hashPoints (p1 p2 : list byte) (p3 p4 : Point) : exec Scalar.t :=
  let digest :=
    sum_into 64 (sha512 ([suiteString; twoString] ++ p1 ++ p2 ++
                         Bytes p3 ++ Bytes p4 ++ [zeroString])) in
  let cString := zeros 32 in
  let cString := copy_at cString 0 16 (slice digest 0 16) in
  must "ecvrf: failed to deserialize c scalar: " (Scalar.SetCanonicalBytes cString).

Definition gammaToHash (gamma : Point) : list byte :=
  let cG := MultByCofactor gamma in
  sha512 ([suiteString; threeString] ++ Bytes cG ++ [zeroString]).

Definition decodeProof (piString : list byte) : res (Point * Scalar.t * Scalar.t) :=
  let l := length piString in
  if negb (l =? ProofSize)%nat
  then Err ("ecvrf: invalid proof size: " ++ coqutil.Datatypes.String.of_nat l)
  else
    let gammaString := slice piString 0 32 in
    match SetBytes (slice gammaString 0 32) with
    | Err e => Err ("ecvrf: failed to decompress gamma: " ++ e)
    | Ok gamma =>
        if negb (ConstantTimeCompare (Bytes gamma) gammaString =? 1)
        then Err "ecvrf: non-canonical gamma"
        else
          let cString := zeros 32 in
          let cString := copy_at cString 0 16 (skipn 32 piString) in
          match Scalar.SetCanonicalBytes cString with
          | Err e => Err ("ecvrf: failed to deserialize c scalar: " ++ e)
          | Ok c =>
              match Scalar.SetCanonicalBytes (skipn 48 piString) with
              | Err e => Err ("ecvrf: failed to deserialize s scalar: " ++ e)
              | Ok s => Ok (gamma, c, s)
              end
          end
    end.

Definition Prove (m : Mem) (sk alphaString : Slice) : exec (list byte) :=
  if negb (len sk =? 64)%nat
  then Panic "ecvrf: bad private key length"
  else
    let extsk := sum_into 64 (sha512 (load m (slice_to sk 32))) in
    x <- must "ecvrf: failed to deserialize x scalar: "
           (Scalar.SetBytesWithClamping (slice extsk 0 32)) ;;
    let extsk := update_at extsk 0 (fun b => byte_and b 248) in
    let extsk := update_at extsk 31 (fun b => byte_and b 127) in
    let extsk := update_at extsk 31 (fun b => byte_or b 64) in
    let Y := slice_from sk 32 in
    let '(m, r) := hashToCurveH2cSuite m Y alphaString in
    r <- r ;;
    H <- must "ecvrf: failed to hash point to curve: " r ;;
    let hString := Bytes H in
    let gamma := ScalarMult x H in
    let gammaString := Bytes gamma in
    let digest := sum_into 64 (sha512 (skipn 32 extsk ++ hString)) in
    k <- must "ecvrf: failed to deserialize k scalar: "
           (Scalar.SetUniformBytes digest) ;;
    let kB := ScalarBaseMult k in
    let kH := ScalarMult k H in
    c <- hashPoints hString gammaString kB kH ;;
    let s := Scalar.Multiply c x in
    let s := Scalar.Add s k in
    let piString := zeros ProofSize in
    let piString := copy_at piString 0 32 gammaString in
    let piString := copy_at piString 32 ProofSize (Scalar.Bytes c) in
    let piString := copy_at piString 48 ProofSize (Scalar.Bytes s) in
    Ret piString.

Definition ProofToHash (piString : list byte) : res (list byte) :=
  match decodeProof piString with
  | Err e => Err ("ecvrf: failed to decode proof: " ++ e)
  | Ok (gamma, _, _) => Ok (gammaToHash gamma)
  end.

Definition Verify (m : Mem) (pk piString alphaString : Slice)
    : exec (bool * option (list byte)) :=
  match decodeProof (load m piString) with
  | Err _ => Ret (false, None)
  | Ok (gamma, c, s) =>
      let gammaString := slice_to piString 32 in
      let yString := pk in
      match SetBytes (load m yString) with
      | Err _ => Ret (false, None)
      | Ok Y =>
          if negb (bytes_eqb (Bytes Y) (load m yString)) then Ret (false, None)
          else
            let cY := MultByCofactor Y in
            if Equal cY NewIdentityPoint =? 1 then Ret (false, None)
            else
              let '(m, r) := hashToCurveH2cSuite m yString alphaString in
              r <- r ;;
              H <- must "ecvrf: failed to hash point to curve: " r ;;
              let hString := Bytes H in
              let Y := Negate Y in
              let U := VarTimeDoubleScalarBaseMult c Y s in
              let negGamma := Negate gamma in
              let V := VarTimeMultiScalarMult [s; c] [H; negGamma] in
              cPrime <- hashPoints hString (load m gammaString) U V ;;
              if Scalar.Equal c cPrime =? 0 then Ret (false, None)
              else Ret (true, Some (gammaToHash gamma))
      end
  end.
End WithBackend.

End ecvrf.

(** ** Package [vrf]: ECVRF-EDWARDS25519-SHA512-ELL2, RFC 9381 and draft 10

    This copy builds the hash-to-curve input in a buffer of its own
    ([make] followed by [append]) and never writes through its
    arguments; its functions take byte strings. *)

Module vrf.
Import edwards25519.

Definition ProofSize : nat := 80.
Definition OutputSize : nat := 64.

Definition zeroString : byte := x00.
Definition twoString : byte := x02.
Definition threeString : byte := x03.
Definition suiteString : byte := x04.

Definition h2cDST : list byte :=
  list_byte_of_string "ECVRF_" ++
  list_byte_of_string "edwards25519_XMD:SHA-512_ELL2_NU_" ++
  [suiteString].

Section WithBackend.
Context {rep : PointRep} {ops : PointOps} {H : Sha512}.

Definition encodeToCurveH2cSuite (encodeToCurveSalt alphaString : list byte)
    : exec (res Point) :=
  let stringToHash := [] in
  let stringToHash := stringToHash ++ encodeToCurveSalt in
  let stringToHash := stringToHash ++ alphaString in
  h2c.Edwards25519_XMD_SHA512_ELL2_NU h2cDST stringToHash.

Definition challengeGeneration (p1 p2 p3 : list byte) (p4 p5 : Point)
    : exec Scalar.t :=
  let str := [suiteString; twoString] in
  let str := if (0 <? length p1)%nat then str ++ p1 else str in
  let str := str ++ p2 in
  let str := str ++ p3 in
  let str := str ++ Bytes p4 in
  let str := str ++ Bytes p5 in
  let str := str ++ [zeroString] in
  let digest := sum_into 64 (sha512 str) in
  let cString := zeros 32 in
  let cString := copy_at cString 0 16 (slice digest 0 16) in
  must "ecvrf: failed to deserialize c scalar: " (Scalar.SetCanonicalBytes cString).

Definition gammaToHash (gamma : Point) : list byte :=
  let cG := MultByCofactor gamma in
  sha512 ([suiteString; threeString] ++ Bytes cG ++ [zeroString]).

Definition decodeProof (piString : list byte) : res (Point * Scalar.t * Scalar.t) :=
  let l := length piString in
  if negb (l =? ProofSize)%nat
  then Err ("ecvrf: invalid proof size: " ++ coqutil.Datatypes.String.of_nat l)
  else
    let gammaString := slice piString 0 32 in
    match SetBytes (slice gammaString 0 32) with
    | Err e => Err ("ecvrf: failed to decompress gamma: " ++ e)
    | Ok gamma =>
        if negb (ConstantTimeCompare (Bytes gamma) gammaString =? 1)
        then Err "ecvrf: non-canonical gamma"
        else
          let cString := zeros 32 in
          let cString := copy_at cString 0 16 (skipn 32 piString) in
          match Scalar.SetCanonicalBytes cString with
          | Err e => Err ("ecvrf: failed to deserialize c scalar: " ++ e)
          | Ok c =>
              match Scalar.SetCanonicalBytes (skipn 48 piString) with
              | Err e => Err ("ecvrf: failed to deserialize s scalar: " ++ e)
              | Ok s =>
                  if negb (ConstantTimeCompare (Scalar.Bytes s) (skipn 48 piString) =? 1)
                  then Err "ecvrf: non-canonical s scalar"
                  else Ok (gamma, c, s)
              end
          end
    end.

Definition doProve (sk alphaString : list byte) (draftPreV11 : bool)
    : exec (list byte) :=
  if negb (length sk =? 64)%nat
  then Panic "ecvrf: bad private key length"
  else
    let extsk := sum_into 64 (sha512 (slice sk 0 32)) in
    x <- must "ecvrf: failed to deserialize x scalar: "
           (Scalar.SetBytesWithClamping (slice extsk 0 32)) ;;
    let extsk := update_at extsk 0 (fun b => byte_and b 248) in
    let extsk := update_at extsk 31 (fun b => byte_and b 127) in
    let extsk := update_at extsk 31 (fun b => byte_or b 64) in
    let Y := skipn 32 sk in
    r <- encodeToCurveH2cSuite Y alphaString ;;
    H <- must "ecvrf: failed to hash point to curve: " r ;;
    let hString := Bytes H in
    let gamma := ScalarMult x H in
    let gammaString := Bytes gamma in
    let digest := sum_into 64 (sha512 (skipn 32 extsk ++ hString)) in
    k <- must "ecvrf: failed to deserialize k scalar: "
           (Scalar.SetUniformBytes digest) ;;
    let p1 := [] in
    let kB := ScalarBaseMult k in
    let kH := ScalarMult k H in
    let p1 := if negb draftPreV11 then Y else p1 in
    c <- challengeGeneration p1 hString gammaString kB kH ;;
    let s := Scalar.Multiply c x in
    let s := Scalar.Add s k in
    let piString := zeros ProofSize in
    let piString := copy_at piString 0 32 gammaString in
    let piString := copy_at piString 32 ProofSize (Scalar.Bytes c) in
    let piString := copy_at piString 48 ProofSize (Scalar.Bytes s) in
    Ret piString.

Definition Prove (sk alphaString : list byte) : exec (list byte) :=
  doProve sk alphaString false.

Definition Prove_v10 (sk alphaString : list byte) : exec (list byte) :=
  doProve sk alphaString true.

Definition ProofToHash (piString : list byte) : res (list byte) :=
  match decodeProof piString with
  | Err e => Err ("ecvrf: failed to decode proof: " ++ e)
  | Ok (gamma, _, _) => Ok (gammaToHash gamma)
  end.

Definition doVerify (pk piString alphaString : list byte) (draftPreV11 : bool)
    : exec (bool * option (list byte)) :=
  let yString := pk in
  match SetBytes yString with
  | Err _ => Ret (false, None)
  | Ok Y =>
      if negb (bytes_eqb (Bytes Y) yString) then Ret (false, None)
      else
        let cY := MultByCofactor Y in
        if Equal cY NewIdentityPoint =? 1 then Ret (false, None)
        else
          match decodeProof piString with
          | Err _ => Ret (false, None)
          | Ok (gamma, c, s) =>
              let gammaString := slice piString 0 32 in
              r <- encodeToCurveH2cSuite yString alphaString ;;
              H <- must "ecvrf: failed to hash point to curve: " r ;;
              let hString := Bytes H in
              let Y := Negate Y in
              let U := VarTimeDoubleScalarBaseMult c Y s in
              let negGamma := Negate gamma in
              let V := VarTimeMultiScalarMult [s; c] [H; negGamma] in
              let p1 := [] in
              let p1 := if negb draftPreV11 then pk else p1 in
              cPrime <- challengeGeneration p1 hString gammaString U V ;;
              if Scalar.Equal c cPrime =? 0 then Ret (false, None)
              else Ret (true, Some (gammaToHash gamma))
          end
  end.

Definition Verify (pk piString alphaString : list byte)
    : exec (bool * option (list byte)) :=
  doVerify pk piString alphaString false.

Definition Verify_v10 (pk piString alphaString : list byte)
    : exec (bool * option (list byte)) :=
  doVerify pk piString alphaString true.
End WithBackend.

End vrf.

(** ** Reference models of the backend interfaces

    Two small implementations of the interfaces, on which the
    contracts can be checked and the packages run:
    [extended_rep] keeps a point as validated extended coordinates,
    as the Go type does; [cyclic_rep], [cyclic_ops] present the group
    as the integers modulo [q] under addition, with generator 1. *)

Module models.
Import field edwards25519.

Definition valid_coordinates (c : Element * Element * Element * Element) : bool :=
  let '(X, Y, Z, T) := c in
  isOnCurve X Y Z T && negb (Zmod.eqb Z Zmod.zero).

Record ExtendedPoint : Type := {
  coords : Element * Element * Element * Element;
  coords_valid : valid_coordinates coords = true
}.

Definition extended_identity : ExtendedPoint :=
  {| coords := (Zero, One, One, Zero);
     coords_valid := @eq_refl bool true <: valid_coordinates (Zero, One, One, Zero) = true |}.

Definition extended_SetExtendedCoordinates (X Y Z T : Element) : res ExtendedPoint :=
  match valid_coordinates (X, Y, Z, T) as b
        return valid_coordinates (X, Y, Z, T) = b -> res ExtendedPoint with
  | true => fun pf => Ok {| coords := (X, Y, Z, T); coords_valid := pf |}
  | false => fun _ =>
      if isOnCurve X Y Z T
      then Ok extended_identity
      else Err "edwards25519: invalid point coordinates"
  end eq_refl.

Definition extended_rep : PointRep :=
  {| Point := ExtendedPoint;
     SetExtendedCoordinates := extended_SetExtendedCoordinates;
     ExtendedCoordinates := coords |}.

Definition cyclic_rep : PointRep :=
  {| Point := Zmod q;
     SetExtendedCoordinates := fun X Y Z T =>
       if isOnCurve X Y Z T
       then Ok (Zmod.of_Z q (Zmod.to_Z Y + Zmod.to_Z X))
       else Err "edwards25519: invalid point coordinates";
     ExtendedCoordinates := fun _ => (Zero, One, One, Zero) |}.

Definition cyclic_ops : @PointOps cyclic_rep :=
  {| NewIdentityPoint := (Zmod.zero : @Point cyclic_rep);
     NewGeneratorPoint := (Zmod.one : @Point cyclic_rep);
     SetBytes := fun x =>
       if (length x =? 32)%nat
       then Ok (Zmod.of_Z q (le_combine x) : @Point cyclic_rep)
       else Err "edwards25519: invalid point encoding length";
     Bytes := fun P : @Point cyclic_rep => le_split 32 (Zmod.to_Z P);
     Add := fun P Q : @Point cyclic_rep => (Zmod.add P Q : @Point cyclic_rep);
     Negate := fun P : @Point cyclic_rep => (Zmod.opp P : @Point cyclic_rep);
     Equal := fun P Q : @Point cyclic_rep => if Zmod.eqb P Q then 1 else 0;
     ScalarMult := fun s (P : @Point cyclic_rep) => (Zmod.mul s P : @Point cyclic_rep);
     ScalarBaseMult := fun s => (s : @Point cyclic_rep);
     MultByCofactor := fun P : @Point cyclic_rep =>
       (Zmod.mul (Zmod.of_Z q 8) P : @Point cyclic_rep);
     VarTimeDoubleScalarBaseMult := fun a (A : @Point cyclic_rep) b =>
       (Zmod.add (Zmod.mul a A) b : @Point cyclic_rep);
     VarTimeMultiScalarMult := fun scalars (points : list (@Point cyclic_rep)) =>
       (fold_right Zmod.add Zmod.zero
          (map (fun sP : Scalar.t * Zmod q => Zmod.mul (fst sP) (snd sP))
               (combine scalars points)) : @Point cyclic_rep) |}.

(** A stand-in for SHA-512: 64 bytes into which every byte of the
    message is folded (a multiplicative hash in the manner of FNV). *)
Definition sample_sha512 : Sha512 :=
  {| sha512 := fun m =>
       le_split 64
         (fold_left
            (fun acc b => ((acc * 1099511628211 + byte.unsigned b + 1) mod 2 ^ 512))
            m 14695981039346656037) |}.

End models.

(** * Statements and sample inputs *)

(** The vocabulary of the statements below, and the concrete inputs
    on which they are run. *)

Module statements.
Import edwards25519.

(** [OS2IP]: a byte string read as a big-endian integer. *)
Definition OS2IP (b : list byte) : Z :=
  fold_left (fun acc x => acc * 256 + byte.unsigned x) b 0.

Section WithBackend.
Context {rep : PointRep} {ops : PointOps}.

(** A canonical point encoding: it decodes, and the decoded point
    encodes back to the same bytes. *)
Definition canonical_point_encoding (b : list byte) : Prop :=
  exists P, SetBytes b = Ok P /\ Bytes P = b.

(** A verification that returns [(false, nil)] on every failure of
    the key or of the proof, and nothing but [(false, nil)] or
    [(true, beta)]. *)
Definition rejects_cleanly (pk : list byte)
    (decoded : res (Point * Scalar.t * Scalar.t))
    (run : exec (bool * option (list byte))) : Prop :=
  (run = Ret (false, None) \/ exists beta, run = Ret (true, Some beta)) /\
  ((forall Y, SetBytes pk <> Ok Y) -> run = Ret (false, None)) /\
  (forall Y, SetBytes pk = Ok Y -> Bytes Y <> pk -> run = Ret (false, None)) /\
  (forall Y, SetBytes pk = Ok Y -> zmul 8 Y = NewIdentityPoint ->
             run = Ret (false, None)) /\
  ((forall g c s, decoded <> Ok (g, c, s)) -> run = Ret (false, None)).
End WithBackend.

End statements.

Module samples.
Import edwards25519 models.

Definition run {A : Type} (d : A) (m : exec A) : A :=
  match m with Ret a => a | Panic _ => d end.

Definition sample_seed : list byte :=
  map (fun i => byte.of_Z (Z.of_nat i)) (seq 1 32).
Definition sample_sk : list byte :=
  Eval vm_compute in
    run [] (@ed25519.NewKeyFromSeed cyclic_rep cyclic_ops sample_sha512 sample_seed).
Definition sample_pk : list byte := Eval vm_compute in ed25519.Public sample_sk.
Definition sample_alpha : list byte := [x61].
Definition sample_pi : list byte :=
  Eval vm_compute in
    run [] (@vrf.Prove_v10 cyclic_rep cyclic_ops sample_sha512 sample_sk sample_alpha).
Definition sample_beta : list byte :=
  Eval vm_compute in
    match @vrf.ProofToHash cyclic_rep cyclic_ops sample_sha512 sample_pi with
    | Ok b => b
    | Err _ => []
    end.

(** One buffer [pk || pi || alpha], and the three arguments as
    windows on it: [buf[:32]], [buf[32:112]], [buf[112:]]. *)
Definition shared_buffer : Mem := sample_pk ++ sample_pi ++ sample_alpha.
Definition pk_window : Slice := {| off := 0; len := 32; cap := 113 |}.
Definition pi_window : Slice := {| off := 32; len := 80; cap := 81 |}.
Definition alpha_window : Slice := {| off := 112; len := 1; cap := 1 |}.
(** The key and the message in arrays of their own. *)
Definition key_buffer : Mem := sample_sk ++ sample_alpha.
Definition sk_window : Slice := {| off := 0; len := 64; cap := 64 |}.
Definition message_window : Slice := {| off := 64; len := 1; cap := 1 |}.

(** The key as a window without spare capacity. *)
Definition pk_exact_window : Slice := {| off := 0; len := 32; cap := 32 |}.

(** The 48 bytes 0x01, 0x02, ..., 0x30. *)
Definition sample_uniform_bytes : list byte :=
  map (fun i => byte.of_Z (Z.of_nat i)) (seq 1 48).

(** The Montgomery point [(0, 0)]. *)
Definition montgomery_origin : h2c.montgomeryPoint :=
  {| h2c.mont_u := Zmod.zero; h2c.mont_v := Zmod.zero |}.

Definition sample_field_element : field.Element := Zmod.of_Z field.p 5.

End samples.

(** * Properties *)

Module Primality_facts.
Import Primality.

Lemma powmod_pos_spec a e n : 0 < n -> powmod_pos a e n = a ^ Zpos e mod n.
Proof.
  intros Hn.
  induction e as [e IH|e IH|]; cbn [powmod_pos].
  - rewrite IH, Pos2Z.inj_xI.
    replace (2 * Z.pos e + 1) with (Z.pos e + Z.pos e + 1) by lia.
    rewrite !Z.pow_add_r, Z.pow_1_r by lia.
    rewrite <- Z.mul_mod by lia. rewrite Z.mul_mod_idemp_l by lia. reflexivity.
  - rewrite IH, Pos2Z.inj_xO.
    replace (2 * Z.pos e) with (Z.pos e + Z.pos e) by lia.
    rewrite Z.pow_add_r, <- Z.mul_mod by lia. reflexivity.
  - now rewrite Z.pow_1_r.
Qed.

Lemma powmod_spec a e n : 0 < n -> 0 <= e -> powmod a e n = a ^ e mod n.
Proof.
  intros Hn He. destruct e as [|e|e]; cbn [powmod].
  - reflexivity.
  - now apply powmod_pos_spec.
  - lia.
Qed.

(** Trial division. *)

Lemma no_divisor_from_spec n d fuel :
  no_divisor_from n d fuel = true ->
  forall k, d <= k < d + Z.of_nat fuel -> n mod k <> 0.
Proof.
  revert d; induction fuel as [|fuel IH]; intros d H k Hk; [lia|].
  cbn [no_divisor_from] in H. apply andb_true_iff in H as [H1 H2].
  apply negb_true_iff, Z.eqb_neq in H1.
  destruct (Z.eq_dec k d) as [->|]; [assumption|].
  apply (IH (d + 1)); [assumption|lia].
Qed.

Lemma trial_prime_sound n : trial_prime n = true -> Z.prime n.
Proof.
  unfold trial_prime. intros H. apply andb_true_iff in H as [H1 H2].
  apply Z.ltb_lt in H1. split; [assumption|].
  intros m Hm [c Hc].
  pose proof (no_divisor_from_spec _ _ _ H2) as ND.
  pose proof (Z.sqrt_spec n ltac:(lia)) as [S1 S2].
  assert (Hs : 1 <= Z.sqrt n) by (apply Z.sqrt_le_square; lia).
  assert (1 < c) by nia.
  destruct (Z_le_gt_dec m (Z.sqrt n)) as [L|G].
  - apply (ND m); [lia|]. subst n. apply Z.mod_mul. lia.
  - assert (c <= Z.sqrt n) by nia.
    apply (ND c); [lia|]. subst n. rewrite Z.mul_comm. apply Z.mod_mul. lia.
Qed.

(** Existence of a prime divisor. *)
Lemma bounded_divisor_dec d b :
  0 <= b ->
  (exists n, 1 < n < b /\ (n | d)) \/ (forall n, 1 < n < b -> ~ (n | d)).
Proof.
  intros Hb. pattern b. apply natlike_ind; [|clear b Hb|assumption].
  - right. intros; lia.
  - intros b Hb [(n & Hn & Hd)|IH].
    + left. exists n. split; [lia|assumption].
    + destruct (Z_lt_dec 1 b) as [L|L].
      * destruct (Z.BoolSpec_divide b d) as [D|D].
        -- left. exists b. split; [lia|assumption].
        -- right. intros n Hn. destruct (Z.eq_dec n b) as [->|]; [assumption|].
           apply IH. lia.
      * right. intros; lia.
Qed.

Lemma exists_prime_divisor d : 1 < d -> exists r, Z.prime r /\ (r | d).
Proof.
  intros Hd.
  assert (H : forall k, 0 <= k -> forall d, 1 < d <= k -> exists r, Z.prime r /\ (r | d)).
  { clear d Hd. intros k Hk. pattern k. apply natlike_ind; [| |assumption].
    - intros; lia.
    - clear k Hk. intros k Hk IH d Hd.
      destruct (bounded_divisor_dec d d ltac:(lia)) as [(n & Hn & Hdiv)|ND].
      + destruct (IH n ltac:(lia)) as (r & Hr & Hrn).
        exists r. split; [assumption|]. now apply Z.divide_trans with n.
      + exists d. split; [|apply Z.divide_refl]. split; [lia|assumption]. }
  apply (H d); lia.
Qed.

Lemma pow_mod_one x e k r :
  1 < r -> 0 <= e -> 0 <= k -> x ^ e mod r = 1 -> x ^ (e * k) mod r = 1.
Proof.
  intros Hr He Hk H.
  rewrite Z.pow_mul_r by assumption.
  rewrite <- Z.mod_pow_l, H, Z.pow_1_l by assumption.
  apply Z.mod_1_l; lia.
Qed.

Lemma bezout_nonneg a b :
  0 < a -> 0 < b -> exists s t, 0 <= s /\ 0 <= t /\ s * a = t * b + Z.gcd a b.
Proof.
  intros Ha Hb.
  destruct (Z.gcd_bezout a b (Z.gcd a b) eq_refl) as (s & t & E).
  exists (s + (Z.abs s + Z.abs t) * b), ((Z.abs s + Z.abs t) * a - t).
  split; [nia|]. split; [nia|]. lia.
Qed.

Section Pocklington.
Variables (N r : Z).
Hypothesis HN : 1 < N.
Hypothesis Hr : Z.prime r.
Hypothesis HrN : (r | N).

Let g := Z.gcd (N - 1) (r - 1).

Lemma mod_N_mod_r x : (x mod N) mod r = x mod r.
Proof.
  pose proof (Z.prime_ge_2 _ Hr). destruct HrN as [c Hc].
  rewrite (Z.mod_eq x N) by lia. rewrite Hc.
  replace (x - c * r * (x / (c * r))) with (x + (- c * (x / (c * r))) * r) by ring.
  apply Z.mod_add. lia.
Qed.

Lemma witness_pow_gcd a :
  powmod a (N - 1) N = 1 -> a ^ g mod r = 1.
Proof.
  intros H. pose proof (Z.prime_ge_2 _ Hr) as Hr2.
  rewrite powmod_spec in H by lia.
  assert (H1 : a ^ (N - 1) mod r = 1).
  { rewrite <- mod_N_mod_r, H. apply Z.mod_1_l; lia. }
  assert (Ha : a mod r <> 0).
  { intros Z0. rewrite <- Z.mod_pow_l, Z0, Z.pow_0_l, Z.mod_0_l in H1 by lia. lia. }
  pose proof (Z.fermat_nz r a Hr Ha) as H2.
  destruct (bezout_nonneg (N - 1) (r - 1)) as (s & t & Hs & Ht & E); [lia|lia|].
  fold g in E.
  assert (Hg : 0 <= g) by apply Z.gcd_nonneg.
  pose proof (pow_mod_one a (N - 1) s r ltac:(lia) ltac:(lia) Hs H1) as E1.
  pose proof (pow_mod_one a (r - 1) t r ltac:(lia) ltac:(lia) Ht H2) as E2.
  rewrite (Z.mul_comm (N - 1)), E in E1.
  rewrite Z.pow_add_r in E1 by nia.
  rewrite (Z.mul_comm (r - 1)) in E2.
  rewrite <- Z.mul_mod_idemp_l, E2, Z.mul_1_l in E1 by lia.
  exact E1.
Qed.

Lemma cofactor_coprime q a h :
  1 < q -> N - 1 = g * h ->
  pock_check N (q, a) = true -> ~ (q | h).
Proof.
  intros Hq Hh H [h' Hh']. pose proof (Z.prime_ge_2 _ Hr) as Hr2.
  cbn [pock_check] in H. apply andb_true_iff in H as [H1 H2].
  apply Z.eqb_eq in H1, H2.
  pose proof (witness_pow_gcd a H1) as G.
  assert (Hg : 0 < g).
  { pose proof (Z.gcd_nonneg (N - 1) (r - 1)).
    destruct (Z.eq_dec g 0) as [E|]; [|unfold g in *; lia].
    unfold g in E. apply Z.gcd_eq_0_l in E. lia. }
  assert (Hh0 : 0 < h') by nia.
  assert (Ediv : (N - 1) / q = g * h').
  { rewrite Hh, Hh'. rewrite Z.mul_assoc. apply Z.div_mul. lia. }
  rewrite Ediv in H2. rewrite powmod_spec in H2 by nia.
  pose proof (pow_mod_one a g h' r ltac:(lia) ltac:(lia) ltac:(lia) G) as G'.
  assert (D : (r | a ^ (g * h') mod N - 1)).
  { apply Z.mod_divide; [lia|].
    rewrite <- Zminus_mod_idemp_l, mod_N_mod_r, G'. apply Z.mod_0_l. lia. }
  pose proof (Z.gcd_greatest _ _ _ D HrN) as D1. rewrite H2 in D1.
  apply Z.divide_1_r_nonneg in D1; lia.
Qed.

Lemma prime_divisor_large (qas : list (Z * Z)) :
  let F := fold_right Z.mul 1 (map fst qas) in
  (F | N - 1) ->
  Forall (fun qa => Z.prime (fst qa)) qas ->
  forallb (pock_check N) qas = true ->
  (F | r - 1).
Proof.
  intros F HF Hqs Hck. pose proof (Z.prime_ge_2 _ Hr) as Hr2.
  destruct (Z.gcd_divide_l (N - 1) (r - 1)) as [h Hh]. fold g in Hh.
  rewrite Z.mul_comm in Hh.
  assert (C : Z.coprime F h).
  { subst F. clear HF. induction qas as [|[q a] l IH]; cbn [map fold_right fst].
    - apply Z.coprime_1_l.
    - inversion Hqs as [|? ? Hq Hl]; subst. cbn [fst] in Hq.
      cbn [forallb] in Hck. apply andb_true_iff in Hck as [C1 C2].
      apply Z.coprime_mul_l; [|now apply IH].
      apply Z.coprime_prime_l; [assumption|].
      apply (cofactor_coprime q a); [pose proof (Z.prime_ge_2 _ Hq); lia|assumption|assumption]. }
  apply Z.divide_trans with g; [|apply Z.gcd_divide_r].
  rewrite Hh, Z.mul_comm in HF.
  apply Z.gauss with h; assumption.
Qed.
End Pocklington.

Theorem pocklington N qas :
  pock_certificate N qas = true ->
  Forall (fun qa => Z.prime (fst qa)) qas ->
  Z.prime N.
Proof.
  unfold pock_certificate. intros H Hqs.
  repeat (apply andb_true_iff in H as [H ?]).
  apply Z.ltb_lt in H. apply Z.eqb_eq in H3. apply Z.leb_le in H2.
  set (F := fold_right Z.mul 1 (map fst qas)) in *.
  assert (HF : (F | N - 1)).
  { apply Z.mod_divide; [|assumption]. intros E. rewrite E in H2. lia. }
  assert (Large : forall r, Z.prime r -> (r | N) -> F < r).
  { intros r Hr HrN. pose proof (Z.prime_ge_2 _ Hr).
    pose proof (prime_divisor_large N r H Hr HrN qas HF Hqs H0) as D.
    fold F in D. apply Z.divide_pos_le in D; lia. }
  split; [assumption|]. intros n Hn [c Hc].
  assert (Hc1 : 1 < c) by nia.
  destruct (exists_prime_divisor n ltac:(lia)) as (r1 & P1 & D1).
  destruct (exists_prime_divisor c Hc1) as (r2 & P2 & D2).
  assert (L1 : F < r1).
  { apply Large; [assumption|]. apply Z.divide_trans with n; [assumption|].
    exists c. lia. }
  assert (L2 : F < r2).
  { apply Large; [assumption|]. apply Z.divide_trans with c; [assumption|].
    exists n. lia. }
  apply Z.divide_pos_le in D1; [|lia]. apply Z.divide_pos_le in D2; [|lia].
  assert (0 < F).
  { subst F. clear -Hqs. induction Hqs as [|[q a] l Hq _ IH]; cbn [map fold_right fst]; [lia|].
    cbn [fst] in Hq. pose proof (Z.prime_ge_2 _ Hq). nia. }
  nia.
Qed.

Ltac by_trial := apply trial_prime_sound; vm_compute; reflexivity.
Ltac by_pocklington qas :=
  apply (pocklington _ qas); [vm_compute; reflexivity
    |repeat (first [apply Forall_nil | apply Forall_cons]); cbn [fst]].

Lemma prime_223 : Z.prime 223. Proof. by_trial. Qed.
Lemma prime_4153 : Z.prime 4153. Proof. by_trial. Qed.
Lemma prime_430751 : Z.prime 430751. Proof. by_trial. Qed.
Lemma prime_47 : Z.prime 47. Proof. by_trial. Qed.
Lemma prime_8574133 : Z.prime 8574133. Proof. by_trial. Qed.
Lemma prime_2773320623 : Z.prime 2773320623. Proof. by_trial. Qed.

Lemma prime_72106336199 : Z.prime 72106336199.
Proof. by_pocklington [(2773320623, 2)]. exact prime_2773320623. Qed.

Lemma prime_1919519569386763 : Z.prime 1919519569386763.
Proof.
  by_pocklington [(8574133, 2); (47, 2); (47, 2)];
    [exact prime_8574133|exact prime_47|exact prime_47].
Qed.

Lemma prime_31757755568855353 : Z.prime 31757755568855353.
Proof.
  by_pocklington [(430751, 2); (4153, 2); (223, 2)];
    [exact prime_430751|exact prime_4153|exact prime_223].
Qed.

Lemma prime_75445702479781427272750846543864801 :
  Z.prime 75445702479781427272750846543864801.
Proof.
  by_pocklington [(1919519569386763, 2); (72106336199, 2)];
    [exact prime_1919519569386763|exact prime_72106336199].
Qed.

Lemma prime_p1 :
  Z.prime 74058212732561358302231226437062788676166966415465897661863160754340907.
Proof.
  by_pocklington [(75445702479781427272750846543864801, 2); (31757755568855353, 2)];
    [exact prime_75445702479781427272750846543864801|exact prime_31757755568855353].
Qed.

Theorem prime_2_255_19 : Z.prime (2 ^ 255 - 19).
Proof.
  by_pocklington
    [(74058212732561358302231226437062788676166966415465897661863160754340907, 2)].
  exact prime_p1.
Qed.

End Primality_facts.

(** * Proofs *)

#[global] Instance prime_p : Z.prime field.p := Primality_facts.prime_2_255_19.

(** ** Bytes *)

Lemma bytes_eqb_eq a b : bytes_eqb a b = true <-> a = b.
Proof.
  revert b; induction a as [|x a IH]; intros [|y b]; cbn [bytes_eqb];
    try (split; [discriminate|discriminate]); [tauto|].
  rewrite andb_true_iff, IH. split.
  - intros [E ->]. apply Byte.byte_dec_bl in E. now subst.
  - intros E; inversion E; subst. split; [now apply Byte.byte_dec_lb|reflexivity].
Qed.

Lemma ConstantTimeCompare_eq a b : ConstantTimeCompare a b = 1 <-> a = b.
Proof.
  unfold ConstantTimeCompare. rewrite <- bytes_eqb_eq.
  destruct (bytes_eqb a b); split; (reflexivity || discriminate).
Qed.

Lemma ConstantTimeCompare_cases a b :
  (a = b /\ ConstantTimeCompare a b = 1) \/ (a <> b /\ ConstantTimeCompare a b = 0).
Proof.
  unfold ConstantTimeCompare. destruct (bytes_eqb a b) eqn:E.
  - left. split; [now apply bytes_eqb_eq|reflexivity].
  - right. split; [|reflexivity]. intros H. apply bytes_eqb_eq in H. congruence.
Qed.

Lemma le_split_inj n a b :
  0 <= a < 2 ^ (Z.of_nat n * 8) -> 0 <= b < 2 ^ (Z.of_nat n * 8) ->
  le_split n a = le_split n b -> a = b.
Proof.
  intros Ha Hb E. apply (f_equal le_combine) in E.
  rewrite !le_combine_split in E. rewrite !Z.mod_small in E by assumption. exact E.
Qed.

(** ** The field *)

Module field_facts.
Import field.

Lemma p_pos : 0 < p. Proof. reflexivity. Qed.

Lemma to_Z_range (x : Element) : 0 <= Zmod.to_Z x < p.
Proof. apply Zmod.unsigned_pos_bound. exact p_pos. Qed.

Lemma Bytes_inj (a b : Element) : Bytes a = Bytes b -> a = b.
Proof.
  intros E. apply Zmod.unsigned_inj. unfold Bytes in E.
  apply le_split_inj in E; [assumption| |].
  all: match goal with |- context [Zmod.to_Z ?x] => pose proof (to_Z_range x) end.
  all: assert (p < 2 ^ (Z.of_nat 32 * 8)) by reflexivity; lia.
Qed.

Lemma Equal_cases (a b : Element) :
  (a = b /\ Equal a b = 1) \/ (a <> b /\ Equal a b = 0).
Proof.
  unfold Equal. destruct (ConstantTimeCompare_cases (Bytes a) (Bytes b)) as [[E ->]|[E ->]].
  - left. split; [now apply Bytes_inj|reflexivity].
  - right. split; [congruence|reflexivity].
Qed.

Lemma Equal_refl (a : Element) : Equal a a = 1.
Proof. destruct (Equal_cases a a) as [[_ E]|[E _]]; congruence. Qed.

Lemma Equal_1_iff (a b : Element) : Equal a b = 1 <-> a = b.
Proof. destruct (Equal_cases a b) as [[E ->]|[E ->]]; split; (congruence || discriminate). Qed.

Lemma Equal_neq (a b : Element) : a <> b -> Equal a b = 0.
Proof. destruct (Equal_cases a b) as [[E ->]|[E ->]]; congruence. Qed.

Lemma Select_1 a b : Select a b 1 = a. Proof. reflexivity. Qed.
Lemma Select_0 a b : Select a b 0 = b. Proof. reflexivity. Qed.

Lemma IsNegative_parity (v : Element) : IsNegative v = Zmod.to_Z v mod 2.
Proof.
  unfold IsNegative, Bytes.
  change (le_split 32 (Zmod.to_Z v))
    with (byte.of_Z (Zmod.to_Z v) :: le_split 31 (Z.shiftr (Zmod.to_Z v) 8)).
  cbn [hd]. rewrite byte.unsigned_of_Z. unfold byte.wrap.
  change 1 with (Z.ones 1). rewrite Z.land_ones by lia.
  change (2 ^ 8) with 256. change (2 ^ 1) with 2.
  rewrite (Z.mod_eq (Zmod.to_Z v) 256) by lia.
  replace (Zmod.to_Z v - 256 * (Zmod.to_Z v / 256))
    with (Zmod.to_Z v + (- 128 * (Zmod.to_Z v / 256)) * 2) by ring.
  apply Z.mod_add. lia.
Qed.

Lemma IsNegative_cases (v : Element) : IsNegative v = 0 \/ IsNegative v = 1.
Proof. rewrite IsNegative_parity. pose proof (Z.mod_pos_bound (Zmod.to_Z v) 2). lia. Qed.

Lemma to_Z_Negate (v : Element) :
  Zmod.to_Z (Negate v) = if Zmod.to_Z v =? 0 then 0 else p - Zmod.to_Z v.
Proof.
  unfold Negate. rewrite Zmod.unsigned_opp. pose proof (to_Z_range v).
  destruct (Z.eqb_spec (Zmod.to_Z v) 0) as [->|N]; [reflexivity|].
  rewrite <- (Z.mod_add _ 1) by (unfold p; lia).
  rewrite Z.mod_small by lia. lia.
Qed.

Lemma Negate_involutive (v : Element) : Negate (Negate v) = v.
Proof. unfold Negate. apply Zmod.opp_opp. Qed.

Lemma Absolute_Negate (v : Element) : Absolute (Negate v) = Absolute v.
Proof.
  unfold Absolute. rewrite !IsNegative_parity, Negate_involutive, to_Z_Negate.
  pose proof (to_Z_range v) as R.
  destruct (Z.eqb_spec (Zmod.to_Z v) 0) as [E|N].
  - rewrite E. cbn. apply Zmod.unsigned_inj. rewrite to_Z_Negate, E. reflexivity.
  - assert (Hp : p mod 2 = 1) by reflexivity.
    assert (E : (p - Zmod.to_Z v) mod 2 = 1 - Zmod.to_Z v mod 2).
    { pose proof (Z.mod_pos_bound (Zmod.to_Z v) 2 ltac:(lia)).
      rewrite Zminus_mod, Hp.
      destruct (Z.eq_dec (Zmod.to_Z v mod 2) 0) as [->| ]; [reflexivity|].
      replace (Zmod.to_Z v mod 2) with 1 by lia. reflexivity. }
    rewrite E. pose proof (Z.mod_pos_bound (Zmod.to_Z v) 2 ltac:(lia)).
    destruct (Z.eq_dec (Zmod.to_Z v mod 2) 0) as [->|]; [reflexivity|].
    replace (Zmod.to_Z v mod 2) with 1 by lia. reflexivity.
Qed.

End field_facts.

Module sqrt_facts.
Import field field_facts.

Lemma flag_lor a b : (a = 0 \/ a = 1) -> (b = 0 \/ b = 1) -> Z.lor a b = 0 \/ Z.lor a b = 1.
Proof. intros [->| ->] [->| ->]; cbn; auto. Qed.

Lemma Equal_flag (a b : Element) : Equal a b = 0 \/ Equal a b = 1.
Proof. destruct (Equal_cases a b) as [[_ ->]|[_ ->]]; auto. Qed.

Lemma SqrtRatio_flag (u v : Element) :
  snd (SqrtRatio u v) = 0 \/ snd (SqrtRatio u v) = 1.
Proof. unfold SqrtRatio. cbn [snd]. apply flag_lor; apply Equal_flag. Qed.

End sqrt_facts.

Module h2c_facts.
Import field field_facts sqrt_facts h2c.

Lemma Square_Negate (r : Element) : Square (Negate r) = Square r.
Proof. unfold Square, Negate. rewrite Zmod.mul_opp_opp. reflexivity. Qed.

Lemma Multiply_Negate_l (a b : Element) : Multiply (Negate a) b = Negate (Multiply a b).
Proof. unfold Multiply, Negate. apply Zmod.mul_opp_l. Qed.

(** C10: the Elligator 2 Montgomery map is even: [r] and [-r] have the
    same image [(u, v)]. *)
Theorem ell2MontgomeryFlavor_even (r : Element) :
  ell2MontgomeryFlavor (Negate r) = ell2MontgomeryFlavor r.
Proof.
  unfold ell2MontgomeryFlavor. rewrite Square_Negate.
  set (t1 := Multiply (Square r) constTwo).
  set (u0 := Add t1 constOne).
  set (t2 := Square u0).
  set (t3 := Multiply (Subtract (Multiply constMONTGOMERY_A_SQUARED t1) t2) constMONTGOMERY_A).
  pose proof (SqrtRatio_flag constOne (Multiply (Multiply t2 u0) t3)) as F.
  destruct (SqrtRatio constOne (Multiply (Multiply t2 u0) t3)) as [t1' isSquare].
  cbn [snd] in F. destruct F as [-> | ->].
  - rewrite !Select_0. rewrite !Multiply_Negate_l.
    change (Z.lxor 0 ?x) with x.
    set (v := Multiply (Multiply (Multiply r constMONTGOMERY_V_FACTOR) t3) t1').
    f_equal. change (Absolute (Negate v) = Absolute v). apply Absolute_Negate.
  - rewrite !Select_1. reflexivity.
Qed.

End h2c_facts.

Module sqrt_facts2.
Import field field_facts sqrt_facts.

Ltac fe_unfold :=
  unfold Multiply, Square, Add, Subtract, Negate, One, Zero in *.

Lemma sqrtM1_sq : Zmod.mul sqrtM1 sqrtM1 = Zmod.opp Zmod.one.
Proof. vm_compute. reflexivity. Qed.

Lemma fourth_roots_of_unity (w : Element) :
  Zmod.pow w 4 = Zmod.one ->
  w = One \/ w = Negate One \/ w = sqrtM1 \/ w = Negate sqrtM1.
Proof.
  intros H. change 4 with (2 * 2) in H. rewrite Zmod.pow_mul_r_nonneg in H by lia.
  apply (Zmod.square_roots_1_prime prime_p) in H. destruct H as [H|H].
  - apply (Zmod.square_roots_1_prime prime_p) in H. tauto.
  - assert (E : Zmod.pow w 2 = Zmod.pow sqrtM1 2).
    { rewrite H, (Zmod.pow_2_r sqrtM1), sqrtM1_sq. reflexivity. }
    apply (Zmod.square_roots_opp_prime prime_p) in E. tauto.
Qed.

Lemma pow22523_fourth (z : Element) :
  z <> Zmod.zero ->
  Zmod.pow (Zmod.mul z (Zmod.mul (Pow22523 z) (Pow22523 z))) 4 = Zmod.one.
Proof.
  intros Hz. unfold Pow22523.
  rewrite <- Zmod.pow_2_r, <- Zmod.pow_mul_r_nonneg by lia.
  rewrite Zmod.pow_mul_l_nonneg, <- Zmod.pow_mul_r_nonneg by lia.
  rewrite <- (Zmod.pow_1_r z) at 1.
  rewrite <- Zmod.pow_mul_r_nonneg, <- Zmod.pow_add_r_nonneg by lia.
  replace (1 * 4 + (2 ^ 252 - 3) * 2 * 4) with (Z.pred p) by reflexivity.
  apply Zmod.fermat_nz; [assumption|exact prime_p].
Qed.

Lemma Equal_mul_l (u a b : Element) :
  u <> Zmod.zero -> Equal (Zmod.mul u a) (Zmod.mul u b) = Equal a b.
Proof.
  intros Hu.
  destruct (Equal_cases a b) as [[E ->]|[E ->]].
  - subst. apply Equal_refl.
  - apply Equal_neq. intros H. apply E.
    now apply (Zmod.mul_cancel_l_prime u a b prime_p Hu).
Qed.

Lemma Absolute_sq (x : Element) :
  Zmod.mul (Absolute x) (Absolute x) = Zmod.mul x x.
Proof.
  unfold Absolute. destruct (IsNegative_cases x) as [-> | ->].
  - reflexivity.
  - rewrite Select_1. unfold Negate. apply Zmod.mul_opp_opp.
Qed.

Lemma mul_nz (a b : Element) : a <> Zmod.zero -> b <> Zmod.zero -> Zmod.mul a b <> Zmod.zero.
Proof. intros Ha Hb H. apply (Zmod.mul_0_iff_prime prime_p) in H. tauto. Qed.

Lemma flags_One :
  Equal One One = 1 /\ Equal One (Negate One) = 0 /\ Equal One (Negate sqrtM1) = 0.
Proof. repeat split; vm_compute; reflexivity. Qed.
Lemma flags_NegOne :
  Equal (Negate One) One = 0 /\ Equal (Negate One) (Negate One) = 1 /\
  Equal (Negate One) (Negate sqrtM1) = 0.
Proof. repeat split; vm_compute; reflexivity. Qed.
Lemma flags_I :
  Equal sqrtM1 One = 0 /\ Equal sqrtM1 (Negate One) = 0 /\ Equal sqrtM1 (Negate sqrtM1) = 0.
Proof. repeat split; vm_compute; reflexivity. Qed.
Lemma flags_NegI :
  Equal (Negate sqrtM1) One = 0 /\ Equal (Negate sqrtM1) (Negate One) = 0 /\
  Equal (Negate sqrtM1) (Negate sqrtM1) = 1.
Proof. repeat split; vm_compute; reflexivity. Qed.

(** What [SqrtRatio] returns for nonzero arguments: a root of [u/v]
    with flag 1, or a root of [sqrt(-1) u/v] with flag 0. *)
Lemma SqrtRatio_spec (u v : Element) :
  u <> Zmod.zero -> v <> Zmod.zero ->
  exists r ws, SqrtRatio u v = (r, ws) /\
    ((ws = 1 /\ Zmod.mul v (Zmod.mul r r) = u) \/
     (ws = 0 /\ Zmod.mul v (Zmod.mul r r) = Zmod.mul sqrtM1 u)).
Proof.
  intros Hu Hv. unfold SqrtRatio.
  set (v2 := Square v). set (uv3 := Multiply u (Multiply v2 v)).
  set (z := Multiply uv3 (Square v2)). set (y := Pow22523 z).
  set (rr := Multiply uv3 y). set (check := Multiply v (Square rr)).
  assert (Hz : z <> Zmod.zero).
  { subst z uv3 v2. fe_unfold. repeat apply mul_nz; assumption. }
  pose (w := Zmod.mul z (Zmod.mul y y)).
  pose proof (pow22523_fourth z Hz) as W4. fold y in W4. fold w in W4.
  assert (Hc : check = Zmod.mul u w).
  { subst check w rr z uv3 v2. fe_unfold. nsatz. }
  assert (F1 : Equal check u = Equal w One).
  { rewrite Hc. rewrite <- (Equal_mul_l u w One Hu). f_equal. unfold One. nsatz. }
  assert (F2 : Equal check (Negate u) = Equal w (Negate One)).
  { rewrite Hc. rewrite <- (Equal_mul_l u w (Negate One) Hu). f_equal. fe_unfold. nsatz. }
  assert (F3 : Equal check (Multiply (Negate u) sqrtM1) = Equal w (Negate sqrtM1)).
  { rewrite Hc. rewrite <- (Equal_mul_l u w (Negate sqrtM1) Hu). f_equal. fe_unfold. nsatz. }
  rewrite F1, F2, F3.
  assert (Hrr : Zmod.mul v (Zmod.mul rr rr) = Zmod.mul u w) by exact Hc.
  pose proof sqrtM1_sq as I2.
  clearbody w rr. clear F1 F2 F3.
  eexists _, _. split; [reflexivity|].
  rewrite Absolute_sq.
  destruct (fourth_roots_of_unity w W4) as [E|[E|[E|E]]]; clear W4; subst w.
  - destruct flags_One as (-> & -> & ->). cbn [Z.lor]. rewrite Select_0.
    left. split; [reflexivity|]. rewrite Hrr. unfold One. nsatz.
  - destruct flags_NegOne as (-> & -> & ->). cbn [Z.lor]. rewrite Select_1.
    left. split; [reflexivity|].
    revert Hrr I2. generalize sqrtM1. intros i Hrr I2. fe_unfold. nsatz.
  - destruct flags_I as (-> & -> & ->). cbn [Z.lor]. rewrite Select_0.
    right. split; [reflexivity|]. rewrite Hrr. nsatz.
  - destruct flags_NegI as (-> & -> & ->). cbn [Z.lor]. rewrite Select_1.
    right. split; [reflexivity|].
    revert Hrr I2. generalize sqrtM1. intros i Hrr I2. fe_unfold. nsatz.
Qed.

End sqrt_facts2.

Add Ring fe_ring : (Zmod.ring_theory field.p).

Module elligator_facts.
Import field field_facts sqrt_facts sqrt_facts2 h2c.

Local Open Scope Zmod_scope.

Lemma alg_square (A t1 u v : Element) :
  let u0 := t1 + 1 in
  let t3 := (A * A * t1 - u0 * u0) * A in
  u0 <> 0 ->
  u * u0 = - A ->
  v * v * (u0 * u0 * u0) = t3 ->
  v * v = u * u * u + A * (u * u) + u.
Proof.
  intros u0 t3 H0 Hu Hv.
  apply (Zmod.mul_cancel_r_prime (u0 * u0 * u0) _ _ prime_p).
  { repeat apply mul_nz; assumption. }
  rewrite Hv.
  replace ((u * u * u + A * (u * u) + u) * (u0 * u0 * u0))
    with ((u * u0) * (u * u0) * (u * u0) + A * ((u * u0) * (u * u0)) * u0 + (u * u0) * (u0 * u0))
    by ring.
  rewrite Hu. subst t3 u0. ring.
Qed.

Lemma alg_nonsquare (A t1 u v : Element) :
  let u0 := t1 + 1 in
  let t3 := (A * A * t1 - u0 * u0) * A in
  u0 <> 0 ->
  u * u0 = - A * t1 ->
  v * v * (u0 * u0 * u0) = t1 * t3 ->
  v * v = u * u * u + A * (u * u) + u.
Proof.
  intros u0 t3 H0 Hu Hv.
  apply (Zmod.mul_cancel_r_prime (u0 * u0 * u0) _ _ prime_p).
  { repeat apply mul_nz; assumption. }
  rewrite Hv.
  replace ((u * u * u + A * (u * u) + u) * (u0 * u0 * u0))
    with ((u * u0) * (u * u0) * (u * u0) + A * ((u * u0) * (u * u0)) * u0 + (u * u0) * (u0 * u0))
    by ring.
  rewrite Hu. subst t3 u0. ring.
Qed.

(** The constants, as the package's self-test derives them. *)
Lemma const_A_SQUARED : constMONTGOMERY_A_SQUARED = constMONTGOMERY_A * constMONTGOMERY_A.
Proof. vm_compute. reflexivity. Qed.
Lemma const_NEG_A : constMONTGOMERY_NEG_A = - constMONTGOMERY_A.
Proof. vm_compute. reflexivity. Qed.
Lemma const_SQRT_M1 : constSQRT_M1 = sqrtM1.
Proof. vm_compute. reflexivity. Qed.
Lemma const_U_FACTOR : constMONTGOMERY_U_FACTOR = - constTwo * constSQRT_M1.
Proof. vm_compute. reflexivity. Qed.
Lemma const_V_FACTOR_sq :
  constMONTGOMERY_V_FACTOR * constMONTGOMERY_V_FACTOR = constMONTGOMERY_U_FACTOR.
Proof. vm_compute. reflexivity. Qed.
Lemma const_Two : constTwo = 1 + 1.
Proof. reflexivity. Qed.
Lemma const_A_to_Z : Zmod.to_Z constMONTGOMERY_A = 486662%Z.
Proof. vm_compute. reflexivity. Qed.

Lemma U_FACTOR_sqrtM1 : constMONTGOMERY_U_FACTOR * sqrtM1 = 1 + 1.
Proof. vm_compute. reflexivity. Qed.

Lemma neq_by_to_Z (a b : Element) : Zmod.to_Z a <> Zmod.to_Z b -> a <> b.
Proof. congruence. Qed.

Lemma A_nz : constMONTGOMERY_A <> 0.
Proof. apply neq_by_to_Z. vm_compute. discriminate. Qed.

Lemma one_neq_m1 : (1 : Element) <> - (1).
Proof. apply neq_by_to_Z. vm_compute. discriminate. Qed.

Lemma one_nz : (1 : Element) <> 0.
Proof. apply neq_by_to_Z. vm_compute. discriminate. Qed.

Lemma two_euler : Zmod.pow (1 + 1 : Element) ((p - 1) / 2) = - (1).
Proof. vm_compute. reflexivity. Qed.

(** 2 is not a square modulo [p]. *)
Lemma two_nonsquare (x : Element) : x * x <> 1 + 1.
Proof.
  intros H.
  assert (Hx : x <> 0).
  { intros ->. rewrite Zmod.mul_0_l in H. revert H. apply neq_by_to_Z. vm_compute. discriminate. }
  pose proof (Zmod.fermat_nz x Hx prime_p) as F.
  replace (Z.pred p) with (2 * ((p - 1) / 2))%Z in F by reflexivity.
  rewrite Zmod.pow_mul_r_nonneg in F by (vm_compute; discriminate).
  rewrite Zmod.pow_2_r, H, two_euler in F.
  apply one_neq_m1. now symmetry.
Qed.

Lemma two_nonsquare_ratio (a b : Element) : b <> 0 -> a * a <> (1 + 1) * (b * b).
Proof.
  intros Hb H.
  apply (two_nonsquare (a * Zmod.inv b)).
  pose proof (Zmod.mul_inv_same_r_prime b prime_p Hb) as I.
  replace (a * Zmod.inv b * (a * Zmod.inv b)) with (a * a * (Zmod.inv b * Zmod.inv b)) by ring.
  rewrite H.
  replace ((1 + 1) * (b * b) * (Zmod.inv b * Zmod.inv b))
    with ((1 + 1) * ((b * Zmod.inv b) * (b * Zmod.inv b))) by ring.
  rewrite I. ring.
Qed.

Lemma ell2_u0_nz (r : Element) : r * r * (1 + 1) + 1 <> 0.
Proof.
  intros H.
  destruct (Zmod.eqb_spec r 0) as [->|Hr].
  - revert H. apply neq_by_to_Z. vm_compute. discriminate.
  - apply (two_nonsquare_ratio sqrtM1 r Hr). rewrite sqrtM1_sq.
    replace ((1 + 1) * (r * r)) with (r * r * (1 + 1) + 1 - 1) by ring.
    rewrite H. ring.
Qed.

Lemma ell2_t3_nz (A r : Element) :
  A <> 0 ->
  let t1 := r * r * (1 + 1) in
  let u0 := t1 + 1 in
  (A * A * t1 - u0 * u0) * A <> 0.
Proof.
  intros HA t1 u0. apply mul_nz; [|assumption]. intros H.
  destruct (Zmod.eqb_spec r 0) as [E|Hr].
  - subst t1 u0. rewrite E in H.
    assert (E1 : - (1) = (0 : Element)) by (rewrite <- H; ring).
    revert E1. apply neq_by_to_Z. vm_compute. discriminate.
  - apply (two_nonsquare_ratio u0 (A * r)); [now apply mul_nz|].
    replace ((1 + 1) * (A * r * (A * r))) with (A * A * t1) by (subst t1; ring).
    replace (A * A * t1) with (A * A * t1 - u0 * u0 + u0 * u0) by ring.
    rewrite H. ring.
Qed.

Lemma Select_neg_sq (v : Element) (cond : Z) :
  Select (Negate v) v cond * Select (Negate v) v cond = v * v.
Proof.
  unfold Select. destruct (cond =? 1)%Z; [|reflexivity].
  unfold Negate. apply Zmod.mul_opp_opp.
Qed.

(** The image of the Elligator 2 map lies on the Montgomery curve. *)
Lemma ell2MontgomeryFlavor_curve_eq (r : Element) :
  let '(u, v) := ell2MontgomeryFlavor r in
  v * v = u * u * u + constMONTGOMERY_A * (u * u) + u.
Proof.
  unfold ell2MontgomeryFlavor.
  set (A := constMONTGOMERY_A).
  set (t1 := Multiply (Square r) constTwo).
  set (u0 := Add t1 constOne).
  set (t2 := Square u0).
  set (t3 := Multiply (Subtract (Multiply constMONTGOMERY_A_SQUARED t1) t2) A).
  set (d := Multiply (Multiply t2 u0) t3).
  assert (Et1 : t1 = r * r * (1 + 1)) by reflexivity.
  assert (Eu0 : u0 = t1 + 1) by reflexivity.
  assert (Et2 : t2 = u0 * u0) by reflexivity.
  assert (Et3 : t3 = (A * A * t1 - u0 * u0) * A).
  { subst t3 t2. rewrite const_A_SQUARED. reflexivity. }
  assert (Ed : d = t2 * u0 * t3) by reflexivity.
  clearbody d t3 t2 u0 t1.
  assert (Hu0 : u0 <> 0) by (rewrite Eu0, Et1; apply ell2_u0_nz).
  assert (Ht3 : t3 <> 0) by (rewrite Et3, Eu0, Et1; apply ell2_t3_nz, A_nz).
  assert (Hd : d <> 0).
  { rewrite Ed, Et2. apply mul_nz; [apply mul_nz; [apply mul_nz|]|]; assumption. }
  destruct (SqrtRatio_spec constOne d one_nz Hd) as (s & ws & -> & Hs).
  rewrite Select_neg_sq.
  destruct Hs as [[-> Hs]|[-> Hs]].
  - rewrite !Select_1.
    rewrite Eu0 in Hu0. 
    apply (alg_square A t1); [exact Hu0| |].
    + rewrite <- Eu0. rewrite const_NEG_A. fold A. unfold Multiply, Square, constOne, One.
      replace (1 * - A * t3 * t2 * (s * s) * u0) with (- A * (d * (s * s))) by (rewrite Ed; ring).
      rewrite Hs. unfold constOne, One. ring.
    + rewrite <- Eu0, <- Et3. unfold Multiply, Square, constOne, One.
      replace (1 * t3 * s * (1 * t3 * s) * (u0 * u0 * u0)) with (t3 * (d * (s * s)))
        by (rewrite Ed, Et2; ring).
      rewrite Hs. unfold constOne, One. ring.
  - rewrite !Select_0.
    rewrite Eu0 in Hu0.
    apply (alg_nonsquare A t1); [exact Hu0| |].
    + rewrite <- Eu0. rewrite const_NEG_A. fold A. unfold Multiply, Square.
      replace (r * r * constMONTGOMERY_U_FACTOR * - A * t3 * t2 * (s * s) * u0)
        with (- A * (r * r) * constMONTGOMERY_U_FACTOR * (d * (s * s))) by (rewrite Ed; ring).
      rewrite Hs. unfold constOne, One.
      replace (- A * (r * r) * constMONTGOMERY_U_FACTOR * (sqrtM1 * 1))
        with (- A * (r * r) * (constMONTGOMERY_U_FACTOR * sqrtM1)) by ring.
      rewrite U_FACTOR_sqrtM1, Et1. ring.
    + rewrite <- Eu0, <- Et3. unfold Multiply, Square.
      replace (r * constMONTGOMERY_V_FACTOR * t3 * s * (r * constMONTGOMERY_V_FACTOR * t3 * s) *
               (u0 * u0 * u0))
        with (r * r * (constMONTGOMERY_V_FACTOR * constMONTGOMERY_V_FACTOR) * t3 * (d * (s * s)))
        by (rewrite Ed, Et2; ring).
      rewrite Hs, const_V_FACTOR_sq. unfold constOne, One.
      replace (r * r * constMONTGOMERY_U_FACTOR * t3 * (sqrtM1 * 1))
        with (r * r * (constMONTGOMERY_U_FACTOR * sqrtM1) * t3) by ring.
      rewrite U_FACTOR_sqrtM1, Et1. ring.
Qed.

End elligator_facts.

Module h2c_claims.
Import statements.
Import samples.
Import field field_facts sqrt_facts sqrt_facts2 elligator_facts h2c.

(** C4: for every field element [r], the pair [(u, v)] returned by
    [ell2MontgomeryFlavor r] satisfies [v^2 = u^3 + 486662 u^2 + u]
    modulo [p]; the map has no exceptional input on which this fails. *)
Theorem ell2MontgomeryFlavor_on_curve (r : Element) :
  let '(u, v) := ell2MontgomeryFlavor r in
  (Zmod.to_Z v ^ 2) mod p =
  (Zmod.to_Z u ^ 3 + 486662 * Zmod.to_Z u ^ 2 + Zmod.to_Z u) mod p.
Proof.
  pose proof (ell2MontgomeryFlavor_curve_eq r) as H.
  destruct (ell2MontgomeryFlavor r) as [u v].
  apply Zmod.of_Z_inj.
  replace (Zmod.to_Z v ^ 2) with (Zmod.to_Z v * Zmod.to_Z v) by ring.
  replace (Zmod.to_Z u ^ 3) with (Zmod.to_Z u * Zmod.to_Z u * Zmod.to_Z u) by ring.
  replace (Zmod.to_Z u ^ 2) with (Zmod.to_Z u * Zmod.to_Z u) by ring.
  rewrite <- const_A_to_Z.
  rewrite !Zmod.of_Z_add, !Zmod.of_Z_mul, !Zmod.of_Z_unsigned.
  exact H.
Qed.

(** [OS2IP]: a byte string read as a big-endian integer (RFC 8017). *)
Lemma le_combine_cons (h : byte) (t : list byte) :
  le_combine (h :: t) = byte.unsigned h + 256 * le_combine t.
Proof.
  change (le_combine (h :: t))
    with (Z.lor (byte.unsigned h) (Z.shiftl (le_combine t) 8)).
  pose proof (byte.unsigned_range h) as R.
  rewrite Z.or_to_plus.
  - rewrite Z.shiftl_mul_pow2 by lia. change (2 ^ 8) with 256. ring.
  - apply Z.bits_inj'. intros i Hi. rewrite Z.land_spec, Z.bits_0.
    destruct (Z.ltb_spec i 8).
    + rewrite Z.shiftl_spec_low by lia. apply andb_false_r.
    + rewrite (prove_Zeq_bitwise.testbit_above R) by lia. reflexivity.
Qed.

Lemma le_combine_snoc (l : list byte) (x : byte) :
  le_combine (l ++ [x]) = le_combine l + byte.unsigned x * 2 ^ (8 * Z.of_nat (length l)).
Proof.
  induction l as [|h t IH].
  - cbn [app length]. rewrite le_combine_cons. change (le_combine []) with 0.
    change (8 * Z.of_nat 0) with 0. rewrite Z.pow_0_r. ring.
  - cbn [app length]. rewrite !le_combine_cons, IH, Nat2Z.inj_succ.
    replace (8 * Z.succ (Z.of_nat (length t))) with (8 + 8 * Z.of_nat (length t)) by lia.
    rewrite Z.pow_add_r by lia. change (2 ^ 8) with 256. ring.
Qed.

Lemma OS2IP_fold (b : list byte) (acc : Z) :
  fold_left (fun acc x => acc * 256 + byte.unsigned x) b acc =
  acc * 2 ^ (8 * Z.of_nat (length b)) + le_combine (rev b).
Proof.
  revert acc; induction b as [|x b IH]; intros acc.
  - cbn. change (le_combine []) with 0. ring.
  - cbn [fold_left rev length]. rewrite IH, le_combine_snoc, length_rev, Nat2Z.inj_succ.
    replace (8 * Z.succ (Z.of_nat (length b))) with (8 + 8 * Z.of_nat (length b)) by lia.
    rewrite Z.pow_add_r by lia. change (2 ^ 8) with 256. ring.
Qed.

Lemma OS2IP_le_combine (b : list byte) : OS2IP b = le_combine (rev b).
Proof. unfold OS2IP. rewrite OS2IP_fold. ring. Qed.

Lemma update_at_lt (l : list byte) (j : nat) (f : byte -> byte) :
  (j < length l)%nat ->
  update_at l j f = firstn j l ++ f (nth j l x00) :: skipn (S j) l.
Proof.
  intros Hj. unfold update_at.
  destruct (nth_error l j) as [x|] eqn:E.
  - now rewrite (nth_error_nth _ _ x00 E).
  - apply nth_error_None in E. lia.
Qed.

Lemma length_update_at (l : list byte) (j : nat) (f : byte -> byte) :
  length (update_at l j f) = length l.
Proof.
  unfold update_at. destruct (nth_error l j) as [x|] eqn:E; [|reflexivity].
  assert (j < length l)%nat by (apply nth_error_Some; congruence).
  rewrite length_app. cbn [length]. rewrite length_firstn, length_skipn. lia.
Qed.

Lemma firstn_succ_nth (l : list byte) (n : nat) :
  (n < length l)%nat -> firstn (S n) l = firstn n l ++ [nth n l x00].
Proof.
  revert n; induction l as [|h t IH]; intros n Hn; cbn [length] in Hn; [lia|].
  destruct n as [|n]; [reflexivity|].
  cbn [firstn nth app]. f_equal. apply IH. lia.
Qed.

Lemma firstn_succ_app (l1 r : list byte) (v : byte) (j : nat) :
  length l1 = j -> firstn (S j) (l1 ++ v :: r) = l1 ++ [v].
Proof.
  intros <-. replace (S (length l1)) with (length l1 + 1)%nat by lia.
  rewrite firstn_app_2. reflexivity.
Qed.

Lemma skipn_succ_app (l1 r : list byte) (v : byte) (j k : nat) :
  length l1 = j -> skipn (S j + k) (l1 ++ v :: r) = skipn k r.
Proof.
  intros <-. rewrite skipn_app, skipn_all2 by lia.
  replace (S (length l1) + k - length l1)%nat with (S k) by lia. reflexivity.
Qed.

Lemma reversed_loop_spec (b : list byte) (i : nat) :
  forall (out : list byte) (j : nat),
    (i < length b)%nat -> (j + i < length out)%nat ->
    reversed_loop b out i j =
    firstn j out ++ rev (firstn (S i) b) ++ skipn (j + S i) out.
Proof.
  induction i as [|i IH]; intros out j Hb Hout; cbn [reversed_loop].
  - rewrite update_at_lt by lia.
    rewrite (firstn_succ_nth b 0) by lia. change (firstn 0 b) with (@nil byte).
    replace (j + 1)%nat with (S j) by lia. reflexivity.
  - rewrite IH; [|lia|rewrite length_update_at; lia].
    rewrite update_at_lt by lia.
    assert (Lj : length (firstn j out) = j) by (rewrite length_firstn; lia).
    rewrite (firstn_succ_app _ _ _ j Lj), (skipn_succ_app _ _ _ j (S i) Lj).
    rewrite (firstn_succ_nth b (S i)) by lia.
    rewrite rev_app_distr, skipn_skipn.
    replace (S i + S j)%nat with (j + S (S i))%nat by lia.
    rewrite <- !app_assoc. reflexivity.
Qed.

Lemma reversedByteSlice_rev (b : list byte) : reversedByteSlice b = rev b.
Proof.
  unfold reversedByteSlice.
  destruct (Nat.eqb_spec (length b) 0) as [E|N].
  - destruct b; [reflexivity|discriminate].
  - rewrite reversed_loop_spec;
      [|lia|unfold zeros; rewrite repeat_length; lia].
    replace (S (length b - 1)) with (length b) by lia.
    rewrite firstn_all. cbn [firstn app].
    rewrite skipn_all2 by (unfold zeros; rewrite repeat_length; lia).
    apply app_nil_r.
Qed.

Lemma SetWideBytes_reversed (b : list byte) :
  length b = 48%nat ->
  SetWideBytes (rev (zeros 16 ++ b)) = Ok (Zmod.of_Z p (OS2IP b)).
Proof.
  intros Hb. unfold SetWideBytes. rewrite length_rev, length_app, Hb.
  unfold zeros at 1. rewrite repeat_length. cbn [Nat.add Nat.eqb].
  rewrite rev_app_distr, OS2IP_le_combine.
  unfold zeros. rewrite rev_repeat. now rewrite le_combine_app_0.
Qed.

Lemma uniformToField25519_unfold (b : list byte) :
  length b = 48%nat ->
  uniformToField25519 b = must "h2c: failed to decode wide field element: "
                            (SetWideBytes (rev (zeros 16 ++ b))).
Proof.
  intros Hb. unfold uniformToField25519. rewrite Hb. cbn [ell Nat.eqb negb Nat.sub].
  rewrite reversedByteSlice_rev. reflexivity.
Qed.

(** C6: on a 48-byte input [b], [uniformToField25519] does not panic
    and returns the field element whose canonical representative, in
    [[0, p)], is [OS2IP b mod p]; it is the wide reduction of [b]
    left-padded with zeros to 64 bytes and reversed. *)
Theorem uniformToField25519_spec (b : list byte) :
  length b = 48%nat ->
  exists fe : Element,
    uniformToField25519 b = Ret fe /\
    SetWideBytes (rev (zeros 16 ++ b)) = Ok fe /\
    Zmod.to_Z fe = OS2IP b mod p /\
    0 <= Zmod.to_Z fe < p.
Proof.
  intros Hb. exists (Zmod.of_Z p (OS2IP b)).
  pose proof (SetWideBytes_reversed b Hb) as E.
  split.
  { rewrite uniformToField25519_unfold by exact Hb. rewrite E. reflexivity. }
  split; [exact E|].
  split; [apply Zmod.unsigned_of_Z|].
  apply to_Z_range.
Qed.

Lemma uniformToField25519_spec_witness :
  length sample_uniform_bytes = 48%nat /\
  exists fe : Element,
    uniformToField25519 sample_uniform_bytes = Ret fe /\
    SetWideBytes (rev (zeros 16 ++ sample_uniform_bytes)) = Ok fe /\
    Zmod.to_Z fe = OS2IP sample_uniform_bytes mod p /\
    0 <= Zmod.to_Z fe < p.
Proof.
  split; [reflexivity|].
  apply (uniformToField25519_spec sample_uniform_bytes). reflexivity.
Defined.

End h2c_claims.

Ltac fring := change field.Element with (Zmod field.p) in *; ring.

Module edwards_facts.
Import field field_facts sqrt_facts sqrt_facts2 elligator_facts edwards25519 h2c.
Local Open Scope Zmod_scope.

Lemma Invert_nz (z : Element) : z <> 0 -> Invert z = Zmod.inv z.
Proof. intros Hz. unfold Invert. now apply Zmod.fermat_inv; [|exact prime_p]. Qed.

Lemma Invert_0 : Invert 0 = 0.
Proof. unfold Invert. apply Zmod.pow_0_l. vm_compute. discriminate. Qed.

Lemma Invert_1 : Invert 1 = 1.
Proof. unfold Invert. apply Zmod.pow_1_l. Qed.

Lemma Invert_mul_l (z : Element) : z <> 0 -> Invert z * z = 1.
Proof. intros Hz. rewrite Invert_nz by assumption. now apply Zmod.mul_inv_same_l_prime; [exact prime_p|]. Qed.

Lemma feIsZero_cases (x : Element) :
  (x = 0 /\ feIsZero x = 1%Z) \/ (x <> 0 /\ feIsZero x = 0%Z).
Proof. unfold feIsZero. apply Equal_cases. Qed.

Lemma isOnCurve_iff (X Y Z T : Element) :
  isOnCurve X Y Z T = true <->
  Y * Y - X * X = d * (T * T) + Z * Z /\ X * Y = T * Z.
Proof.
  unfold isOnCurve.
  change (field.Subtract (Square Y) (Square X)) with (Y * Y - X * X).
  change (field.Add (Multiply d (Square T)) (Square Z)) with (d * (T * T) + Z * Z).
  change (Multiply X Y) with (X * Y). change (Multiply T Z) with (T * Z).
  destruct (Equal_cases (Y * Y - X * X) (d * (T * T) + Z * Z)) as [[E ->]|[E ->]];
    cbn [Z.eqb negb].
  - destruct (Equal_cases (X * Y) (T * Z)) as [[E' ->]|[E' ->]]; cbn [Z.eqb Pos.eqb].
    + tauto.
    + split; [discriminate|tauto].
  - split; [discriminate|tauto].
Qed.

Lemma const_SQRT_sq :
  constMONTGOMERY_SQRT_NEG_A_PLUS_TWO * constMONTGOMERY_SQRT_NEG_A_PLUS_TWO =
  - (constMONTGOMERY_A + (1 + 1)).
Proof. vm_compute. reflexivity. Qed.

Lemma const_d_SQRT_sq :
  d * (constMONTGOMERY_SQRT_NEG_A_PLUS_TWO * constMONTGOMERY_SQRT_NEG_A_PLUS_TWO) =
  constMONTGOMERY_A - (1 + 1).
Proof. vm_compute. reflexivity. Qed.

(** The birational map sends the Montgomery curve to the Edwards curve. *)
Lemma birational_on_curve (A c u v x y : Element) :
  c * c = - (A + (1 + 1)) ->
  d * (c * c) = A - (1 + 1) ->
  v * v = u * u * u + A * (u * u) + u ->
  v <> 0 -> u + 1 <> 0 ->
  x * v = u * c ->
  y * (u + 1) = u - 1 ->
  y * y - x * x = d * (x * y * (x * y)) + 1 * 1.
Proof.
  intros Hc Hdc Hv Nv Nu Hx Hy.
  apply (Zmod.mul_cancel_r_prime ((v * v) * ((u + 1) * (u + 1))) _ _ prime_p).
  { apply mul_nz; apply mul_nz; assumption. }
  replace ((y * y - x * x) * (v * v * ((u + 1) * (u + 1))))
    with ((y * (u + 1)) * (y * (u + 1)) * (v * v) - (x * v) * (x * v) * ((u + 1) * (u + 1)))
    by ring.
  replace ((d * (x * y * (x * y)) + 1 * 1) * (v * v * ((u + 1) * (u + 1))))
    with (d * ((x * v) * (x * v)) * ((y * (u + 1)) * (y * (u + 1))) + (v * v) * ((u + 1) * (u + 1)))
    by ring.
  rewrite Hx, Hy.
  replace (u * c * (u * c)) with (u * u * (c * c)) by ring.
  replace (d * (u * u * (c * c))) with (d * (c * c) * (u * u)) by ring.
  rewrite Hdc, Hc, Hv. ring.
Qed.

Section WithRep.
Context {rep : PointRep}.

(** The coordinates [ell2EdwardsFlavor] hands to [newEdwardsFromXY]
    are on the curve. *)
Lemma ell2EdwardsFlavor_xy (r : Element) :
  exists x y : Element,
    ell2EdwardsFlavor r = newEdwardsFromXY x y /\
    isOnCurve x y One (Multiply x y) = true /\
    let '(u, v) := ell2MontgomeryFlavor r in
    ((v = 0 \/ u + 1 = 0) -> x = 0 /\ y = 1) /\
    (v <> 0 -> u + 1 <> 0 ->
     x = Zmod.mdiv u v * constMONTGOMERY_SQRT_NEG_A_PLUS_TWO /\
     y = Zmod.mdiv (u - 1) (u + 1)).
Proof.
  unfold ell2EdwardsFlavor.
  pose proof (ell2MontgomeryFlavor_curve_eq r) as C.
  destruct (ell2MontgomeryFlavor r) as [u v].
  change (field.Add u constOne) with (u + 1).
  change (Subtract u constOne) with (u - 1).
  assert (I : isOnCurve constZero constOne One (Multiply constZero constOne) = true).
  { apply isOnCurve_iff. unfold constZero, constOne, Zero, One, Multiply. split; ring. }
  destruct (feIsZero_cases v) as [[Ev ->]|[Nv ->]].
  - assert (F : Z.lor 1 (feIsZero (u + 1)) = 1%Z).
    { destruct (feIsZero_cases (u + 1)) as [[_ ->]|[_ ->]]; reflexivity. }
    rewrite F, !Select_1.
    exists constZero, constOne. split; [reflexivity|]. split; [exact I|].
    split; [intros _; split; reflexivity|]. intros N. contradiction.
  - destruct (feIsZero_cases (u + 1)) as [[Eu ->]|[Nu ->]].
    + cbn [Z.lor]. rewrite !Select_1.
      exists constZero, constOne. split; [reflexivity|]. split; [exact I|].
      split; [intros _; split; reflexivity|]. intros _ N. contradiction.
    + cbn [Z.lor]. rewrite !Select_0.
      set (x := Multiply (Multiply (Invert v) u) constMONTGOMERY_SQRT_NEG_A_PLUS_TWO).
      set (y := Multiply (u - 1) (Invert (u + 1))).
      exists x, y. split; [reflexivity|]. split.
      { apply isOnCurve_iff. split; [|unfold Multiply, One; ring].
        apply (birational_on_curve constMONTGOMERY_A constMONTGOMERY_SQRT_NEG_A_PLUS_TWO u v);
          try assumption.
        - exact const_SQRT_sq.
        - exact const_d_SQRT_sq.
        - subst x. unfold Multiply.
          replace (Invert v * u * constMONTGOMERY_SQRT_NEG_A_PLUS_TWO * v)
            with ((Invert v * v) * (u * constMONTGOMERY_SQRT_NEG_A_PLUS_TWO)) by ring.
          rewrite Invert_mul_l by assumption. ring.
        - subst y. unfold Multiply.
          replace ((u - 1) * Invert (u + 1) * (u + 1))
            with ((Invert (u + 1) * (u + 1)) * (u - 1)) by ring.
          rewrite Invert_mul_l by assumption. ring. }
      split; [intros [E|E]; contradiction|].
      intros _ _. subst x y. unfold Multiply, Zmod.mdiv.
      rewrite !Invert_nz by assumption. split; fring.
Qed.

(** [ell2EdwardsFlavor] does not panic as soon as the backend accepts
    coordinates that are on the curve. *)
Lemma ell2EdwardsFlavor_ret (r : Element) :
  (forall X Y Z T, isOnCurve X Y Z T = true ->
     exists P, SetExtendedCoordinates X Y Z T = Ok P) ->
  exists P, ell2EdwardsFlavor r = Ret P.
Proof.
  intros Htotal.
  destruct (ell2EdwardsFlavor_xy r) as (x & y & -> & C & _).
  unfold newEdwardsFromXY. destruct (Htotal _ _ _ _ C) as (P & ->).
  exists P. reflexivity.
Qed.
End WithRep.

Section WithCurveLaws.
Context {rep : PointRep} {L : CurveLaws rep}.

(** C5: [ell2EdwardsFlavor] is total.  For every [r] it returns a
    point; with [(u, v) = ell2MontgomeryFlavor r], the point is the
    identity [(0, 1)] when [v = 0] or [u + 1 = 0], and otherwise the
    point with [x = u/v * sqrt(-(A+2))] and [y = (u-1)/(u+1)]. *)
Theorem ell2EdwardsFlavor_total (r : Element) :
  exists P, ell2EdwardsFlavor r = Ret P /\
    let '(u, v) := ell2MontgomeryFlavor r in
    ((v = 0 \/ u + 1 = 0) -> affine P = (0, 1)) /\
    (v <> 0 -> u + 1 <> 0 ->
     affine P = (Zmod.mdiv u v * constMONTGOMERY_SQRT_NEG_A_PLUS_TWO,
                 Zmod.mdiv (u - 1) (u + 1))).
Proof.
  destruct (ell2EdwardsFlavor_xy r) as (x & y & -> & C & HC).
  unfold newEdwardsFromXY.
  destruct (SetExtendedCoordinates_on_curve x y One (Multiply x y) C) as (P & -> & HP).
  exists P. split; [reflexivity|].
  assert (HA : affine P = (x, y)).
  { rewrite HP by exact one_nz.
    unfold Multiply. change One with (1 : Element). rewrite Invert_1. f_equal; ring. }
  rewrite HA. destruct (ell2MontgomeryFlavor r) as [u v].
  destruct HC as [H1 H2]. split.
  - intros E. destruct (H1 E) as [-> ->]. reflexivity.
  - intros Nv Nu. destruct (H2 Nv Nu) as [-> ->]. reflexivity.
Qed.

(** C8: the Edwards-to-Montgomery conversion.  With [(x, y)] the
    affine coordinates of [P], it returns [u = (1+y)/(1-y)] and
    [v = sqrt(-(A+2)) u / x]; for [y = 1] it returns [(0, 0)] and
    for [x = 0] the returned [v] is 0. *)
Theorem newMontgomeryPointFromEdwards_spec (P : Point) :
  let '(x, y) := affine P in
  let m := newMontgomeryPointFromEdwards P in
  (y <> 1 -> mont_u m = Zmod.mdiv (1 + y) (1 - y)) /\
  (x <> 0 ->
   mont_v m = Zmod.mdiv (constMONTGOMERY_SQRT_NEG_A_PLUS_TWO * mont_u m) x) /\
  (y = 1 -> mont_u m = 0 /\ mont_v m = 0) /\
  (x = 0 -> mont_v m = 0).
Proof.
  pose proof (ExtendedCoordinates_on_curve P) as V.
  unfold affine, newMontgomeryPointFromEdwards.
  destruct (ExtendedCoordinates P) as [[[X Y] Z] T].
  destruct V as [C NZ]. apply isOnCurve_iff in C. destruct C as [C1 C2].
  cbn [mont_u mont_v].
  change (Multiply X (Invert Z)) with (X * Invert Z).
  change (Multiply Y (Invert Z)) with (Y * Invert Z).
  pose proof (Invert_mul_l Z NZ) as IZ.
  remember (X * Invert Z) as x eqn:Dx. remember (Y * Invert Z) as y eqn:Dy.
  change (field.Add constOne y) with (1 + y).
  change (Subtract constOne y) with (1 - y).
  set (c := constMONTGOMERY_SQRT_NEG_A_PLUS_TWO).
  unfold Multiply.
  assert (Y1 : y = 1 -> (1 + y) * Invert (1 - y) = 0).
  { intros E. rewrite E. 
    assert (E0 : @Zmod.sub p 1 1 = 0) by fring. rewrite E0.
    rewrite Invert_0. fring. }
  destruct (feIsZero_cases x) as [[Ex ->]|[Nx ->]].
  - rewrite Select_1. rewrite Ex, Invert_0.
    assert (EX : X = 0).
    { replace X with (x * Z) by (rewrite Dx; replace (X * Invert Z * Z) with (X * (Invert Z * Z)) by fring; rewrite IZ; fring).
      rewrite Ex. fring. }
    assert (ET : T = 0).
    { rewrite EX in C2. replace (0 * Y) with (0 : Element) in C2 by fring.
      symmetry in C2. apply (Zmod.mul_0_iff_prime prime_p) in C2. tauto. }
    assert (Ey : Zmod.pow y 2 = 1).
    { rewrite Zmod.pow_2_r. rewrite Dy.
      replace (Y * Invert Z * (Y * Invert Z))
        with ((Y * Y - X * X) * (Invert Z * Invert Z)) by (rewrite EX; fring).
      rewrite C1, ET.
      replace ((d * (0 * 0) + Z * Z) * (Invert Z * Invert Z))
        with ((Invert Z * Z) * (Invert Z * Z)) by fring.
      rewrite IZ. fring. }
    apply (Zmod.square_roots_1_prime prime_p) in Ey.
    split; [|split; [|split]].
    + intros N. destruct Ey as [E|E]; [contradiction|].
      rewrite E. unfold Zmod.mdiv. unfold constZero, Zero. fring.
    + intros N. contradiction.
    + intros _. split; [reflexivity|fring].
    + intros _. fring.
  - rewrite Select_0. split; [|split; [|split]].
    + intros N. unfold Zmod.mdiv. rewrite Invert_nz; [reflexivity|].
      intros E. apply N. replace y with (1 - (1 - y)) by fring. rewrite E. fring.
    + intros _. unfold Zmod.mdiv. rewrite Invert_nz by assumption. fring.
    + intros E. split; [now apply Y1|]. rewrite (Y1 E). fring.
    + intros E. contradiction.
Qed.
End WithCurveLaws.

End edwards_facts.

(** ** Byte strings: slices and copies *)

Module bytes_facts.

Lemma length_zeros n : length (zeros n) = n.
Proof. apply repeat_length. Qed.

Lemma firstn_app_exact {A} (l1 l2 : list A) n :
  length l1 = n -> firstn n (l1 ++ l2) = l1.
Proof.
  intros <-. rewrite firstn_app, Nat.sub_diag, firstn_all. cbn [firstn]. apply app_nil_r.
Qed.

Lemma skipn_app_exact {A} (l1 l2 : list A) n :
  length l1 = n -> skipn n (l1 ++ l2) = l2.
Proof.
  intros <-. rewrite skipn_app, Nat.sub_diag, skipn_all. reflexivity.
Qed.

Lemma skipn_zeros k n : skipn k (zeros n) = zeros (n - k).
Proof.
  unfold zeros. revert k; induction n as [|n IH]; intros [|k]; cbn; try reflexivity.
  apply IH.
Qed.

Lemma firstn_zeros k n : (k <= n)%nat -> firstn k (zeros n) = zeros k.
Proof.
  unfold zeros. revert k; induction n as [|n IH]; intros [|k] Hk; cbn; try reflexivity; try lia.
  f_equal. apply IH. lia.
Qed.

Lemma length_copy_at dst lo hi src :
  (lo <= hi <= length dst)%nat -> length (copy_at dst lo hi src) = length dst.
Proof.
  intros Hb. unfold copy_at. rewrite !length_app, !length_firstn, length_skipn. lia.
Qed.

Lemma length_sum_into n digest : length (sum_into n digest) = n.
Proof. unfold sum_into. rewrite length_copy_at; rewrite length_zeros; lia. Qed.

Lemma sum_into_exact n digest : length digest = n -> sum_into n digest = digest.
Proof.
  intros <-. unfold sum_into, copy_at. rewrite Nat.sub_0_r, Nat.min_id.
  cbn [firstn app Nat.add]. rewrite firstn_all.
  rewrite skipn_all2 by (rewrite length_zeros; lia). apply app_nil_r.
Qed.

Lemma length_slice b lo hi :
  (lo <= hi <= length b)%nat -> length (slice b lo hi) = (hi - lo)%nat.
Proof. intros Hb. unfold slice. rewrite length_firstn, length_skipn. lia. Qed.

(** [copy(buf[0:n], src)] into a fresh zero buffer, for [len src >= n]. *)
Lemma copy_prefix_zeros m n src :
  (n <= m)%nat -> (n <= length src)%nat ->
  copy_at (zeros m) 0 n src = firstn n src ++ zeros (m - n).
Proof.
  intros Hm Hs. unfold copy_at. rewrite Nat.sub_0_r.
  replace (Nat.min n (length src)) with n by lia.
  cbn [firstn app Nat.add]. now rewrite skipn_zeros.
Qed.

(** The three copies that assemble a proof. *)
Lemma proof_layout (g cb sb : list byte) :
  length g = 32%nat -> length cb = 32%nat -> length sb = 32%nat ->
  copy_at (copy_at (copy_at (zeros 80) 0 32 g) 32 80 cb) 48 80 sb =
  g ++ firstn 16 cb ++ sb.
Proof.
  intros Hg Hc Hs.
  assert (E1 : copy_at (zeros 80) 0 32 g = g ++ zeros 48).
  { rewrite copy_prefix_zeros by lia. rewrite (@firstn_all2 _ 32 g) by lia. reflexivity. }
  rewrite E1.
  assert (E2 : copy_at (g ++ zeros 48) 32 80 cb = g ++ cb ++ zeros 16).
  { unfold copy_at. rewrite Hc. cbn [Nat.sub Nat.min Nat.add].
    rewrite (firstn_app_exact g _ 32 Hg).
    rewrite (@firstn_all2 _ 32 cb) by lia.
    rewrite <- (skipn_skipn 32 32), (skipn_app_exact g _ 32 Hg), skipn_zeros. reflexivity. }
  rewrite E2.
  unfold copy_at. rewrite Hs. cbn [Nat.sub Nat.min Nat.add].
  rewrite (@firstn_all2 _ 32 sb) by lia.
  rewrite skipn_all2 by (rewrite !length_app, length_zeros; lia).
  rewrite app_nil_r.
  assert (E3 : firstn 48 (g ++ cb ++ zeros 16) = g ++ firstn 16 cb).
  { rewrite firstn_app, Hg, (@firstn_all2 _ 48 g) by lia.
    f_equal. cbn [Nat.sub]. rewrite firstn_app, Hc. cbn [Nat.sub firstn]. apply app_nil_r. }
  rewrite E3, <- app_assoc. reflexivity.
Qed.

Lemma bytes_eqb_refl a : bytes_eqb a a = true.
Proof. now apply bytes_eqb_eq. Qed.

Lemma ConstantTimeCompare_refl a : ConstantTimeCompare a a = 1.
Proof. now apply ConstantTimeCompare_eq. Qed.

End bytes_facts.

(** ** Scalars *)

Module scalar_facts.
Import edwards25519 bytes_facts.

Lemma q_pos : 0 < q. Proof. reflexivity. Qed.
Lemma q_lt_2_253 : q < 2 ^ 253. Proof. reflexivity. Qed.

Lemma Scalar_to_Z_range (s : Scalar.t) : 0 <= Zmod.to_Z s < q.
Proof. apply Zmod.unsigned_pos_bound. exact q_pos. Qed.

Lemma Scalar_Bytes_length (s : Scalar.t) : length (Scalar.Bytes s) = 32%nat.
Proof. apply length_le_split. Qed.

Lemma le_combine_Bytes (s : Scalar.t) : le_combine (Scalar.Bytes s) = Zmod.to_Z s.
Proof.
  unfold Scalar.Bytes. rewrite le_combine_split. apply Z.mod_small.
  pose proof (Scalar_to_Z_range s). pose proof q_lt_2_253.
  assert (2 ^ 253 < 2 ^ (Z.of_nat 32 * 8)) by reflexivity. lia.
Qed.

Lemma SetCanonicalBytes_cases (x : list byte) :
  (length x = 32%nat /\ le_combine x < q /\
   Scalar.SetCanonicalBytes x = Ok (Zmod.of_Z q (le_combine x)) /\
   Scalar.Bytes (Zmod.of_Z q (le_combine x)) = x) \/
  ((length x <> 32%nat \/ q <= le_combine x) /\
   exists e, Scalar.SetCanonicalBytes x = Err e).
Proof.
  unfold Scalar.SetCanonicalBytes.
  destruct (Nat.eqb_spec (length x) 32) as [L|L].
  - destruct (Z.ltb_spec (le_combine x) q) as [B|B].
    + left. repeat split; try assumption.
      unfold Scalar.Bytes. rewrite Zmod.unsigned_of_Z, Z.mod_small.
      * now apply split_le_combine'.
      * pose proof (le_combine_bound x). lia.
    + right. split; [now right|]. eexists; reflexivity.
  - right. split; [now left|]. eexists; reflexivity.
Qed.

Lemma SetCanonicalBytes_Bytes (s : Scalar.t) :
  Scalar.SetCanonicalBytes (Scalar.Bytes s) = Ok s.
Proof.
  destruct (SetCanonicalBytes_cases (Scalar.Bytes s)) as [(_ & _ & E & _)|[[N|N] _]].
  - rewrite E, le_combine_Bytes, Zmod.of_Z_unsigned. reflexivity.
  - rewrite Scalar_Bytes_length in N. congruence.
  - rewrite le_combine_Bytes in N. pose proof (Scalar_to_Z_range s). lia.
Qed.

Lemma Scalar_Equal_cases (s u : Scalar.t) :
  (s = u /\ Scalar.Equal s u = 1) \/ (s <> u /\ Scalar.Equal s u = 0).
Proof.
  unfold Scalar.Equal. destruct (Zmod.eqb_spec s u); [left|right]; split; auto.
Qed.

(** A challenge string: 16 bytes followed by 16 zero bytes. *)
Lemma le_combine_16_bound (c16 : list byte) :
  length c16 = 16%nat -> le_combine (c16 ++ zeros 16) < q.
Proof.
  intros L. unfold zeros. rewrite le_combine_app_0.
  pose proof (le_combine_bound c16) as B. rewrite L in B.
  assert (2 ^ (8 * Z.of_nat 16) < q) by reflexivity. lia.
Qed.

Lemma SetCanonicalBytes_challenge (c16 : list byte) :
  length c16 = 16%nat ->
  exists c, Scalar.SetCanonicalBytes (c16 ++ zeros 16) = Ok c /\
            Scalar.Bytes c = c16 ++ zeros 16.
Proof.
  intros L.
  destruct (SetCanonicalBytes_cases (c16 ++ zeros 16)) as [(_ & _ & E & B)|[[N|N] _]].
  - eexists. split; [exact E|exact B].
  - rewrite length_app, L, length_zeros in N. lia.
  - pose proof (le_combine_16_bound c16 L). lia.
Qed.

End scalar_facts.

Module suite_facts.
Import statements.
Import field edwards25519 bytes_facts h2c h2c_claims edwards_facts.

Lemma expand_into_48 {H : Sha512} (dst msg : list byte) :
  exists ub, expand_into 48 crypto.SHA512 dst msg = Ok ub /\ length ub = 48%nat.
Proof.
  unfold expand_into, ExpandMessageXMD.
  cbn [crypto.Size crypto.BlockSize crypto.Sum crypto.SHA512].
  change ((255 * Z.of_nat 64 <? Z.of_nat 48) || (65535 <? Z.of_nat 48)) with false.
  change (255 <? (48 + 64 - 1) / 64)%nat with false.
  cbv iota. eexists. split; [reflexivity|].
  apply length_copy_at. rewrite length_zeros. lia.
Qed.

Section WithOps.
Context {rep : PointRep} {ops : PointOps} {H : Sha512}.
Hypothesis total :
  forall X Y Z T, isOnCurve X Y Z T = true ->
    exists P, SetExtendedCoordinates X Y Z T = Ok P.

Lemma encodeToCurve_ret (ub : list byte) :
  length ub = 48%nat -> exists Q, encodeToCurve ub = Ret (MultByCofactor Q).
Proof.
  intros L. unfold encodeToCurve.
  rewrite (uniformToField25519_unfold ub L), (SetWideBytes_reversed ub L).
  cbn [must bind]. set (fe := Zmod.of_Z field.p (OS2IP ub)). destruct (ell2EdwardsFlavor_ret fe total) as (Q & ->).
  cbn [bind]. now exists Q.
Qed.

(** The NU suite never fails and never panics; its result has been
    multiplied by the cofactor. *)
Lemma Edwards25519_XMD_SHA512_ELL2_NU_ret (dst msg : list byte) :
  exists Q, Edwards25519_XMD_SHA512_ELL2_NU dst msg = Ret (Ok (MultByCofactor Q)).
Proof.
  unfold Edwards25519_XMD_SHA512_ELL2_NU, Edwards25519_XMD_ELL2_NU.
  change encodeToCurveSize with 48%nat.
  destruct (expand_into_48 dst msg) as (ub & -> & L).
  destruct (encodeToCurve_ret ub L) as (Q & ->). cbn [bind]. now exists Q.
Qed.
End WithOps.

End suite_facts.

Module mem_facts.

Lemma length_load (m : Mem) (s : Slice) :
  (off s + len s <= length m)%nat -> length (load m s) = len s.
Proof.
  intros Hb. unfold load, slice. rewrite length_firstn, length_skipn. lia.
Qed.

Lemma load_eq (m : Mem) (s : Slice) : load m s = firstn (len s) (skipn (off s) m).
Proof. unfold load, slice. f_equal. lia. Qed.

Lemma load_slice_to (m : Mem) (s : Slice) (hi : nat) :
  (hi <= len s)%nat -> load m (slice_to s hi) = slice (load m s) 0 hi.
Proof.
  intros Hh. rewrite !load_eq. unfold slice, slice_to. cbn [off len skipn].
  rewrite Nat.sub_0_r, firstn_firstn. f_equal. lia.
Qed.

Lemma load_slice_from (m : Mem) (s : Slice) (lo : nat) :
  load m (slice_from s lo) = skipn lo (load m s).
Proof.
  rewrite !load_eq. unfold slice_from. cbn [off len].
  rewrite skipn_firstn_comm, skipn_skipn. f_equal. f_equal. lia.
Qed.

Lemma valid_slice_from (m : Mem) (s : Slice) (lo : nat) :
  valid_slice m s -> (lo <= len s)%nat -> valid_slice m (slice_from s lo).
Proof. unfold valid_slice, slice_from. cbn [off len cap]. lia. Qed.

(** Bytes below the position written are kept. *)
Lemma load_write_below (m : Mem) (pos : nat) (data : list byte) (t : Slice) :
  (pos <= length m)%nat -> (off t + len t <= pos)%nat ->
  load (write m pos data) t = load m t.
Proof.
  intros Hp Ht. rewrite !load_eq. unfold write.
  rewrite skipn_app, firstn_app, length_skipn, length_firstn.
  replace (len t - (Nat.min pos (length m) - off t))%nat with 0%nat by lia.
  rewrite firstn_O, app_nil_r, skipn_firstn_comm, firstn_firstn.
  f_equal. lia.
Qed.

(** Bytes above the region written are kept. *)
Lemma load_write_above (m : Mem) (pos : nat) (data : list byte) (t : Slice) :
  (pos + length data <= length m)%nat -> (pos + length data <= off t)%nat ->
  load (write m pos data) t = load m t.
Proof.
  intros Hp Ht. rewrite !load_eq. unfold write. f_equal.
  rewrite !skipn_app, length_firstn.
  rewrite (skipn_all2 (firstn pos m)) by (rewrite length_firstn; lia).
  rewrite (skipn_all2 data) by lia.
  cbn [app]. rewrite skipn_skipn. f_equal. lia.
Qed.

(** The slice an append returns holds the old contents and the new
    elements. *)
Lemma load_append_slice (m : Mem) (s : Slice) (data : list byte) :
  valid_slice m s ->
  load (fst (append_slice m s data)) (snd (append_slice m s data))
  = load m s ++ data.
Proof.
  intros [Hl Hc]. unfold append_slice.
  destruct (len s + length data <=? cap s)%nat eqn:E; cbn [fst snd].
  - apply Nat.leb_le in E. rewrite !load_eq. cbn [off len]. unfold write.
    rewrite skipn_app, length_firstn.
    replace (off s - Nat.min (off s + len s) (length m))%nat with 0%nat by lia.
    cbn [skipn]. rewrite skipn_firstn_comm.
    replace (off s + len s - off s)%nat with (len s) by lia.
    rewrite firstn_app, length_firstn, length_skipn.
    replace (Nat.min (len s) (length m - off s)) with (len s) by lia.
    rewrite (firstn_all2 (firstn (len s) (skipn (off s) m)))
      by (rewrite length_firstn, length_skipn; lia).
    f_equal. replace (len s + length data - len s)%nat with (length data) by lia.
    rewrite firstn_app, Nat.sub_diag, firstn_O, app_nil_r.
    apply firstn_all.
  - rewrite load_eq. cbn [off len].
    rewrite skipn_app, Nat.sub_diag, skipn_all. cbn [app skipn].
    apply firstn_all2. rewrite length_app, length_load; lia.
Qed.

(** A slice that the region written does not meet is kept. *)
Lemma load_append_other (m : Mem) (s t : Slice) (data : list byte) :
  valid_slice m s -> (off t + len t <= length m)%nat ->
  (forall i, (off t <= i < off t + len t)%nat -> ~ appended s (length data) i) ->
  load (fst (append_slice m s data)) t = load m t.
Proof.
  intros [Hl Hc] Ht Hsep. unfold append_slice.
  destruct (len s + length data <=? cap s)%nat eqn:E; cbn [fst].
  - apply Nat.leb_le in E.
    destruct (Nat.le_gt_cases (off t + len t) (off s + len s)) as [B|B].
    + apply load_write_below; lia.
    + destruct (Nat.le_gt_cases (off s + len s + length data) (off t)) as [A|A].
      * apply load_write_above; lia.
      * destruct (Nat.eq_dec (len t) 0) as [Z|Z].
        { rewrite !load_eq, Z. reflexivity. }
        destruct data as [|b data].
        { unfold write. cbn [app length]. rewrite Nat.add_0_r, firstn_skipn.
          reflexivity. }
        exfalso. cbn [length] in *.
        apply (Hsep (Nat.max (off t) (off s + len s))); [lia|].
        unfold appended. lia.
  - rewrite !load_eq. rewrite skipn_app, firstn_app, length_skipn.
    replace (len t - (length m - off t))%nat with 0%nat by lia.
    rewrite firstn_O, app_nil_r. reflexivity.
Qed.

End mem_facts.

Module vrf_facts.
Import statements.
Import field edwards25519 bytes_facts scalar_facts mem_facts.

Section WithBackend.
Context {rep : PointRep} {ops : PointOps} {H : Sha512}.

Lemma slice_0_32_idem (b : list byte) : slice (slice b 0 32) 0 32 = slice b 0 32.
Proof. unfold slice. cbn [Nat.sub skipn]. rewrite firstn_firstn. reflexivity. Qed.

Lemma challenge_string_80 (pi : list byte) :
  length pi = 80%nat ->
  copy_at (zeros 32) 0 16 (skipn 32 pi) = slice pi 32 48 ++ zeros 16.
Proof.
  intros L. rewrite copy_prefix_zeros; [reflexivity|lia|rewrite length_skipn; lia].
Qed.

Lemma length_slice_32_48 (pi : list byte) :
  length pi = 80%nat -> length (slice pi 32 48) = 16%nat.
Proof. intros L. rewrite length_slice; lia. Qed.

(** What [vrf.decodeProof] returns, by cases. *)
Lemma vrf_decodeProof_cases (pi : list byte) :
  (exists gamma,
     length pi = 80%nat /\
     SetBytes (slice pi 0 32) = Ok gamma /\ Bytes gamma = slice pi 0 32 /\
     le_combine (skipn 48 pi) < q /\
     vrf.decodeProof pi =
       Ok (gamma, Zmod.of_Z q (le_combine (slice pi 32 48)),
                  Zmod.of_Z q (le_combine (skipn 48 pi)))) \/
  ((length pi <> 80%nat \/ ~ canonical_point_encoding (slice pi 0 32) \/
    q <= le_combine (skipn 48 pi)) /\
   exists e, vrf.decodeProof pi = Err e).
Proof.
  unfold vrf.decodeProof. change vrf.ProofSize with 80%nat.
  destruct (Nat.eqb_spec (length pi) 80) as [L|L]; cbn [negb].
  2:{ right. split; [now left|]. eexists; reflexivity. }
  rewrite slice_0_32_idem.
  destruct (SetBytes (slice pi 0 32)) as [gamma|e] eqn:EG.
  2:{ right. split; [|eexists; reflexivity]. right; left.
      intros (P & HP & _). congruence. }
  destruct (ConstantTimeCompare_cases (Bytes gamma) (slice pi 0 32)) as [[EB ->]|[EB ->]];
    cbn [Z.eqb negb Pos.eqb].
  2:{ right. split; [|eexists; reflexivity]. right; left.
      intros (P & HP & HB). rewrite EG in HP. inversion HP; subst. contradiction. }
  rewrite (challenge_string_80 pi L).
  destruct (SetCanonicalBytes_challenge (slice pi 32 48) (length_slice_32_48 pi L))
    as (c & Ec & Bc).
  pose proof Ec as Ec'.
  destruct (SetCanonicalBytes_cases (slice pi 32 48 ++ zeros 16))
    as [(_ & _ & E1 & _)|[_ [e E1]]]; [|congruence].
  rewrite E1.
  destruct (SetCanonicalBytes_cases (skipn 48 pi)) as [(Ls & Bs & -> & Rs)|[N [e ->]]].
  - rewrite Rs, ConstantTimeCompare_refl. cbn [Z.eqb negb Pos.eqb].
    left. exists gamma. repeat split; try assumption.
    unfold zeros. now rewrite le_combine_app_0.
  - right. split; [|eexists; reflexivity].
    destruct N as [N|N]; [rewrite length_skipn in N; lia|]. now right; right.
Qed.

(** The two copies of [decodeProof] agree: the round-trip test on
    [s] in the newer copy never fails once the decoding succeeded. *)
Lemma decodeProof_agree (pi : list byte) :
  ecvrf.decodeProof pi = vrf.decodeProof pi.
Proof.
  unfold ecvrf.decodeProof, vrf.decodeProof.
  change ecvrf.ProofSize with vrf.ProofSize.
  destruct (negb (length pi =? vrf.ProofSize)%nat); [reflexivity|].
  destruct (SetBytes (slice (slice pi 0 32) 0 32)) as [gamma|e]; [|reflexivity].
  destruct (negb (ConstantTimeCompare (Bytes gamma) (slice pi 0 32) =? 1)); [reflexivity|].
  destruct (Scalar.SetCanonicalBytes (copy_at (zeros 32) 0 16 (skipn 32 pi)))
    as [c|e]; [|reflexivity].
  destruct (SetCanonicalBytes_cases (skipn 48 pi)) as [(Ls & Bs & -> & Rs)|[N [e ->]]];
    [|reflexivity].
  rewrite Rs, ConstantTimeCompare_refl. reflexivity.
Qed.

(** C2: [decodeProof] (either copy) returns an error exactly when
    the proof is not 80 bytes long, or its first 32 bytes are not a
    canonical point encoding, or its last 32 bytes, read as a
    little-endian integer, are not below [q]; otherwise it returns
    the decoded [(Gamma, c, s)]. *)
Theorem decodeProof_spec (pi : list byte) :
  ecvrf.decodeProof pi = vrf.decodeProof pi /\
  ((exists e, vrf.decodeProof pi = Err e) <->
   (length pi <> 80%nat \/ ~ canonical_point_encoding (slice pi 0 32) \/
    q <= le_combine (skipn 48 pi))) /\
  (forall gamma c s, vrf.decodeProof pi = Ok (gamma, c, s) ->
     SetBytes (slice pi 0 32) = Ok gamma /\
     Zmod.to_Z c = le_combine (slice pi 32 48) /\
     Zmod.to_Z s = le_combine (skipn 48 pi)).
Proof.
  split; [apply decodeProof_agree|].
  destruct (vrf_decodeProof_cases pi) as [(gamma & L & EG & EB & Bs & ->)|[N [e ->]]].
  - split.
    + split; [intros [e E]; discriminate|].
      intros [N|[N|N]]; [congruence| |lia].
      exfalso. apply N. now exists gamma.
    + intros g c s E. inversion E; subst. split; [assumption|].
      rewrite !Zmod.unsigned_of_Z. split; apply Z.mod_small.
      * pose proof (le_combine_bound (slice pi 32 48)) as B.
        rewrite (length_slice_32_48 pi L) in B.
        assert (2 ^ (8 * Z.of_nat 16) < q) by reflexivity. lia.
      * pose proof (le_combine_bound (skipn 48 pi)). lia.
  - split.
    + split; [intros _; exact N|]. intros _. now exists e.
    + intros g c s E. discriminate.
Qed.

Lemma bind_ext {A B : Type} (m : exec A) (k1 k2 : A -> exec B) :
  (forall a, k1 a = k2 a) -> bind m k1 = bind m k2.
Proof. intros E. destruct m; cbn [bind]; [apply E|reflexivity]. Qed.

Lemma hashPoints_agree (p2 p3 : list byte) (P4 P5 : Point) :
  ecvrf.hashPoints p2 p3 P4 P5 = vrf.challengeGeneration [] p2 p3 P4 P5.
Proof.
  unfold ecvrf.hashPoints, vrf.challengeGeneration. cbn [length Nat.ltb Nat.leb].
  rewrite <- !app_assoc. reflexivity.
Qed.

(** Where [ecvrf.Prove] appends to the key it never reads the
    memory again: it returns what [vrf.Prove_v10] returns on the
    contents of its arguments. *)
Lemma ecvrf_Prove_agree (m : Mem) (sk alpha : Slice) :
  valid_slice m sk ->
  ecvrf.Prove m sk alpha = vrf.Prove_v10 (load m sk) (load m alpha).
Proof.
  intros V. pose proof V as [Vl Vc].
  unfold ecvrf.Prove, vrf.Prove_v10, vrf.doProve.
  rewrite length_load by lia.
  destruct (len sk =? 64)%nat eqn:E; cbn [negb]; [|reflexivity].
  apply Nat.eqb_eq in E.
  rewrite load_slice_to by lia.
  apply bind_ext; intros x.
  unfold ecvrf.hashToCurveH2cSuite, vrf.encodeToCurveH2cSuite.
  pose proof (load_append_slice m (slice_from sk 32) (load m alpha)) as A.
  destruct (append_slice m (slice_from sk 32) (load m alpha)) as [m' sth].
  cbn [fst snd] in A. rewrite A by (apply valid_slice_from; [assumption|lia]).
  rewrite load_slice_from. cbn [app].
  apply bind_ext; intros r. apply bind_ext; intros P.
  apply bind_ext; intros k.
  rewrite hashPoints_agree. reflexivity.
Qed.

(** [ecvrf.Verify] returns what [vrf.Verify_v10] returns on the
    contents of its arguments when the bytes its append writes are
    none of the first 32 bytes of the proof. *)
Lemma ecvrf_Verify_agree (m : Mem) (pk pi alpha : Slice) :
  valid_slice m pk -> valid_slice m pi ->
  (forall i, (off pi <= i < off pi + 32)%nat ->
             ~ appended pk (length (load m alpha)) i) ->
  ecvrf.Verify m pk pi alpha =
  vrf.Verify_v10 (load m pk) (load m pi) (load m alpha).
Proof.
  intros Vk [Vl Vc] Sep. unfold ecvrf.Verify, vrf.Verify_v10, vrf.doVerify.
  rewrite decodeProof_agree.
  destruct (vrf.decodeProof (load m pi)) as [[[gamma c] s]|e] eqn:D.
  - assert (L : len pi = 80%nat).
    { unfold vrf.decodeProof in D. rewrite length_load in D by lia.
      destruct (len pi =? vrf.ProofSize)%nat eqn:E; cbn [negb] in D; [|discriminate].
      apply Nat.eqb_eq in E. exact E. }
    destruct (SetBytes (load m pk)) as [Y|e]; [|reflexivity].
    destruct (negb (bytes_eqb (Bytes Y) (load m pk))); [reflexivity|].
    destruct (Equal (MultByCofactor Y) NewIdentityPoint =? 1); [reflexivity|].
    unfold ecvrf.hashToCurveH2cSuite, vrf.encodeToCurveH2cSuite.
    pose proof (load_append_slice m pk (load m alpha) Vk) as A.
    pose proof (load_append_other m pk (slice_to pi 32) (load m alpha) Vk) as O.
    destruct (append_slice m pk (load m alpha)) as [m' sth].
    cbn [fst snd] in A, O. rewrite A, O; cbn [slice_to off len]; [|lia|exact Sep].
    change (load m {| off := off pi; len := 32; cap := cap pi |})
      with (load m (slice_to pi 32)).
    rewrite load_slice_to by lia. cbn [app].
    apply bind_ext; intros r. apply bind_ext; intros P.
    cbn [negb]. rewrite hashPoints_agree. reflexivity.
  - destruct (SetBytes (load m pk)) as [Y|e']; [|reflexivity].
    destruct (negb (bytes_eqb (Bytes Y) (load m pk))); [reflexivity|].
    destruct (Equal (MultByCofactor Y) NewIdentityPoint =? 1); reflexivity.
Qed.

(** The legacy copies agree on arguments that do not share memory:
    [ecvrf.Prove] returns what [vrf.Prove_v10] returns, and
    [ecvrf.Verify] what [vrf.Verify_v10] returns when its append to
    the key writes none of the first 32 bytes of the proof. *)
Theorem legacy_copies_agree (m : Mem) (sk pk pi alpha : Slice) :
  valid_slice m sk -> valid_slice m pk -> valid_slice m pi ->
  (forall i, (off pi <= i < off pi + 32)%nat ->
             ~ appended pk (length (load m alpha)) i) ->
  ecvrf.Prove m sk alpha = vrf.Prove_v10 (load m sk) (load m alpha) /\
  ecvrf.Verify m pk pi alpha =
  vrf.Verify_v10 (load m pk) (load m pi) (load m alpha).
Proof.
  intros Vs Vk Vp Sep. split.
  - apply ecvrf_Prove_agree. exact Vs.
  - apply ecvrf_Verify_agree; assumption.
Qed.
End WithBackend.

End vrf_facts.

Module group_facts.
Import edwards25519 scalar_facts.

Section WithLaws.
Context {rep : PointRep} {ops : PointOps} {L : GroupLaws rep ops}.

Lemma Add_identity_r (P : Point) : Add P NewIdentityPoint = P.
Proof. rewrite Add_comm. apply Add_identity_l. Qed.

Lemma Add_Negate_l (P : Point) : Add (Negate P) P = NewIdentityPoint.
Proof. rewrite Add_comm. apply Add_Negate_r. Qed.

Lemma Negate_unique (P Q : Point) : Add P Q = NewIdentityPoint -> Q = Negate P.
Proof.
  intros E. rewrite <- (Add_identity_l Q), <- (Add_Negate_l P), <- Add_assoc, E.
  apply Add_identity_r.
Qed.

Lemma Add_swap (P Q R S : Point) :
  Add (Add P Q) (Add R S) = Add (Add P R) (Add Q S).
Proof.
  rewrite <- (Add_assoc P Q), (Add_assoc Q R S), (Add_comm Q R).
  rewrite <- (Add_assoc R Q S), Add_assoc. reflexivity.
Qed.

Lemma nmul_add (a b : nat) (P : Point) :
  nmul (a + b) P = Add (nmul a P) (nmul b P).
Proof.
  induction a as [|a IH]; cbn [nmul Nat.add].
  - now rewrite Add_identity_l.
  - now rewrite IH, Add_assoc.
Qed.

Lemma nmul_identity (n : nat) : nmul n NewIdentityPoint = NewIdentityPoint.
Proof.
  induction n as [|n IH]; cbn [nmul]; [reflexivity|].
  now rewrite IH, Add_identity_l.
Qed.

Lemma nmul_mul (a b : nat) (P : Point) : nmul (a * b) P = nmul a (nmul b P).
Proof.
  induction a as [|a IH]; cbn [nmul Nat.mul]; [reflexivity|].
  now rewrite nmul_add, IH.
Qed.

Lemma nmul_Add (n : nat) (P Q : Point) :
  nmul n (Add P Q) = Add (nmul n P) (nmul n Q).
Proof.
  induction n as [|n IH]; cbn [nmul].
  - now rewrite Add_identity_l.
  - now rewrite IH, Add_swap.
Qed.

Lemma nmul_Negate (n : nat) (P : Point) : nmul n (Negate P) = Negate (nmul n P).
Proof.
  apply Negate_unique. rewrite <- nmul_Add, Add_Negate_r. apply nmul_identity.
Qed.

Lemma zmul_add (a b : Z) (P : Point) :
  0 <= a -> 0 <= b -> zmul (a + b) P = Add (zmul a P) (zmul b P).
Proof. intros Ha Hb. unfold zmul. rewrite Z2Nat.inj_add by lia. apply nmul_add. Qed.

Lemma zmul_mul (a b : Z) (P : Point) :
  0 <= a -> 0 <= b -> zmul (a * b) P = zmul a (zmul b P).
Proof. intros Ha Hb. unfold zmul. rewrite Z2Nat.inj_mul by lia. apply nmul_mul. Qed.

Lemma zmul_identity (a : Z) : zmul a NewIdentityPoint = NewIdentityPoint.
Proof. apply nmul_identity. Qed.

Lemma zmul_Negate (a : Z) (P : Point) : zmul a (Negate P) = Negate (zmul a P).
Proof. apply nmul_Negate. Qed.

(** On a point that [q] annihilates, a multiple depends on the
    scalar modulo [q] only. *)
Lemma zmul_mod (n : Z) (P : Point) :
  zmul q P = NewIdentityPoint -> 0 <= n -> zmul n P = zmul (n mod q) P.
Proof.
  intros Hq Hn. pose proof q_pos.
  rewrite (Z.div_mod n q) at 1 by lia.
  assert (0 <= n / q) by (apply Z.div_pos; lia).
  assert (0 <= n mod q) by (apply Z.mod_pos_bound; lia).
  rewrite zmul_add by nia.
  rewrite (Z.mul_comm q), zmul_mul, Hq, zmul_identity by lia.
  apply Add_identity_l.
Qed.

Lemma generator_annihilated : zmul q NewGeneratorPoint = NewIdentityPoint.
Proof. pose proof q_pos. apply generator_order; [lia|]. apply Z.divide_refl. Qed.

Lemma cofactor_cleared_annihilated (Q : Point) :
  zmul q (MultByCofactor Q) = NewIdentityPoint.
Proof.
  pose proof q_pos.
  rewrite MultByCofactor_spec, <- zmul_mul, Z.mul_comm by lia.
  apply group_exponent.
Qed.

(** The verification equation: [s P - c (x P) = k P] when
    [s = c x + k] and [q] annihilates [P]. *)
Lemma response_equation (P : Point) (c x k : Scalar.t) :
  zmul q P = NewIdentityPoint ->
  Add (zmul (Zmod.to_Z c) (Negate (zmul (Zmod.to_Z x) P)))
      (zmul (Zmod.to_Z (Scalar.Add (Scalar.Multiply c x) k)) P)
  = zmul (Zmod.to_Z k) P.
Proof.
  intros Hq. pose proof (Scalar_to_Z_range c). pose proof (Scalar_to_Z_range x).
  pose proof (Scalar_to_Z_range k).
  unfold Scalar.Add, Scalar.Multiply.
  rewrite Zmod.unsigned_add, Zmod.unsigned_mul, Zplus_mod_idemp_l.
  rewrite <- zmul_mod by (assumption || nia).
  rewrite zmul_add, zmul_mul by nia.
  rewrite zmul_Negate, Add_assoc, Add_Negate_l. apply Add_identity_l.
Qed.
End WithLaws.

End group_facts.

Module clamp_facts.
Import edwards25519 bytes_facts scalar_facts group_facts h2c_claims.

Lemma byte_and_248 (b : byte) : (byte.unsigned (byte_and b 248)) mod 8 = 0.
Proof. destruct b; reflexivity. Qed.

Lemma byte_clamp_high (b : byte) :
  64 <= byte.unsigned (byte_or (byte_and b 63) 64) <= 127.
Proof. destruct b; vm_compute; split; discriminate. Qed.

Lemma copy_short_zeros (m : nat) (src : list byte) :
  (length src <= m)%nat ->
  copy_at (zeros m) 0 m src = src ++ zeros (m - length src).
Proof.
  intros Hs. unfold copy_at. rewrite Nat.sub_0_r.
  replace (Nat.min m (length src)) with (length src) by lia.
  cbn [firstn app Nat.add]. rewrite firstn_all, skipn_zeros. reflexivity.
Qed.

Lemma update_at_head (x : byte) (l : list byte) (f : byte -> byte) :
  update_at (x :: l) 0 f = f x :: l.
Proof. reflexivity. Qed.

Lemma update_at_middle (l1 l2 : list byte) (x : byte) (f : byte -> byte) :
  update_at (l1 ++ x :: l2) (length l1) f = l1 ++ f x :: l2.
Proof.
  unfold update_at. rewrite nth_error_app2, Nat.sub_diag by lia. cbn [nth_error].
  rewrite firstn_app, firstn_all, Nat.sub_diag, firstn_O, app_nil_r.
  f_equal. f_equal.
  change (S (length l1)) with (1 + length l1)%nat.
  rewrite <- skipn_skipn, skipn_app, skipn_all, Nat.sub_diag. reflexivity.
Qed.

(** The clamped value: a multiple of 8 in [[2^254, 2^255)]. *)
Lemma clamped_value (h : list byte) :
  length h = 32%nat ->
  exists t, 2 ^ 251 <= t < 2 ^ 252 /\
    Scalar.SetBytesWithClamping h = Ok (Zmod.of_Z q (8 * t)).
Proof.
  intros Lh. unfold Scalar.SetBytesWithClamping. rewrite Lh. cbn [Nat.eqb].
  rewrite copy_short_zeros by lia. rewrite Lh. cbn [Nat.sub].
  destruct h as [|b0 tl]; [discriminate|]. cbn [length] in Lh.
  destruct (exists_last (l := tl)) as (mid & b31 & ->).
  { intros ->. discriminate. }
  rewrite length_app in Lh. cbn [length] in Lh.
  assert (Lm : length mid = 30%nat) by lia.
  cbn [app]. rewrite update_at_head.
  rewrite <- app_assoc. cbn [app].
  change (byte_and b0 248 :: mid ++ b31 :: zeros 32)
    with ((byte_and b0 248 :: mid) ++ b31 :: zeros 32).
  replace 31%nat with (length (byte_and b0 248 :: mid)) by (cbn [length]; lia).
  rewrite !update_at_middle.
  unfold Scalar.SetUniformBytes.
  rewrite length_app. cbn [length]. rewrite Lm, length_zeros. cbn [Nat.add Nat.eqb].
  set (c0 := byte_and b0 248). set (c31 := byte_or (byte_and b31 63) 64).
  change (c31 :: zeros 32) with ([c31] ++ zeros 32). rewrite app_assoc.
  rewrite le_combine_app_0, le_combine_snoc, le_combine_cons.
  cbn [length]. rewrite Lm.
  pose proof (byte_and_248 b0) as M0. fold c0 in M0.
  pose proof (byte_clamp_high b31) as M31. fold c31 in M31.
  pose proof (byte.unsigned_range c0) as R0.
  pose proof (le_combine_bound mid) as Rm. rewrite Lm in Rm.
  change (2 ^ (8 * Z.of_nat 31)) with (256 * 2 ^ 240).
  change (2 ^ (8 * Z.of_nat 30)) with (2 ^ 240) in Rm.
  exists (byte.unsigned c0 / 8 + 32 * le_combine mid + 2 ^ 245 * byte.unsigned c31).
  split.
  - assert (0 <= byte.unsigned c0 / 8 < 32) by (split; [apply Z.div_pos|apply Z.div_lt_upper_bound]; lia).
    change (2 ^ 251) with (2 ^ 245 * 64). change (2 ^ 252) with (2 ^ 245 * 128).
    change (2 ^ 240) with 1766847064778384329583297500742918515827483896875618958121606201292619776 in *.
    change (2 ^ 245) with (32 * 1766847064778384329583297500742918515827483896875618958121606201292619776).
    lia.
  - f_equal. f_equal.
    rewrite (Z.div_mod (byte.unsigned c0) 8) at 1 by lia. rewrite M0.
    change (2 ^ 245) with (32 * 2 ^ 240). ring.
Qed.

Lemma q_coprime_8 : Z.gcd q 8 = 1.
Proof. reflexivity. Qed.

(** The secret scalar is never a multiple of [q], even times 8. *)
Lemma clamped_nonzero (h : list byte) :
  length h = 32%nat ->
  exists x, Scalar.SetBytesWithClamping h = Ok x /\ ~ (q | 8 * Zmod.to_Z x).
Proof.
  intros Lh. destruct (clamped_value h Lh) as (t & Rt & E).
  eexists. split; [exact E|]. intros D.
  rewrite Zmod.unsigned_of_Z in D. pose proof q_pos.
  assert (D1 : (q | (8 * t) mod q)).
  { exact (Z.gauss _ _ _ D q_coprime_8). }
  assert (D2 : (q | 8 * t)).
  { rewrite (Z.div_mod (8 * t) q) by lia.
    apply Z.divide_add_r; [apply Z.divide_factor_l|exact D1]. }
  assert (D3 : (q | t)).
  { exact (Z.gauss _ _ _ D2 q_coprime_8). }
  destruct D3 as [z Hz].
  assert (2 ^ 252 < q) by reflexivity.
  assert (0 < 2 ^ 251) by reflexivity.
  destruct (Z.le_gt_cases z 0) as [Z0|Z1].
  - assert (z * q <= 0) by (apply Z.mul_nonpos_nonneg; lia). lia.
  - assert (1 * q <= z * q) by (apply Z.mul_le_mono_nonneg_r; lia). lia.
Qed.

Section WithLaws.
Context {rep : PointRep} {ops : PointOps} {L : GroupLaws rep ops}.

(** The cofactor check passes on a public key derived from a seed. *)
Lemma cofactor_check_passes (x : Scalar.t) :
  ~ (q | 8 * Zmod.to_Z x) ->
  Equal (MultByCofactor (ScalarBaseMult x)) NewIdentityPoint <> 1.
Proof.
  intros N E. apply Equal_eq in E. pose proof (Scalar_to_Z_range x).
  rewrite MultByCofactor_spec, ScalarBaseMult_spec, <- zmul_mul in E by lia.
  apply generator_order in E; [contradiction|lia].
Qed.
End WithLaws.

End clamp_facts.

Module prove_facts.
Import statements.
Import field edwards25519 bytes_facts scalar_facts mem_facts group_facts clamp_facts
       suite_facts vrf_facts h2c_claims.

Lemma skipn_update_at (l : list byte) (i n : nat) (f : byte -> byte) :
  (i < n)%nat -> skipn n (update_at l i f) = skipn n l.
Proof.
  intros Hi. unfold update_at.
  destruct (nth_error l i) as [x|] eqn:E; [|reflexivity].
  assert (i < length l)%nat by (apply nth_error_Some; congruence).
  rewrite skipn_app, length_firstn.
  rewrite (skipn_all2 (firstn i l)) by (rewrite length_firstn; lia).
  replace (Nat.min i (length l)) with i by lia.
  replace (n - i)%nat with (S (n - S i)) by lia.
  cbn [app]. rewrite (skipn_cons (n - S i) (f x)), skipn_skipn. f_equal. lia.
Qed.

Section WithBackend.
Context {rep : PointRep} {ops : PointOps} {H : Sha512}.

(** The challenge is always produced, and its upper 16 bytes are
    zero. *)
Lemma challengeGeneration_ret (p1 p2 p3 : list byte) (p4 p5 : Point) :
  exists c, vrf.challengeGeneration p1 p2 p3 p4 p5 = Ret c /\
            Scalar.Bytes c = firstn 16 (Scalar.Bytes c) ++ zeros 16.
Proof.
  unfold vrf.challengeGeneration.
  match goal with |- context [sha512 ?s] => generalize (sha512 s) end.
  intros dg.
  assert (L : length (slice (sum_into 64 dg) 0 16) = 16%nat).
  { rewrite length_slice; rewrite ?length_sum_into; lia. }
  rewrite copy_prefix_zeros by lia.
  rewrite (@firstn_all2 _ 16 (slice (sum_into 64 dg) 0 16)) by lia.
  destruct (SetCanonicalBytes_challenge _ L) as (c & E & B).
  exists c. change (32 - 16)%nat with 16%nat. rewrite E. split; [reflexivity|].
  rewrite B at 2. rewrite B. rewrite firstn_app_exact by exact L. reflexivity.
Qed.

Context {L : GroupLaws rep ops}.

Lemma encodeToCurveH2cSuite_ret (salt alpha : list byte) :
  exists Q, vrf.encodeToCurveH2cSuite salt alpha = Ret (Ok (MultByCofactor Q)).
Proof.
  unfold vrf.encodeToCurveH2cSuite.
  apply Edwards25519_XMD_SHA512_ELL2_NU_ret. apply SetExtendedCoordinates_total.
Qed.

(** What [doProve] computes. *)
Lemma doProve_ret (sk alpha : list byte) (draftPreV11 : bool) :
  length sk = 64%nat ->
  exists x Hp k c,
    Scalar.SetBytesWithClamping
      (slice (sum_into 64 (sha512 (slice sk 0 32))) 0 32) = Ok x /\
    vrf.encodeToCurveH2cSuite (skipn 32 sk) alpha = Ret (Ok Hp) /\
    (exists Q, Hp = MultByCofactor Q) /\
    Scalar.SetUniformBytes
      (sum_into 64 (sha512 (skipn 32 (sum_into 64 (sha512 (slice sk 0 32)))
                            ++ Bytes Hp))) = Ok k /\
    vrf.challengeGeneration (if negb draftPreV11 then skipn 32 sk else [])
      (Bytes Hp) (Bytes (ScalarMult x Hp)) (ScalarBaseMult k) (ScalarMult k Hp)
      = Ret c /\
    Scalar.Bytes c = firstn 16 (Scalar.Bytes c) ++ zeros 16 /\
    vrf.doProve sk alpha draftPreV11 =
      Ret (Bytes (ScalarMult x Hp) ++ firstn 16 (Scalar.Bytes c) ++
           Scalar.Bytes (Scalar.Add (Scalar.Multiply c x) k)).
Proof.
  intros Lsk. unfold vrf.doProve. rewrite Lsk. cbn [Nat.eqb negb].
  set (extsk := sum_into 64 (sha512 (slice sk 0 32))).
  assert (Le : length (slice extsk 0 32) = 32%nat).
  { rewrite length_slice; unfold extsk; rewrite ?length_sum_into; lia. }
  destruct (clamped_nonzero _ Le) as (x & Ex & _).
  destruct (encodeToCurveH2cSuite_ret (skipn 32 sk) alpha) as (Q & EH).
  set (Hp := MultByCofactor Q) in *.
  set (dg := sum_into 64 (sha512 (skipn 32 extsk ++ Bytes Hp))).
  assert (Ek : Scalar.SetUniformBytes dg = Ok (Zmod.of_Z q (le_combine dg))).
  { unfold Scalar.SetUniformBytes, dg. rewrite length_sum_into. reflexivity. }
  set (k := Zmod.of_Z q (le_combine dg)) in *.
  destruct (challengeGeneration_ret (if negb draftPreV11 then skipn 32 sk else [])
              (Bytes Hp) (Bytes (ScalarMult x Hp)) (ScalarBaseMult k) (ScalarMult k Hp))
    as (c & Ec & Bc).
  exists x, Hp, k, c.
  split; [exact Ex|]. split; [exact EH|]. split; [now exists Q|].
  split; [exact Ek|]. split; [exact Ec|]. split; [exact Bc|].
  rewrite Ex, EH. cbn [must bind]. rewrite !skipn_update_at by lia.
  fold dg. rewrite Ek. cbn [must bind].
  rewrite Ec. cbn [bind]. f_equal.
  apply proof_layout; [apply Bytes_length|apply Scalar_Bytes_length..].
Qed.

(** A proof as [doProve] lays it out decodes to its parts. *)
Lemma decodeProof_layout (gamma : Point) (c s : Scalar.t) :
  Scalar.Bytes c = firstn 16 (Scalar.Bytes c) ++ zeros 16 ->
  vrf.decodeProof (Bytes gamma ++ firstn 16 (Scalar.Bytes c) ++ Scalar.Bytes s)
  = Ok (gamma, c, s).
Proof.
  intros Bc. pose proof (Bytes_length gamma) as Lg.
  pose proof (Scalar_Bytes_length c) as Lc.
  pose proof (Scalar_Bytes_length s) as Ls.
  assert (L16 : length (firstn 16 (Scalar.Bytes c)) = 16%nat)
    by (rewrite length_firstn; lia).
  unfold vrf.decodeProof.
  rewrite !length_app, Lg, L16, Ls. cbn [Nat.add Nat.eqb negb vrf.ProofSize].
  rewrite slice_0_32_idem.
  assert (Sg : slice (Bytes gamma ++ firstn 16 (Scalar.Bytes c) ++ Scalar.Bytes s) 0 32
               = Bytes gamma).
  { unfold slice. cbn [skipn Nat.sub]. apply firstn_app_exact. exact Lg. }
  rewrite Sg, SetBytes_Bytes, ConstantTimeCompare_refl. cbn [Z.eqb Pos.eqb negb].
  rewrite (skipn_app_exact (Bytes gamma)) by exact Lg.
  assert (C16 : copy_at (zeros 32) 0 16 (firstn 16 (Scalar.Bytes c) ++ Scalar.Bytes s)
                = Scalar.Bytes c).
  { rewrite copy_prefix_zeros by (rewrite ?length_app; lia).
    rewrite firstn_app_exact by exact L16. symmetry. exact Bc. }
  rewrite C16, SetCanonicalBytes_Bytes.
  assert (S48 : skipn 48 (Bytes gamma ++ firstn 16 (Scalar.Bytes c) ++ Scalar.Bytes s)
                = Scalar.Bytes s).
  { rewrite app_assoc. apply skipn_app_exact. rewrite length_app. lia. }
  rewrite S48, SetCanonicalBytes_Bytes, ConstantTimeCompare_refl. reflexivity.
Qed.
End WithBackend.

End prove_facts.

Module verify_facts.
Import statements.
Import field edwards25519 bytes_facts scalar_facts mem_facts group_facts clamp_facts
       suite_facts vrf_facts prove_facts.

Lemma key_layout (seed pkb : list byte) :
  length seed = 32%nat -> length pkb = 32%nat ->
  copy_at (copy_at (zeros 64) 0 64 seed) 32 64 pkb = seed ++ pkb.
Proof.
  intros Ls Lp. rewrite copy_short_zeros by lia. rewrite Ls. cbn [Nat.sub].
  unfold copy_at. cbn [Nat.sub]. rewrite Lp, Nat.min_id.
  rewrite firstn_app_exact by exact Ls. rewrite (@firstn_all2 _ 32 pkb) by lia.
  cbn [Nat.add]. rewrite skipn_all2 by (rewrite length_app, length_zeros; lia).
  now rewrite app_nil_r.
Qed.

Lemma Public_layout (seed pkb : list byte) :
  length seed = 32%nat -> length pkb = 32%nat ->
  copy_at (zeros 32) 0 32 (skipn 32 (seed ++ pkb)) = pkb.
Proof.
  intros Ls Lp. rewrite skipn_app_exact by exact Ls.
  rewrite copy_short_zeros by lia. rewrite Lp. cbn [Nat.sub zeros repeat].
  apply app_nil_r.
Qed.

Section WithBackend.
Context {rep : PointRep} {ops : PointOps} {H : Sha512} {L : GroupLaws rep ops}.

Lemma NewKeyFromSeed_ret (seed : list byte) :
  length seed = 32%nat ->
  exists x,
    Scalar.SetBytesWithClamping (slice (sum_into 64 (sha512 seed)) 0 32) = Ok x /\
    ~ (q | 8 * Zmod.to_Z x) /\
    ed25519.NewKeyFromSeed seed = Ret (seed ++ Bytes (ScalarBaseMult x)) /\
    ed25519.Public (seed ++ Bytes (ScalarBaseMult x)) = Bytes (ScalarBaseMult x).
Proof.
  intros Ls.
  assert (Le : length (slice (sum_into 64 (sha512 seed)) 0 32) = 32%nat).
  { rewrite length_slice; rewrite ?length_sum_into; lia. }
  destruct (clamped_nonzero _ Le) as (x & Ex & Nx).
  exists x. split; [exact Ex|]. split; [exact Nx|]. split.
  - unfold ed25519.NewKeyFromSeed. rewrite Ls. cbn [Nat.eqb negb].
    rewrite Ex. cbn [must bind]. f_equal.
    apply key_layout; [exact Ls|apply Bytes_length].
  - apply Public_layout; [exact Ls|apply Bytes_length].
Qed.

(** A proof made by [doProve] is accepted by [doVerify] in the same
    mode, with the output [ProofToHash] gives. *)
Lemma doVerify_doProve (seed alpha : list byte) (x : Scalar.t) (draftPreV11 : bool) :
  length seed = 32%nat ->
  Scalar.SetBytesWithClamping (slice (sum_into 64 (sha512 seed)) 0 32) = Ok x ->
  ~ (q | 8 * Zmod.to_Z x) ->
  exists pi beta,
    vrf.doProve (seed ++ Bytes (ScalarBaseMult x)) alpha draftPreV11 = Ret pi /\
    vrf.ProofToHash pi = Ok beta /\
    vrf.doVerify (Bytes (ScalarBaseMult x)) pi alpha draftPreV11
    = Ret (true, Some beta).
Proof.
  intros Ls Ex Nx.
  set (pkb := Bytes (ScalarBaseMult x)).
  assert (Lp : length pkb = 32%nat) by apply Bytes_length.
  assert (Lsk : length (seed ++ pkb) = 64%nat) by (rewrite length_app; lia).
  destruct (doProve_ret (seed ++ pkb) alpha draftPreV11 Lsk)
    as (x' & Hp & k & c & Ex' & EH & (Q & HQ) & Ek & Ec & Bc & EP).
  assert (S1 : slice (seed ++ pkb) 0 32 = seed).
  { unfold slice. cbn [skipn Nat.sub]. apply firstn_app_exact. exact Ls. }
  assert (S2 : skipn 32 (seed ++ pkb) = pkb) by (apply skipn_app_exact; exact Ls).
  rewrite S1 in Ex'. rewrite Ex in Ex'. injection Ex' as <-.
  rewrite S2 in EH, Ec.
  set (gamma := ScalarMult x Hp) in *.
  set (s := Scalar.Add (Scalar.Multiply c x) k) in *.
  pose proof (decodeProof_layout gamma c s Bc) as ED.
  eexists. exists (vrf.gammaToHash gamma).
  split; [exact EP|]. split.
  { unfold vrf.ProofToHash. rewrite ED. reflexivity. }
  unfold vrf.doVerify. unfold pkb at 1. rewrite SetBytes_Bytes. fold pkb.
  rewrite bytes_eqb_refl. cbn [negb].
  destruct (Z.eqb_spec (Equal (MultByCofactor (ScalarBaseMult x)) NewIdentityPoint) 1)
    as [E1|_].
  { exfalso. exact (cofactor_check_passes x Nx E1). }
  rewrite ED, EH. cbn [must bind].
  assert (Sg : slice (Bytes gamma ++ firstn 16 (Scalar.Bytes c) ++ Scalar.Bytes s) 0 32
               = Bytes gamma).
  { unfold slice. cbn [skipn Nat.sub]. apply firstn_app_exact. apply Bytes_length. }
  rewrite Sg.
  assert (EU : VarTimeDoubleScalarBaseMult c (Negate (ScalarBaseMult x)) s
               = ScalarBaseMult k).
  { rewrite VarTimeDoubleScalarBaseMult_spec, !ScalarBaseMult_spec.
    apply response_equation. apply generator_annihilated. }
  assert (EV : VarTimeMultiScalarMult [s; c] [Hp; Negate gamma] = ScalarMult k Hp).
  { rewrite VarTimeMultiScalarMult_spec by reflexivity. cbn [msm].
    rewrite Add_identity_r, Add_comm. unfold gamma.
    rewrite !ScalarMult_spec. apply response_equation.
    rewrite HQ. apply cofactor_cleared_annihilated. }
  rewrite EU, EV, Ec. cbn [bind].
  destruct (Scalar_Equal_cases c c) as [[_ ->]|[N _]]; [|congruence].
  reflexivity.
Qed.
End WithBackend.

End verify_facts.

Module reject_facts.
Import statements.
Import field edwards25519 bytes_facts scalar_facts mem_facts group_facts clamp_facts
       suite_facts vrf_facts prove_facts verify_facts.

Section WithBackend.
Context {rep : PointRep} {ops : PointOps} {H : Sha512}.

Context {L : GroupLaws rep ops}.

Lemma cofactor_check_cases (Y : Point) :
  (zmul 8 Y = NewIdentityPoint /\
   (Equal (MultByCofactor Y) NewIdentityPoint =? 1) = true) \/
  (zmul 8 Y <> NewIdentityPoint /\
   (Equal (MultByCofactor Y) NewIdentityPoint =? 1) = false).
Proof.
  rewrite MultByCofactor_spec.
  destruct (Z.eqb_spec (Equal (zmul 8 Y) NewIdentityPoint) 1) as [E|N].
  - left. split; [now apply Equal_eq|reflexivity].
  - right. split; [|reflexivity]. intros E. apply N. now apply Equal_eq.
Qed.

Lemma challenge_compare (c c' : Scalar.t) (beta : list byte) :
  (if Scalar.Equal c c' =? 0 then Ret (false, @None (list byte))
   else Ret (true, Some beta)) =
  (if Zmod.eqb c c' then Ret (true, Some beta) else Ret (false, None)).
Proof. unfold Scalar.Equal. destruct (Zmod.eqb c c'); reflexivity. Qed.

Lemma doVerify_rejects (pk pi alpha : list byte) (draftPreV11 : bool) :
  rejects_cleanly pk (vrf.decodeProof pi) (vrf.doVerify pk pi alpha draftPreV11).
Proof.
  unfold rejects_cleanly, vrf.doVerify.
  destruct (SetBytes pk) as [Y|e] eqn:EY.
  2:{ repeat split; try (intros; reflexivity); left; reflexivity. }
  destruct (bytes_eqb (Bytes Y) pk) eqn:EB; cbn [negb].
  2:{ repeat split; try (intros; reflexivity); left; reflexivity. }
  apply bytes_eqb_eq in EB.
  destruct (cofactor_check_cases Y) as [[E8 ->]|[N8 ->]].
  { repeat split; try (intros; reflexivity); left; reflexivity. }
  destruct (vrf.decodeProof pi) as [[[g c] s]|e] eqn:ED.
  2:{ repeat split; try (intros; reflexivity); left; reflexivity. }
  destruct (encodeToCurveH2cSuite_ret pk alpha) as (Q & ->). cbn [must bind].
  match goal with |- context [vrf.challengeGeneration ?a ?b ?c ?d ?e] =>
    destruct (challengeGeneration_ret a b c d e) as (c' & -> & _) end.
  cbn [bind]. rewrite challenge_compare.
  split; [destruct (Zmod.eqb c c'); [right; eexists|left]; reflexivity|].
  split; [intros N; exfalso; exact (N Y eq_refl)|].
  split; [intros Y' E N; injection E as <-; contradiction|].
  split; [intros Y' E N; injection E as <-; contradiction|].
  intros N. exfalso. exact (N g c s eq_refl).
Qed.

Lemma hashToCurveH2cSuite_ret (m : Mem) (Y alpha : Slice) :
  exists Q, snd (ecvrf.hashToCurveH2cSuite m Y alpha) = Ret (Ok (MultByCofactor Q)).
Proof.
  unfold ecvrf.hashToCurveH2cSuite.
  destruct (append_slice m Y (load m alpha)) as [m' sth]. cbn [snd].
  apply Edwards25519_XMD_SHA512_ELL2_NU_ret. apply SetExtendedCoordinates_total.
Qed.

Lemma ecvrf_Verify_rejects (m : Mem) (pk pi alpha : Slice) :
  rejects_cleanly (load m pk) (ecvrf.decodeProof (load m pi))
                  (ecvrf.Verify m pk pi alpha).
Proof.
  unfold rejects_cleanly, ecvrf.Verify.
  destruct (ecvrf.decodeProof (load m pi)) as [[[g c] s]|e] eqn:ED.
  2:{ repeat split; try (intros; reflexivity); left; reflexivity. }
  destruct (SetBytes (load m pk)) as [Y|e] eqn:EY.
  2:{ repeat split; try (intros; reflexivity); left; reflexivity. }
  destruct (bytes_eqb (Bytes Y) (load m pk)) eqn:EB; cbn [negb].
  2:{ repeat split; try (intros; reflexivity); left; reflexivity. }
  apply bytes_eqb_eq in EB.
  destruct (cofactor_check_cases Y) as [[E8 ->]|[N8 ->]].
  { repeat split; try (intros; reflexivity); left; reflexivity. }
  destruct (hashToCurveH2cSuite_ret m pk alpha) as (Q & EH).
  destruct (ecvrf.hashToCurveH2cSuite m pk alpha) as [m' r]. cbn [snd] in EH.
  rewrite EH. cbn [must bind]. rewrite hashPoints_agree.
  match goal with |- context [vrf.challengeGeneration ?a ?b ?c ?d ?e] =>
    destruct (challengeGeneration_ret a b c d e) as (c' & -> & _) end.
  cbn [bind]. rewrite challenge_compare.
  split; [destruct (Zmod.eqb c c'); [right; eexists|left]; reflexivity|].
  split; [intros N; exfalso; exact (N Y eq_refl)|].
  split; [intros Y' E N; injection E as <-; contradiction|].
  split; [intros Y' E N; injection E as <-; contradiction|].
  intros N. exfalso. exact (N g c s eq_refl).
Qed.

(** A recomputed challenge that differs from the one in the proof
    is rejected. *)
Lemma doVerify_challenge (pk pi alpha : list byte) (draftPreV11 : bool)
    (Y g Hp : Point) (c s c' : Scalar.t) :
  SetBytes pk = Ok Y -> vrf.decodeProof pi = Ok (g, c, s) ->
  vrf.encodeToCurveH2cSuite pk alpha = Ret (Ok Hp) ->
  vrf.challengeGeneration (if negb draftPreV11 then pk else [])
    (Bytes Hp) (slice pi 0 32)
    (VarTimeDoubleScalarBaseMult c (Negate Y) s)
    (VarTimeMultiScalarMult [s; c] [Hp; Negate g]) = Ret c' ->
  c' <> c ->
  vrf.doVerify pk pi alpha draftPreV11 = Ret (false, None).
Proof.
  intros EY ED EH EC N. unfold vrf.doVerify. rewrite EY.
  destruct (negb (bytes_eqb (Bytes Y) pk)); [reflexivity|].
  destruct (Equal (MultByCofactor Y) NewIdentityPoint =? 1); [reflexivity|].
  rewrite ED, EH. cbn [must bind]. rewrite EC. cbn [bind].
  rewrite challenge_compare.
  destruct (Zmod.eqb_spec c c'); [congruence|reflexivity].
Qed.

Lemma ecvrf_Verify_challenge (m m' : Mem) (pk pi alpha : Slice)
    (Y g Hp : Point) (c s c' : Scalar.t) :
  SetBytes (load m pk) = Ok Y -> ecvrf.decodeProof (load m pi) = Ok (g, c, s) ->
  ecvrf.hashToCurveH2cSuite m pk alpha = (m', Ret (Ok Hp)) ->
  ecvrf.hashPoints (Bytes Hp) (load m' (slice_to pi 32))
    (VarTimeDoubleScalarBaseMult c (Negate Y) s)
    (VarTimeMultiScalarMult [s; c] [Hp; Negate g]) = Ret c' ->
  c' <> c ->
  ecvrf.Verify m pk pi alpha = Ret (false, None).
Proof.
  intros EY ED EH EC N. unfold ecvrf.Verify. rewrite ED, EY.
  destruct (negb (bytes_eqb (Bytes Y) (load m pk))); [reflexivity|].
  destruct (Equal (MultByCofactor Y) NewIdentityPoint =? 1); [reflexivity|].
  rewrite EH. cbn [must bind]. rewrite EC. cbn [bind].
  rewrite challenge_compare.
  destruct (Zmod.eqb_spec c c'); [congruence|reflexivity].
Qed.
End WithBackend.

End reject_facts.

Add Ring scalar_ring : (Zmod.ring_theory edwards25519.q).

Ltac qring :=
  change (@edwards25519.Point models.cyclic_rep) with (Zmod edwards25519.q) in *;
  change edwards25519.Scalar.t with (Zmod edwards25519.q) in *;
  ring.

Module model_facts.
Import field edwards25519 models bytes_facts scalar_facts edwards_facts.

Lemma extended_SetExtendedCoordinates_cases (X Y Z T : Element) :
  (valid_coordinates (X, Y, Z, T) = true /\
   exists P, extended_SetExtendedCoordinates X Y Z T = Ok P /\
             coords P = (X, Y, Z, T)) \/
  (valid_coordinates (X, Y, Z, T) = false /\
   extended_SetExtendedCoordinates X Y Z T =
     if isOnCurve X Y Z T then Ok extended_identity
     else Err "edwards25519: invalid point coordinates").
Proof.
  assert (G : forall (b : bool) (pf : valid_coordinates (X, Y, Z, T) = b),
    let r := match b as b'
                   return valid_coordinates (X, Y, Z, T) = b' -> res ExtendedPoint with
             | true => fun pf => Ok {| coords := (X, Y, Z, T); coords_valid := pf |}
             | false => fun _ =>
                 if isOnCurve X Y Z T then Ok extended_identity
                 else Err "edwards25519: invalid point coordinates"
             end pf in
    (b = true /\ exists P, r = Ok P /\ coords P = (X, Y, Z, T)) \/
    (b = false /\
     r = if isOnCurve X Y Z T then Ok extended_identity
         else Err "edwards25519: invalid point coordinates")).
  { intros [] pf; [left|right]; (split; [reflexivity|]).
    - eexists. split; reflexivity.
    - reflexivity. }
  exact (G _ eq_refl).
Qed.

Lemma extended_laws : CurveLaws extended_rep.
Proof.
  constructor.
  - intros X Y Z T On.
    destruct (extended_SetExtendedCoordinates_cases X Y Z T)
      as [(V & P & E & C)|(V & E)].
    + exists P. split; [exact E|]. intros _.
      unfold affine. cbn [ExtendedCoordinates extended_rep]. rewrite C. reflexivity.
    + cbn [SetExtendedCoordinates extended_rep]. rewrite E, On.
      eexists. split; [reflexivity|]. intros NZ. exfalso.
      unfold valid_coordinates in V. rewrite On in V. cbn [andb] in V.
      destruct (Zmod.eqb_spec Z Zmod.zero); [contradiction|discriminate].
  - intros X Y Z T Off.
    destruct (extended_SetExtendedCoordinates_cases X Y Z T)
      as [(V & _)|(V & E)].
    + unfold valid_coordinates in V. rewrite Off in V. discriminate.
    + cbn [SetExtendedCoordinates extended_rep]. rewrite E, Off. eexists. reflexivity.
  - intros P. cbn [ExtendedCoordinates extended_rep].
    pose proof (coords_valid P) as V. destruct (coords P) as [[[X Y] Z] T].
    unfold valid_coordinates in V. apply andb_prop in V. destruct V as [On NZ].
    split; [exact On|]. intros ->. rewrite Zmod.eqb_refl in NZ. discriminate.
Qed.

Lemma cyclic_nmul (n : nat) (P : Zmod q) :
  @nmul cyclic_rep cyclic_ops n P = Zmod.mul (Zmod.of_Z q (Z.of_nat n)) P.
Proof.
  induction n as [|n IH].
  - cbn [nmul NewIdentityPoint cyclic_ops]. change (Z.of_nat 0) with 0.
    change (Zmod.of_Z q 0) with (@Zmod.zero q). qring.
  - cbn [nmul]. rewrite IH. cbn [Add cyclic_ops].
    rewrite Nat2Z.inj_succ, <- Z.add_1_r, Zmod.of_Z_add.
    change (Zmod.of_Z q 1) with (@Zmod.one q). qring.
Qed.

Lemma cyclic_zmul (z : Z) (P : Zmod q) :
  0 <= z -> @zmul cyclic_rep cyclic_ops z P = Zmod.mul (Zmod.of_Z q z) P.
Proof. intros Hz. unfold zmul. rewrite cyclic_nmul, Z2Nat.id by exact Hz. reflexivity. Qed.

Lemma cyclic_zmul_scalar (s P : Zmod q) :
  @zmul cyclic_rep cyclic_ops (Zmod.to_Z s) P = Zmod.mul s P.
Proof.
  rewrite cyclic_zmul by apply Scalar_to_Z_range. now rewrite Zmod.of_Z_unsigned.
Qed.

Lemma cyclic_msm (scalars : list Scalar.t) (points : list (Zmod q)) :
  @VarTimeMultiScalarMult cyclic_rep cyclic_ops scalars points =
  @msm cyclic_rep cyclic_ops scalars points.
Proof.
  revert points. induction scalars as [|s scalars IH]; intros [|P points];
    try reflexivity.
  cbn [msm]. rewrite <- IH, cyclic_zmul_scalar. reflexivity.
Qed.

Lemma cyclic_laws : GroupLaws cyclic_rep cyclic_ops.
Proof.
  constructor; cbn [Point cyclic_rep Add Negate NewIdentityPoint NewGeneratorPoint
                    Equal ScalarMult ScalarBaseMult MultByCofactor
                    VarTimeDoubleScalarBaseMult Bytes SetBytes cyclic_ops].
  - intros P Q R. qring.
  - intros P Q. qring.
  - intros P. qring.
  - intros P. qring.
  - intros P Q. destruct (Zmod.eqb_spec P Q); split; congruence.
  - intros s P. now rewrite cyclic_zmul_scalar.
  - intros s. rewrite cyclic_zmul_scalar. qring.
  - intros P. now rewrite cyclic_zmul by lia.
  - intros a A b. rewrite !cyclic_zmul_scalar. qring.
  - intros scalars points _. apply cyclic_msm.
  - intros P. rewrite cyclic_zmul by (pose proof q_pos; lia).
    replace (Zmod.of_Z q (8 * q)) with (@Zmod.zero q); [qring|].
    apply Zmod.unsigned_inj. rewrite Zmod.unsigned_of_Z, Zmod.unsigned_0.
    reflexivity.
  - intros n Hn. rewrite cyclic_zmul by exact Hn.
    replace (Zmod.mul (Zmod.of_Z q n) Zmod.one) with (Zmod.of_Z q n) by qring.
    pose proof q_pos. rewrite <- Z.mod_divide by lia. split.
    + intros E. apply (f_equal Zmod.to_Z) in E.
      now rewrite Zmod.unsigned_of_Z, Zmod.unsigned_0 in E.
    + intros E. apply Zmod.unsigned_inj.
      now rewrite Zmod.unsigned_of_Z, Zmod.unsigned_0.
  - intros P. apply length_le_split.
  - intros P. rewrite length_le_split. cbn [Nat.eqb]. f_equal.
    change (le_split 32 (Zmod.to_Z P)) with (Scalar.Bytes P).
    rewrite le_combine_Bytes. apply Zmod.of_Z_unsigned.
  - intros X Y Z T On. cbn [SetExtendedCoordinates cyclic_rep]. rewrite On.
    eexists. reflexivity.
Qed.

End model_facts.

Module vrf_claims.
Import statements.
Import field edwards25519 bytes_facts scalar_facts mem_facts group_facts clamp_facts
       suite_facts vrf_facts prove_facts verify_facts reject_facts models model_facts
       samples.

Section WithBackend.
Context {rep : PointRep} {ops : PointOps} {H : Sha512} {L : GroupLaws rep ops}.

(** C1: for a private key made from a 32-byte seed and any [alpha],
    [Verify] accepts the proof [Prove] returns and outputs what
    [ProofToHash] gives for it; the same for [Prove_v10] and
    [Verify_v10]. *)
Theorem Verify_Prove_roundtrip (seed alpha : list byte) :
  length seed = 32%nat ->
  exists sk, ed25519.NewKeyFromSeed seed = Ret sk /\
    (exists pi beta,
       vrf.Prove sk alpha = Ret pi /\ vrf.ProofToHash pi = Ok beta /\
       vrf.Verify (ed25519.Public sk) pi alpha = Ret (true, Some beta)) /\
    (exists pi beta,
       vrf.Prove_v10 sk alpha = Ret pi /\ vrf.ProofToHash pi = Ok beta /\
       vrf.Verify_v10 (ed25519.Public sk) pi alpha = Ret (true, Some beta)).
Proof.
  intros Ls. destruct (NewKeyFromSeed_ret seed Ls) as (x & Ex & Nx & EK & EP).
  eexists. split; [exact EK|]. rewrite EP.
  split; [exact (doVerify_doProve seed alpha x false Ls Ex Nx)
         |exact (doVerify_doProve seed alpha x true Ls Ex Nx)].
Qed.

(** C3: [Verify], in both copies and both modes, returns
    [(false, nil)] or [(true, beta)] and nothing else; it returns
    [(false, nil)] when the key does not decode, is not canonical,
    or [8 Y] is the identity (whatever the proof and the message),
    when the proof does not decode, and when the recomputed
    challenge differs. *)
Theorem Verify_rejects (m : Mem) (pk pi alpha : Slice) (draftPreV11 : bool) :
  rejects_cleanly (load m pk) (vrf.decodeProof (load m pi))
    (vrf.doVerify (load m pk) (load m pi) (load m alpha) draftPreV11) /\
  rejects_cleanly (load m pk) (ecvrf.decodeProof (load m pi))
    (ecvrf.Verify m pk pi alpha) /\
  (forall Y g c s Hp c',
     SetBytes (load m pk) = Ok Y ->
     vrf.decodeProof (load m pi) = Ok (g, c, s) ->
     vrf.encodeToCurveH2cSuite (load m pk) (load m alpha) = Ret (Ok Hp) ->
     vrf.challengeGeneration (if negb draftPreV11 then load m pk else [])
       (Bytes Hp) (slice (load m pi) 0 32)
       (VarTimeDoubleScalarBaseMult c (Negate Y) s)
       (VarTimeMultiScalarMult [s; c] [Hp; Negate g]) = Ret c' ->
     c' <> c ->
     vrf.doVerify (load m pk) (load m pi) (load m alpha) draftPreV11
     = Ret (false, None)) /\
  (forall Y g c s Hp c' m',
     SetBytes (load m pk) = Ok Y ->
     ecvrf.decodeProof (load m pi) = Ok (g, c, s) ->
     ecvrf.hashToCurveH2cSuite m pk alpha = (m', Ret (Ok Hp)) ->
     ecvrf.hashPoints (Bytes Hp) (load m' (slice_to pi 32))
       (VarTimeDoubleScalarBaseMult c (Negate Y) s)
       (VarTimeMultiScalarMult [s; c] [Hp; Negate g]) = Ret c' ->
     c' <> c ->
     ecvrf.Verify m pk pi alpha = Ret (false, None)).
Proof.
  split; [apply doVerify_rejects|]. split; [apply ecvrf_Verify_rejects|]. split.
  - intros Y g c s Hp c'. apply doVerify_challenge.
  - intros Y g c s Hp c' m'. apply ecvrf_Verify_challenge.
Qed.

(** C7: the proof [Prove] returns for a 64-byte key has 80 bytes:
    the encoding of [Gamma = x H], the first 16 bytes of the
    challenge [c], whose other 16 bytes are zero, and the encoding
    of [s = k + c x mod q]; [ecvrf.Prove] returns the proof of the
    legacy mode. *)
Theorem Prove_layout (m : Mem) (sk alpha : Slice) (draftPreV11 : bool) :
  valid_slice m sk -> len sk = 64%nat ->
  exists x Hp k c pi,
    Scalar.SetBytesWithClamping
      (slice (sum_into 64 (sha512 (slice (load m sk) 0 32))) 0 32) = Ok x /\
    vrf.encodeToCurveH2cSuite (skipn 32 (load m sk)) (load m alpha) = Ret (Ok Hp) /\
    Scalar.SetUniformBytes
      (sum_into 64 (sha512 (skipn 32 (sum_into 64 (sha512 (slice (load m sk) 0 32)))
                            ++ Bytes Hp))) = Ok k /\
    vrf.challengeGeneration (if negb draftPreV11 then skipn 32 (load m sk) else [])
      (Bytes Hp) (Bytes (ScalarMult x Hp)) (ScalarBaseMult k) (ScalarMult k Hp)
      = Ret c /\
    vrf.doProve (load m sk) (load m alpha) draftPreV11 = Ret pi /\
    (draftPreV11 = true -> ecvrf.Prove m sk alpha = Ret pi) /\
    length pi = 80%nat /\
    slice pi 0 32 = Bytes (zmul (Zmod.to_Z x) Hp) /\
    SetBytes (slice pi 0 32) = Ok (zmul (Zmod.to_Z x) Hp) /\
    slice pi 32 48 = firstn 16 (Scalar.Bytes c) /\
    skipn 16 (Scalar.Bytes c) = zeros 16 /\
    skipn 48 pi =
      le_split 32 ((Zmod.to_Z k + Zmod.to_Z c * Zmod.to_Z x) mod q).
Proof.
  intros V L64. pose proof V as [Vl Vc].
  assert (Lsk : length (load m sk) = 64%nat) by (rewrite length_load; lia).
  destruct (doProve_ret (load m sk) (load m alpha) draftPreV11 Lsk)
    as (x & Hp & k & c & Ex & EH & _ & Ek & Ec & Bc & EP).
  exists x, Hp, k, c. eexists.
  split; [exact Ex|]. split; [exact EH|]. split; [exact Ek|]. split; [exact Ec|].
  split; [exact EP|].
  pose proof (Bytes_length (ScalarMult x Hp)) as Lg.
  assert (L16 : length (firstn 16 (Scalar.Bytes c)) = 16%nat).
  { rewrite length_firstn, Scalar_Bytes_length. reflexivity. }
  assert (Sg : slice (Bytes (ScalarMult x Hp) ++ firstn 16 (Scalar.Bytes c) ++
                      Scalar.Bytes (Scalar.Add (Scalar.Multiply c x) k)) 0 32
               = Bytes (ScalarMult x Hp)).
  { unfold slice. cbn [skipn Nat.sub]. apply firstn_app_exact. exact Lg. }
  split.
  { intros ->. rewrite ecvrf_Prove_agree by exact V. exact EP. }
  split.
  { rewrite !length_app, Lg, L16, Scalar_Bytes_length. reflexivity. }
  split; [rewrite Sg, ScalarMult_spec; reflexivity|].
  split; [rewrite Sg, <- ScalarMult_spec; apply SetBytes_Bytes|].
  split.
  { unfold slice. rewrite skipn_app_exact by exact Lg.
    apply firstn_app_exact. exact L16. }
  split.
  { rewrite Bc at 1. apply skipn_app_exact. exact L16. }
  rewrite app_assoc, skipn_app_exact by (rewrite length_app; lia).
  unfold Scalar.Bytes, Scalar.Add, Scalar.Multiply.
  rewrite Zmod.unsigned_add, Zmod.unsigned_mul, Zplus_mod_idemp_l.
  f_equal. f_equal. lia.
Qed.
End WithBackend.

Section OnCyclicModel.
Existing Instances cyclic_rep cyclic_ops sample_sha512 cyclic_laws.

Lemma Verify_Prove_roundtrip_witness :
exists sk,
  ed25519.NewKeyFromSeed sample_seed = Ret sk /\
  (exists pi beta,
     vrf.Prove sk sample_alpha = Ret pi /\ vrf.ProofToHash pi = Ok beta /\
     vrf.Verify (ed25519.Public sk) pi sample_alpha = Ret (true, Some beta)) /\
  (exists pi beta,
     vrf.Prove_v10 sk sample_alpha = Ret pi /\ vrf.ProofToHash pi = Ok beta /\
     vrf.Verify_v10 (ed25519.Public sk) pi sample_alpha = Ret (true, Some beta)).
Proof.
apply (Verify_Prove_roundtrip sample_seed sample_alpha).
reflexivity.
Defined.

Lemma Verify_rejects_witness :
rejects_cleanly (load shared_buffer pk_window)
  (ecvrf.decodeProof (load shared_buffer pi_window))
  (ecvrf.Verify shared_buffer pk_window pi_window alpha_window).
Proof.
exact (proj1 (proj2 (Verify_rejects shared_buffer pk_window pi_window
                       alpha_window true))).
Defined.

Lemma Prove_layout_witness :
exists pi,
  vrf.doProve (load key_buffer sk_window) (load key_buffer message_window) true
    = Ret pi /\
  ecvrf.Prove key_buffer sk_window message_window = Ret pi /\
  length pi = 80%nat.
Proof.
destruct (Prove_layout key_buffer sk_window message_window true)
  as (x & Hp & k & c & pi & _ & _ & _ & _ & EP & EE & E80 & _).
- split; cbn; lia.
- reflexivity.
- exists pi. split; [exact EP|]. split; [exact (EE eq_refl)|exact E80].
Defined.

Lemma legacy_copies_agree_witness :
ecvrf.Prove key_buffer sk_window message_window =
vrf.Prove_v10 (load key_buffer sk_window) (load key_buffer message_window) /\
ecvrf.Verify shared_buffer pk_exact_window pi_window alpha_window =
vrf.Verify_v10 (load shared_buffer pk_exact_window) (load shared_buffer pi_window)
  (load shared_buffer alpha_window).
Proof.
assert (Vs : valid_slice key_buffer sk_window) by (split; vm_compute; lia).
assert (Ss : forall i, (off sk_window <= i < off sk_window + 32)%nat ->
               ~ appended sk_window (length (load key_buffer message_window)) i).
{ intros i _ [C _]. vm_compute in C. lia. }
assert (Vk : valid_slice shared_buffer pk_exact_window) by (split; vm_compute; lia).
assert (Vp : valid_slice shared_buffer pi_window) by (split; vm_compute; lia).
assert (Sp : forall i, (off pi_window <= i < off pi_window + 32)%nat ->
               ~ appended pk_exact_window
                   (length (load shared_buffer alpha_window)) i).
{ intros i _ [C _]. vm_compute in C. lia. }
exact (conj
  (proj1 (legacy_copies_agree key_buffer sk_window sk_window sk_window
            message_window Vs Vs Vs Ss))
  (proj2 (legacy_copies_agree shared_buffer pk_exact_window pk_exact_window
            pi_window alpha_window Vk Vk Vp Sp))).
Defined.

(** C9: the failing input.  Key, proof and message are windows on one
  buffer, the key with the rest of the buffer as spare capacity:
  [vrf.Verify_v10] accepts, [ecvrf.Verify], whose append has
  written the message over the first byte of the proof, rejects. *)
Theorem ecvrf_Verify_shared_buffer :
load shared_buffer pk_window = sample_pk /\
load shared_buffer pi_window = sample_pi /\
load shared_buffer alpha_window = sample_alpha /\
vrf.Verify_v10 sample_pk sample_pi sample_alpha = Ret (true, Some sample_beta) /\
ecvrf.Verify shared_buffer pk_window pi_window alpha_window = Ret (false, None).
Proof.
split; [reflexivity|]. split; [reflexivity|]. split; [reflexivity|].
split; vm_compute; reflexivity.
Qed.
End OnCyclicModel.

Section OnExtendedModel.
Existing Instances extended_rep extended_laws.
Local Open Scope Zmod_scope.

Lemma ell2EdwardsFlavor_total_witness :
exists P, h2c.ell2EdwardsFlavor sample_field_element = Ret P /\
  let '(u, v) := h2c.ell2MontgomeryFlavor sample_field_element in
  ((v = 0 \/ u + 1 = 0) -> affine P = (0, 1)) /\
  (v <> 0 -> u + 1 <> 0 ->
   affine P = (Zmod.mdiv u v * h2c.constMONTGOMERY_SQRT_NEG_A_PLUS_TWO,
               Zmod.mdiv (u - 1) (u + 1))).
Proof. exact (edwards_facts.ell2EdwardsFlavor_total sample_field_element). Defined.

Lemma newMontgomeryPointFromEdwards_spec_witness :
let '(x, y) := affine extended_identity in
let m := h2c.newMontgomeryPointFromEdwards extended_identity in
(y <> 1 -> h2c.mont_u m = Zmod.mdiv (1 + y) (1 - y)) /\
(x <> 0 ->
 h2c.mont_v m = Zmod.mdiv (h2c.constMONTGOMERY_SQRT_NEG_A_PLUS_TWO * h2c.mont_u m) x) /\
(y = 1 -> h2c.mont_u m = 0 /\ h2c.mont_v m = 0) /\
(x = 0 -> h2c.mont_v m = 0).
Proof. exact (edwards_facts.newMontgomeryPointFromEdwards_spec extended_identity). Defined.
End OnExtendedModel.

End vrf_claims.

(** * Further properties

    Properties of the functions around those above: the closed form
    of the Elligator map, the conversions between the two curve
    models, the byte-level helpers, and the composition of the VRF
    operations. *)

Module elligator_map.
Import field field_facts sqrt_facts sqrt_facts2 elligator_facts edwards_facts h2c.
Local Open Scope Zmod_scope.

(** [sqrt(-1)] is not a square modulo [p]. *)
Lemma sqrtM1_nonsquare (x : Element) : x * x <> sqrtM1.
Proof.
  intros H.
  assert (Hx : x <> 0).
  { intros ->. rewrite Zmod.mul_0_l in H. revert H. apply neq_by_to_Z.
    vm_compute. discriminate. }
  apply (two_nonsquare_ratio constMONTGOMERY_V_FACTOR (x * x * x)).
  - apply mul_nz; [apply mul_nz|]; assumption.
  - rewrite const_V_FACTOR_sq, const_U_FACTOR, const_SQRT_M1, const_Two.
    pose proof sqrtM1_sq as I. rewrite <- H in I.
    replace ((1 + 1) * (x * x * x * (x * x * x)))
      with ((1 + 1) * (x * x) * (x * x * (x * x))) by fring.
    rewrite I, H. fring.
Qed.

Lemma IsNegative_Negate (v : Element) :
  v <> 0 -> IsNegative (Negate v) = (1 - IsNegative v)%Z.
Proof.
  intros Hv. rewrite !IsNegative_parity, to_Z_Negate.
  pose proof (to_Z_range v) as R.
  destruct (Z.eqb_spec (Zmod.to_Z v) 0) as [E|N].
  - exfalso. apply Hv. apply Zmod.unsigned_inj. rewrite E. reflexivity.
  - assert (Hp : (p mod 2 = 1)%Z) by reflexivity.
    pose proof (Z.mod_pos_bound (Zmod.to_Z v) 2 ltac:(lia)).
    rewrite Zminus_mod, Hp.
    destruct (Z.eq_dec (Zmod.to_Z v mod 2) 0) as [->|O]; [reflexivity|].
    replace (Zmod.to_Z v mod 2)%Z with 1%Z by lia. reflexivity.
Qed.

Lemma sign_select (v : Element) (ws : Z) :
  v <> 0 -> ws = 0%Z \/ ws = 1%Z ->
  IsNegative (Select (Negate v) v (Z.lxor ws (IsNegative v))) = ws.
Proof.
  intros Hv Hws. pose proof (IsNegative_Negate v Hv) as N.
  destruct (IsNegative_cases v) as [E|E]; rewrite E in *;
    destruct Hws as [-> | ->]; cbn [Z.lxor Pos.lxor];
    rewrite ?Select_1, ?Select_0; assumption.
Qed.

Lemma mdiv_unique (a b x : Element) : b <> 0 -> x * b = a -> x = Zmod.mdiv a b.
Proof.
  intros Hb E. unfold Zmod.mdiv. rewrite <- E.
  pose proof (Zmod.mul_inv_same_r_prime b prime_p Hb) as I.
  replace (x * b * Zmod.inv b) with (x * (b * Zmod.inv b)) by fring.
  rewrite I. fring.
Qed.

(** The algebra of the two branches. *)
Lemma gx1_scaled (A t1 x1 : Element) :
  let u0 := t1 + 1 in
  x1 * u0 = - A ->
  (x1 * x1 * x1 + A * (x1 * x1) + x1) * (u0 * u0 * u0) = (A * A * t1 - u0 * u0) * A.
Proof.
  intros u0 E.
  replace ((x1 * x1 * x1 + A * (x1 * x1) + x1) * (u0 * u0 * u0))
    with ((x1 * u0) * (x1 * u0) * (x1 * u0) + A * ((x1 * u0) * (x1 * u0)) * u0
          + (x1 * u0) * (u0 * u0)) by fring.
  rewrite E. subst u0. fring.
Qed.

(** Elligator 2 in closed form.  With [x1 = -A / (1 + 2 r^2)] and
    [gx1 = x1^3 + A x1^2 + x1]: if [gx1] is a square then [u = x1] and
    [v] is negative (odd), otherwise [u = -x1 - A] and [v] is
    non-negative. *)
Theorem ell2MontgomeryFlavor_closed_form (r : Element) :
  let '(u, v) := ell2MontgomeryFlavor r in
  let A := constMONTGOMERY_A in
  let x1 := Zmod.mdiv (- A) (r * r * (1 + 1) + 1) in
  let gx1 := x1 * x1 * x1 + A * (x1 * x1) + x1 in
  ((exists y, y * y = gx1) -> u = x1 /\ IsNegative v = 1%Z) /\
  ((forall y, y * y <> gx1) -> u = - x1 - A /\ IsNegative v = 0%Z).
Proof.
  unfold ell2MontgomeryFlavor.
  set (A := constMONTGOMERY_A).
  set (t1 := Multiply (Square r) constTwo).
  set (u0 := Add t1 constOne).
  set (t2 := Square u0).
  set (t3 := Multiply (Subtract (Multiply constMONTGOMERY_A_SQUARED t1) t2) A).
  set (d := Multiply (Multiply t2 u0) t3).
  assert (Et1 : t1 = r * r * (1 + 1)) by reflexivity.
  assert (Eu0 : u0 = t1 + 1) by reflexivity.
  assert (Et2 : t2 = u0 * u0) by reflexivity.
  assert (Et3 : t3 = (A * A * t1 - u0 * u0) * A).
  { subst t3 t2. rewrite const_A_SQUARED. reflexivity. }
  assert (Ed : d = t2 * u0 * t3) by reflexivity.
  clearbody d t3 t2 u0 t1.
  assert (Hu0 : u0 <> 0) by (rewrite Eu0, Et1; apply ell2_u0_nz).
  assert (Ht3 : t3 <> 0) by (rewrite Et3, Eu0, Et1; apply ell2_t3_nz, A_nz).
  assert (Hd : d <> 0).
  { rewrite Ed, Et2. apply mul_nz; [apply mul_nz; [apply mul_nz|]|]; assumption. }
  rewrite <- Et1, <- Eu0.
  set (x1 := Zmod.mdiv (- A) u0).
  assert (Ex1 : x1 * u0 = - A).
  { unfold x1, Zmod.mdiv.
    pose proof (Zmod.mul_inv_same_l_prime u0 prime_p Hu0) as I.
    replace (- A * Zmod.inv u0 * u0) with (- A * (Zmod.inv u0 * u0)) by fring.
    rewrite I. fring. }
  pose proof (gx1_scaled A t1 x1) as G. cbv zeta in G. rewrite <- Eu0 in G.
  specialize (G Ex1). rewrite <- Et3 in G.
  set (gx1 := x1 * x1 * x1 + A * (x1 * x1) + x1) in *.
  clearbody gx1 x1.
  destruct (SqrtRatio_spec constOne d one_nz Hd) as (s & ws & -> & Hs).
  assert (Hss : s <> 0).
  { intros ->. assert (Z0 : Zmod.mul d (Zmod.mul 0 0) = 0) by fring.
    destruct Hs as [[_ Hs]|[_ Hs]]; rewrite Z0 in Hs; revert Hs;
      apply neq_by_to_Z; vm_compute; discriminate. }
  destruct Hs as [[-> Hs]|[-> Hs]].
  - rewrite !Select_1.
    assert (Hv0 : Multiply (Multiply constOne t3) s <> 0).
    { apply mul_nz; [apply mul_nz; [exact one_nz|exact Ht3]|exact Hss]. }
    split.
    + intros _. split; [|apply sign_select; [exact Hv0|right; reflexivity]].
      apply (Zmod.mul_cancel_r_prime u0 _ _ prime_p Hu0). rewrite Ex1.
      rewrite const_NEG_A. fold A. unfold Multiply, Square, constOne, One.
      replace (1 * - A * t3 * t2 * (s * s) * u0) with (- A * (d * (s * s)))
        by (rewrite Ed; fring).
      rewrite Hs. unfold constOne, One. fring.
    + intros N. exfalso. apply (N (t3 * s)).
      apply (Zmod.mul_cancel_r_prime (u0 * u0 * u0) _ _ prime_p).
      { apply mul_nz; [apply mul_nz|]; assumption. }
      rewrite G.
      replace (t3 * s * (t3 * s) * (u0 * u0 * u0)) with (t3 * (d * (s * s)))
        by (rewrite Ed, Et2; fring).
      rewrite Hs. unfold constOne, One. fring.
  - rewrite !Select_0.
    split.
    + intros [y Hy]. exfalso. apply (sqrtM1_nonsquare (u0 * u0 * u0 * y * s)).
      replace (u0 * u0 * u0 * y * s * (u0 * u0 * u0 * y * s))
        with ((y * y * (u0 * u0 * u0)) * (u0 * u0 * u0) * (s * s)) by fring.
      rewrite Hy, G.
      replace (t3 * (u0 * u0 * u0) * (s * s)) with (d * (s * s)) by (rewrite Ed, Et2; fring).
      rewrite Hs. unfold constOne, One. fring.
    + intros _. split.
      * apply (Zmod.mul_cancel_r_prime u0 _ _ prime_p Hu0).
        replace ((- x1 - A) * u0) with (- (x1 * u0) - A * u0) by fring.
        rewrite Ex1. rewrite const_NEG_A. fold A. unfold Multiply, Square.
        replace (r * r * constMONTGOMERY_U_FACTOR * - A * t3 * t2 * (s * s) * u0)
          with (- A * (r * r) * constMONTGOMERY_U_FACTOR * (d * (s * s)))
          by (rewrite Ed; fring).
        rewrite Hs. unfold constOne, One.
        replace (- A * (r * r) * constMONTGOMERY_U_FACTOR * (sqrtM1 * 1))
          with (- A * (r * r) * (constMONTGOMERY_U_FACTOR * sqrtM1)) by fring.
        rewrite U_FACTOR_sqrtM1, Eu0, Et1. fring.
      * set (v0 := Multiply (Multiply (Multiply r constMONTGOMERY_V_FACTOR) t3) s).
        destruct (Zmod.eqb_spec v0 0) as [Z0|NZ].
        { rewrite Z0. replace (Negate 0) with (0 : Element) by (unfold Negate; fring).
          unfold Select.
          match goal with |- context [if ?c then _ else _] => destruct c end;
            vm_compute; reflexivity. }
        apply (sign_select v0 0%Z); [exact NZ|left; reflexivity].
Qed.

End elligator_map.

Module montgomery_facts.
Import field field_facts sqrt_facts sqrt_facts2 elligator_facts edwards_facts
       edwards25519 h2c elligator_map.
Local Open Scope Zmod_scope.

Lemma d_plus_one_nz : d + 1 <> 0.
Proof. apply neq_by_to_Z. vm_compute. discriminate. Qed.

Lemma two_nz : (1 + 1 : Element) <> 0.
Proof. apply neq_by_to_Z. vm_compute. discriminate. Qed.

Lemma const_SQRT_nz : constMONTGOMERY_SQRT_NEG_A_PLUS_TWO <> 0.
Proof. apply neq_by_to_Z. vm_compute. discriminate. Qed.

Lemma mul_eq_0 (a b : Element) : a * b = 0 -> a = 0 \/ b = 0.
Proof. intros E. now apply (Zmod.mul_0_iff_prime prime_p) in E. Qed.

(** Affine coordinates of extended coordinates on the curve satisfy
    the affine equation. *)
Lemma affine_equation (X Y Z T : Element) :
  Z <> 0 ->
  Y * Y - X * X = d * (T * T) + Z * Z -> X * Y = T * Z ->
  let x := X * Invert Z in
  let y := Y * Invert Z in
  y * y - x * x = d * (x * y * (x * y)) + 1 * 1.
Proof.
  intros NZ C1 C2 x y. subst x y.
  pose proof (Invert_mul_l Z NZ) as IZ. set (i := Invert Z) in *. clearbody i.
  replace (Y * i * (Y * i) - X * i * (X * i)) with ((Y * Y - X * X) * (i * i)) by fring.
  replace (X * i * (Y * i)) with (X * Y * (i * i)) by fring.
  rewrite C1, C2.
  replace (T * Z * (i * i)) with (T * i * (i * Z)) by fring.
  replace ((d * (T * T) + Z * Z) * (i * i))
    with (d * (T * i * (T * i)) + (i * Z) * (i * Z)) by fring.
  rewrite IZ. fring.
Qed.

(** On the curve, [x = 0] exactly when [y] is 1 or -1. *)
Lemma y_one_x_zero (x y : Element) :
  y * y - x * x = d * (x * y * (x * y)) + 1 * 1 ->
  y * y = 1 -> x = 0.
Proof.
  intros E Hy.
  assert (K : (d + 1) * (x * x) = 0).
  { replace ((d + 1) * (x * x)) with (d * (x * y * (x * y)) + 1 * 1 - (y * y - x * x)
                                     - (1 - y * y) * (1 - d * (x * x))) by fring.
    rewrite <- E, Hy. fring. }
  destruct (mul_eq_0 _ _ K) as [K1|K1]; [exfalso; exact (d_plus_one_nz K1)|].
  destruct (mul_eq_0 _ _ K1); assumption.
Qed.

(** The birational map sends the Edwards curve to the Montgomery
    curve. *)
Lemma montgomery_on_curve (A c x y u v : Element) :
  c * c = - (A + (1 + 1)) ->
  d * (c * c) = A - (1 + 1) ->
  y * y - x * x = d * (x * y * (x * y)) + 1 * 1 ->
  x <> 0 -> 1 - y <> 0 ->
  u * (1 - y) = 1 + y ->
  v * x = c * u ->
  v * v = u * u * u + A * (u * u) + u.
Proof.
  intros Hc Hdc E Nx Ny Hu Hv.
  assert (K : - (A + (1 + 1)) * (y * y - x * x)
              = (A - (1 + 1)) * (x * y * (x * y)) + - (A + (1 + 1))).
  { rewrite <- Hdc, <- Hc, E. fring. }
  apply (Zmod.mul_cancel_r_prime (x * x * ((1 - y) * (1 - y) * (1 - y))) _ _ prime_p).
  { apply mul_nz; [apply mul_nz|apply mul_nz; [apply mul_nz|]]; assumption. }
  replace (v * v * (x * x * ((1 - y) * (1 - y) * (1 - y))))
    with ((v * x) * (v * x) * ((1 - y) * (1 - y) * (1 - y))) by fring.
  rewrite Hv.
  replace (c * u * (c * u) * ((1 - y) * (1 - y) * (1 - y)))
    with (c * c * ((u * (1 - y)) * (u * (1 - y))) * (1 - y)) by fring.
  replace ((u * u * u + A * (u * u) + u) * (x * x * ((1 - y) * (1 - y) * (1 - y))))
    with (x * x * ((u * (1 - y)) * (u * (1 - y)) * (u * (1 - y))
                   + A * ((u * (1 - y)) * (u * (1 - y))) * (1 - y)
                   + (u * (1 - y)) * ((1 - y) * (1 - y)))) by fring.
  rewrite Hu, Hc.
  replace (x * x * ((1 + y) * (1 + y) * (1 + y) + A * ((1 + y) * (1 + y)) * (1 - y)
                    + (1 + y) * ((1 - y) * (1 - y))))
    with ((1 + y) * (- (A + (1 + 1)) * (y * y - x * x)
                     - (A - (1 + 1)) * (x * y * (x * y))
                     + (A + (1 + 1)) * (y * y))) by fring.
  rewrite K. fring.
Qed.

Section WithCurveLaws.
Context {rep : PointRep} {L : CurveLaws rep}.

(** What the conversion computes, by cases on the affine [x]. *)
Lemma newMontgomeryPointFromEdwards_cases (P : Point) :
  let '(x, y) := affine P in
  let m := newMontgomeryPointFromEdwards P in
  y * y - x * x = d * (x * y * (x * y)) + 1 * 1 /\
  ((x = 0 /\ mont_u m = 0 /\ mont_v m = 0) \/
   (x <> 0 /\ 1 - y <> 0 /\ 1 + y <> 0 /\
    mont_u m * (1 - y) = 1 + y /\
    mont_v m * x = constMONTGOMERY_SQRT_NEG_A_PLUS_TWO * mont_u m)).
Proof.
  pose proof (ExtendedCoordinates_on_curve P) as V.
  unfold affine, newMontgomeryPointFromEdwards.
  destruct (ExtendedCoordinates P) as [[[X Y] Z] T].
  destruct V as [C NZ]. apply isOnCurve_iff in C. destruct C as [C1 C2].
  cbn [mont_u mont_v].
  pose proof (affine_equation X Y Z T NZ C1 C2) as E. cbv zeta in E.
  change (Multiply X (Invert Z)) with (X * Invert Z).
  change (Multiply Y (Invert Z)) with (Y * Invert Z).
  set (x := X * Invert Z) in *. set (y := Y * Invert Z) in *. clearbody x y.
  change (field.Add constOne y) with (1 + y).
  change (Subtract constOne y) with (1 - y).
  set (c := constMONTGOMERY_SQRT_NEG_A_PLUS_TWO).
  unfold Multiply.
  split; [exact E|].
  destruct (feIsZero_cases x) as [[Ex ->]|[Nx ->]].
  - left. rewrite Select_1, Ex, Invert_0. split; [reflexivity|].
    split; [reflexivity|fring].
  - right. rewrite Select_0.
    assert (Ny : 1 - y <> 0).
    { intros Hy. apply Nx. apply (y_one_x_zero x y E).
      replace y with (1 - (1 - y)) by fring. rewrite Hy. fring. }
    assert (Ny' : 1 + y <> 0).
    { intros Hy. apply Nx. apply (y_one_x_zero x y E).
      replace y with ((1 + y) - 1) by fring. rewrite Hy. fring. }
    split; [exact Nx|]. split; [exact Ny|]. split; [exact Ny'|].
    pose proof (Invert_mul_l (1 - y) Ny) as I1. pose proof (Invert_mul_l x Nx) as I2.
    split.
    + replace ((1 + y) * Invert (1 - y) * (1 - y))
        with ((1 + y) * (Invert (1 - y) * (1 - y))) by fring.
      rewrite I1. fring.
    + replace (Invert x * c * ((1 + y) * Invert (1 - y)) * x)
        with (c * ((1 + y) * Invert (1 - y)) * (Invert x * x)) by fring.
      rewrite I2. fring.
Qed.

(** The conversion of an Edwards point lies on the Montgomery curve
    [v^2 = u^3 + A u^2 + u]. *)
Theorem newMontgomeryPointFromEdwards_on_curve (P : Point) :
  let m := newMontgomeryPointFromEdwards P in
  mont_v m * mont_v m =
  mont_u m * mont_u m * mont_u m + constMONTGOMERY_A * (mont_u m * mont_u m) + mont_u m.
Proof.
  pose proof (newMontgomeryPointFromEdwards_cases P) as C.
  destruct (affine P) as [x y]. cbv zeta in *.
  destruct C as [E [(Ex & -> & ->)|(Nx & Ny & _ & Hu & Hv)]]; [fring|].
  exact (montgomery_on_curve _ _ x y _ _ const_SQRT_sq const_d_SQRT_sq E Nx Ny Hu Hv).
Qed.

(** Edwards to Montgomery and back: the point itself, except that
    both points with [x = 0], the identity [(0, 1)] and [(0, -1)],
    come back as the identity. *)
Theorem ToEdwardsPoint_roundtrip (P : Point) :
  let '(x, y) := affine P in
  exists P', ToEdwardsPoint (newMontgomeryPointFromEdwards P) = Ret P' /\
    (x <> 0 -> affine P' = (x, y)) /\
    (x = 0 -> affine P' = (0, 1)).
Proof.
  pose proof (newMontgomeryPointFromEdwards_cases P) as C.
  destruct (affine P) as [x y]. cbv zeta in *.
  set (m := newMontgomeryPointFromEdwards P) in *. clearbody m.
  destruct m as [u v]. cbn [mont_u mont_v] in C.
  unfold ToEdwardsPoint. cbn [mont_u mont_v].
  set (c := constMONTGOMERY_SQRT_NEG_A_PLUS_TWO) in *.
  change (field.Add u constOne) with (u + 1).
  change (Subtract u constOne) with (u - 1).
  unfold Multiply.
  destruct C as [E [(Ex & -> & ->)|(Nx & Ny & Ny' & Hu & Hv)]].
  - destruct (feIsZero_cases 0) as [[_ ->]|[N _]]; [|congruence].
    destruct (feIsZero_cases (0 + 1)) as [[Z1 _]|[_ ->]].
    { exfalso. apply one_nz. rewrite <- Z1. fring. }
    cbn [Z.lor]. rewrite !Select_1. unfold newEdwardsFromXY.
    destruct (SetExtendedCoordinates_on_curve constZero constOne One
                (Multiply constZero constOne)) as (P' & -> & HP).
    { vm_compute. reflexivity. }
    exists P'. split; [reflexivity|].
    assert (HA : affine P' = (0, 1)).
    { rewrite HP by exact one_nz. unfold Multiply, constZero, constOne, Zero.
      change One with (1 : Element). rewrite Invert_1. f_equal; fring. }
    split; [intros N; contradiction|intros _; exact HA].
  - assert (Nc : c <> 0) by exact const_SQRT_nz.
    assert (Nu : u <> 0).
    { intros ->. apply Ny'. rewrite <- Hu. fring. }
    assert (Nv : v <> 0).
    { intros ->. destruct (mul_eq_0 c u); [rewrite <- Hv; fring|contradiction..]. }
    assert (H2 : (u + 1) * (1 - y) = 1 + 1).
    { replace ((u + 1) * (1 - y)) with (u * (1 - y) + (1 - y)) by fring.
      rewrite Hu. fring. }
    assert (Nu1 : u + 1 <> 0).
    { intros Z1. rewrite Z1 in H2. apply two_nz. rewrite <- H2. fring. }
    destruct (feIsZero_cases v) as [[Z0 _]|[_ ->]]; [contradiction|].
    destruct (feIsZero_cases (u + 1)) as [[Z1 _]|[_ ->]]; [contradiction|].
    cbn [Z.lor]. rewrite !Select_0.
    pose proof (Invert_mul_l v Nv) as Iv. pose proof (Invert_mul_l (u + 1) Nu1) as Iu.
    assert (Hx : Invert v * u * c = x).
    { apply (Zmod.mul_cancel_r_prime v _ _ prime_p Nv).
      replace (Invert v * u * c * v) with (c * u * (Invert v * v)) by fring.
      rewrite Iv, <- Hv. fring. }
    assert (Hy : (u - 1) * Invert (u + 1) = y).
    { apply (Zmod.mul_cancel_r_prime ((u + 1) * (1 - y)) _ _ prime_p).
      { apply mul_nz; assumption. }
      replace ((u - 1) * Invert (u + 1) * ((u + 1) * (1 - y)))
        with ((u * (1 - y) - (1 - y)) * (Invert (u + 1) * (u + 1))) by fring.
      rewrite Iu, Hu, H2. fring. }
    rewrite Hx, Hy. unfold newEdwardsFromXY.
    destruct (SetExtendedCoordinates_on_curve x y One (Multiply x y)) as (P' & -> & HP).
    { apply isOnCurve_iff. split; [exact E|]. unfold Multiply, One. fring. }
    exists P'. split; [reflexivity|].
    split; [|intros Z0; contradiction].
    intros _. rewrite HP by exact one_nz. unfold Multiply.
    change One with (1 : Element). rewrite Invert_1. f_equal; fring.
Qed.
(** The coordinates [ToEdwardsPoint] hands to [newEdwardsFromXY]. *)
Lemma ToEdwardsPoint_xy (u v : Element) :
  exists x y : Element,
    ToEdwardsPoint {| mont_u := u; mont_v := v |} = newEdwardsFromXY x y /\
    ((v = 0 \/ u + 1 = 0) -> x = 0 /\ y = 1) /\
    (v <> 0 -> u + 1 <> 0 ->
     x * v = u * constMONTGOMERY_SQRT_NEG_A_PLUS_TWO /\ y * (u + 1) = u - 1).
Proof.
  unfold ToEdwardsPoint. cbn [mont_u mont_v].
  change (field.Add u constOne) with (u + 1).
  change (Subtract u constOne) with (u - 1).
  destruct (feIsZero_cases v) as [[Ev ->]|[Nv ->]].
  - assert (F : Z.lor 1 (feIsZero (u + 1)) = 1%Z).
    { destruct (feIsZero_cases (u + 1)) as [[_ ->]|[_ ->]]; reflexivity. }
    rewrite F, !Select_1.
    exists constZero, constOne. split; [reflexivity|].
    split; [intros _; split; reflexivity|]. intros N. contradiction.
  - destruct (feIsZero_cases (u + 1)) as [[Eu ->]|[Nu ->]].
    + cbn [Z.lor]. rewrite !Select_1.
      exists constZero, constOne. split; [reflexivity|].
      split; [intros _; split; reflexivity|]. intros _ N. contradiction.
    + cbn [Z.lor]. rewrite !Select_0.
      eexists. eexists. split; [reflexivity|].
      split; [intros [E|E]; contradiction|].
      intros _ _. unfold Multiply. split.
      * replace (Invert v * u * constMONTGOMERY_SQRT_NEG_A_PLUS_TWO * v)
          with ((Invert v * v) * (u * constMONTGOMERY_SQRT_NEG_A_PLUS_TWO)) by fring.
        rewrite Invert_mul_l by assumption. fring.
      * replace ((u - 1) * Invert (u + 1) * (u + 1))
          with ((Invert (u + 1) * (u + 1)) * (u - 1)) by fring.
        rewrite Invert_mul_l by assumption. fring.
Qed.

(** Where [ToEdwardsPoint] is defined.  On a point of the Montgomery
    curve it returns the Edwards point of RFC 7748 (the identity when
    [v = 0] or [u = -1]); on a [(u, v)] off the curve with [u], [v]
    and [u + 1] nonzero it panics. *)
Theorem ToEdwardsPoint_domain (m : montgomeryPoint) :
  let u := mont_u m in
  let v := mont_v m in
  (v * v = u * u * u + constMONTGOMERY_A * (u * u) + u ->
   exists P, ToEdwardsPoint m = Ret P /\
     ((v = 0 \/ u + 1 = 0) -> affine P = (0, 1)) /\
     (v <> 0 -> u + 1 <> 0 ->
      affine P = (Zmod.mdiv u v * constMONTGOMERY_SQRT_NEG_A_PLUS_TWO,
                  Zmod.mdiv (u - 1) (u + 1)))) /\
  (v * v <> u * u * u + constMONTGOMERY_A * (u * u) + u ->
   v <> 0 -> u + 1 <> 0 -> u <> 0 ->
   exists msg, ToEdwardsPoint m = Panic msg).
Proof.
  destruct m as [u v]. cbn [mont_u mont_v]. cbv zeta.
  destruct (ToEdwardsPoint_xy u v) as (x & y & -> & H1 & H2).
  set (c := constMONTGOMERY_SQRT_NEG_A_PLUS_TWO) in *.
  split.
  - intros C.
    assert (On : isOnCurve x y One (Multiply x y) = true).
    { apply isOnCurve_iff. split; [|unfold Multiply, One; fring].
      destruct (Zmod.eqb_spec v 0) as [Ev|Nv].
      { destruct (H1 (or_introl Ev)) as [-> ->]. unfold Multiply, One. fring. }
      destruct (Zmod.eqb_spec (u + 1) 0) as [Eu|Nu].
      { destruct (H1 (or_intror Eu)) as [-> ->]. unfold Multiply, One. fring. }
      destruct (H2 Nv Nu) as [Hx Hy].
      exact (birational_on_curve constMONTGOMERY_A c u v x y
               const_SQRT_sq const_d_SQRT_sq C Nv Nu Hx Hy). }
    unfold newEdwardsFromXY.
    destruct (SetExtendedCoordinates_on_curve x y One (Multiply x y) On) as (P & -> & HP).
    exists P. split; [reflexivity|].
    assert (HA : affine P = (x, y)).
    { rewrite HP by exact one_nz. unfold Multiply.
      change One with (1 : Element). rewrite Invert_1. f_equal; fring. }
    rewrite HA. split.
    + intros E. destruct (H1 E) as [-> ->]. reflexivity.
    + intros Nv Nu. destruct (H2 Nv Nu) as [Hx Hy]. f_equal.
      * rewrite (mdiv_unique (u * c) v x Nv Hx). unfold Zmod.mdiv. fring.
      * apply mdiv_unique; assumption.
  - intros C Nv Nu Nu0.
    destruct (H2 Nv Nu) as [Hx Hy].
    assert (Off : isOnCurve x y One (Multiply x y) = false).
    { destruct (isOnCurve x y One (Multiply x y)) eqn:On; [|reflexivity].
      exfalso. apply C. apply isOnCurve_iff in On. destruct On as [E _].
      assert (Nx : x <> 0).
      { intros ->. destruct (mul_eq_0 u c); [rewrite <- Hx; fring|contradiction|].
        exact (const_SQRT_nz H). }
      assert (H2y : (1 - y) * (u + 1) = 1 + 1).
      { replace ((1 - y) * (u + 1)) with ((u + 1) - y * (u + 1)) by fring.
        rewrite Hy. fring. }
      assert (Ny : 1 - y <> 0).
      { intros Z1. rewrite Z1 in H2y. apply two_nz. rewrite <- H2y. fring. }
      apply (montgomery_on_curve constMONTGOMERY_A c x y u v
               const_SQRT_sq const_d_SQRT_sq E Nx Ny).
      + apply (Zmod.mul_cancel_r_prime (u + 1) _ _ prime_p Nu).
        replace (u * (1 - y) * (u + 1)) with (u * ((1 - y) * (u + 1))) by fring.
        replace ((1 + y) * (u + 1)) with ((u + 1) + y * (u + 1)) by fring.
        rewrite H2y, Hy. fring.
      + rewrite Zmod.mul_comm, Hx. fring. }
    unfold newEdwardsFromXY.
    destruct (SetExtendedCoordinates_off_curve x y One (Multiply x y) Off) as (e & ->).
    eexists. reflexivity.
Qed.
End WithCurveLaws.

End montgomery_facts.

Module h2c_more.
Import statements samples.
Import field field_facts sqrt_facts sqrt_facts2 elligator_facts edwards_facts
       edwards25519 h2c h2c_claims bytes_facts scalar_facts suite_facts group_facts
       clamp_facts models model_facts.

(** [reversedByteSlice] returns the bytes in reverse order, the empty
    slice included; it keeps the length and undoes itself. *)
Theorem reversedByteSlice_reverses (b : list byte) :
  reversedByteSlice b = rev b /\
  length (reversedByteSlice b) = length b /\
  reversedByteSlice (reversedByteSlice b) = b.
Proof.
  rewrite !reversedByteSlice_rev. split; [reflexivity|].
  split; [apply length_rev|apply rev_involutive].
Qed.

(** [uniformToField25519] panics exactly on inputs that are not 48
    bytes long: the wide decoding it then calls cannot fail. *)
Theorem uniformToField25519_panics_iff (b : list byte) :
  (exists msg, uniformToField25519 b = Panic msg) <-> length b <> 48%nat.
Proof.
  split.
  - intros [msg E] L. rewrite (uniformToField25519_unfold b L) in E.
    rewrite (SetWideBytes_reversed b L) in E. discriminate.
  - intros N. unfold uniformToField25519.
    destruct (Nat.eqb_spec (length b) ell) as [E|_]; [contradiction|].
    eexists. reflexivity.
Qed.

(** [mustFeFromUint64] never panics: it returns the field element of
    its 64-bit argument. *)
Theorem mustFeFromUint64_value (x : Z) :
  0 <= x < 2 ^ 64 -> mustFeFromUint64 x = Ret (Zmod.of_Z p x).
Proof.
  intros Hx. unfold mustFeFromUint64, mustFeFromBytes.
  rewrite copy_short_zeros by (rewrite length_le_split; lia).
  rewrite length_le_split. unfold field.SetBytes.
  rewrite length_app, length_le_split, length_zeros. cbn [Nat.sub Nat.add Nat.eqb].
  unfold zeros. rewrite le_combine_app_0, le_combine_split.
  change (2 ^ (Z.of_nat 8 * 8)) with (2 ^ 64).
  rewrite (Z.mod_small x (2 ^ 64)) by lia.
  rewrite Z.mod_small by (assert (2 ^ 64 < 2 ^ 255) by reflexivity; lia).
  reflexivity.
Qed.

Lemma mustFeFromUint64_value_witness :
  0 <= 486662 < 2 ^ 64 /\ mustFeFromUint64 486662 = Ret (Zmod.of_Z p 486662).
Proof.
  split; [split; [discriminate|reflexivity]|].
  apply (mustFeFromUint64_value 486662). split; [discriminate|reflexivity].
Defined.

(** The package constants are what their names say, and the checks of
    the constants test hold: [-A], [A^2], [sqrt(-1)], [sqrt(-(A+2))],
    [u_factor = -2 sqrt(-1)] and [v_factor = sqrt(u_factor)]. *)
Theorem elligator_constants :
  Zmod.to_Z constMONTGOMERY_A = 486662 /\
  constMONTGOMERY_A_SQUARED = Multiply constMONTGOMERY_A constMONTGOMERY_A /\
  field.Negate constMONTGOMERY_NEG_A = constMONTGOMERY_A /\
  Multiply constSQRT_M1 constSQRT_M1 = field.Negate constOne /\
  fst (SqrtRatio constOne (Invert (Subtract constMONTGOMERY_NEG_A constTwo)))
    = constMONTGOMERY_SQRT_NEG_A_PLUS_TWO /\
  Multiply constMONTGOMERY_SQRT_NEG_A_PLUS_TWO constMONTGOMERY_SQRT_NEG_A_PLUS_TWO
    = field.Negate (field.Add constMONTGOMERY_A constTwo) /\
  Multiply (field.Negate constTwo) constSQRT_M1 = constMONTGOMERY_U_FACTOR /\
  fst (SqrtRatio constOne (Invert constMONTGOMERY_U_FACTOR)) = constMONTGOMERY_V_FACTOR /\
  Multiply constMONTGOMERY_V_FACTOR constMONTGOMERY_V_FACTOR = constMONTGOMERY_U_FACTOR.
Proof.
  repeat match goal with |- _ /\ _ => split end; vm_compute; reflexivity.
Qed.

Section WithCurveLaws.
Context {rep : PointRep} {L : CurveLaws rep}.
Local Open Scope Zmod_scope.

(** [newEdwardsFromXY] returns the point with affine coordinates
    [(x, y)] when they satisfy [-x^2 + y^2 = 1 + d x^2 y^2], and
    panics otherwise. *)
Theorem newEdwardsFromXY_spec (x y : Element) :
  (y * y - x * x = 1 + d * (x * x) * (y * y) ->
   exists P, newEdwardsFromXY x y = Ret P /\ affine P = (x, y)) /\
  (y * y - x * x <> 1 + d * (x * x) * (y * y) ->
   exists msg, newEdwardsFromXY x y = Panic msg).
Proof.
  unfold newEdwardsFromXY. split.
  - intros E.
    destruct (SetExtendedCoordinates_on_curve x y One (Multiply x y)) as (P & -> & HP).
    { apply isOnCurve_iff. unfold Multiply, One. split; [rewrite E|]; fring. }
    exists P. split; [reflexivity|]. rewrite HP by exact one_nz.
    unfold Multiply. change One with (1 : Element). rewrite Invert_1. f_equal; fring.
  - intros N.
    destruct (SetExtendedCoordinates_off_curve x y One (Multiply x y)) as (e & ->).
    { destruct (isOnCurve x y One (Multiply x y)) eqn:On; [|reflexivity].
      exfalso. apply N. apply isOnCurve_iff in On. destruct On as [E _].
      rewrite E. unfold Multiply, One. fring. }
    eexists. reflexivity.
Qed.
End WithCurveLaws.

Section WithGroupLaws.
Context {rep : PointRep} {ops : PointOps} {L : GroupLaws rep ops}.

Lemma uniformToField25519_ret (b : list byte) :
  length b = 48%nat -> uniformToField25519 b = Ret (Zmod.of_Z p (OS2IP b)).
Proof.
  intros Lb. rewrite (uniformToField25519_unfold b Lb), (SetWideBytes_reversed b Lb).
  reflexivity.
Qed.

Lemma uniform_bytes_to_subgroup (ub : list byte) :
  (length ub = 48%nat ->
   exists Q, ell2EdwardsFlavor (Zmod.of_Z p (OS2IP ub)) = Ret Q /\
     encodeToCurve ub = Ret (zmul 8 Q) /\
     zmul q (zmul 8 Q) = NewIdentityPoint) /\
  (length ub = 96%nat ->
   exists Q0 Q1,
     ell2EdwardsFlavor (Zmod.of_Z p (OS2IP (firstn 48 ub))) = Ret Q0 /\
     ell2EdwardsFlavor (Zmod.of_Z p (OS2IP (skipn 48 ub))) = Ret Q1 /\
     hashToCurve ub = Ret (zmul 8 (edwards25519.Add Q0 Q1)) /\
     zmul q (zmul 8 (edwards25519.Add Q0 Q1)) = NewIdentityPoint).
Proof.
  split.
  - intros Lb. unfold encodeToCurve. rewrite (uniformToField25519_ret ub Lb).
    destruct (ell2EdwardsFlavor_ret (Zmod.of_Z p (OS2IP ub))
                SetExtendedCoordinates_total) as (Q & EQ).
    exists Q. split; [exact EQ|]. cbn [bind]. rewrite EQ. cbn [bind].
    rewrite <- MultByCofactor_spec. split; [reflexivity|].
    apply cofactor_cleared_annihilated.
  - intros Lb. unfold hashToCurve.
    assert (S0 : slice ub 0 ell = firstn 48 ub) by reflexivity.
    assert (S1 : slice ub ell hashToCurveSize = skipn 48 ub).
    { unfold slice. apply firstn_all2. rewrite length_skipn, Lb. cbn. lia. }
    rewrite S0, S1.
    rewrite (uniformToField25519_ret (firstn 48 ub)) by (rewrite length_firstn; lia).
    rewrite (uniformToField25519_ret (skipn 48 ub)) by (rewrite length_skipn; lia).
    destruct (ell2EdwardsFlavor_ret (Zmod.of_Z p (OS2IP (firstn 48 ub)))
                SetExtendedCoordinates_total) as (Q0 & E0).
    destruct (ell2EdwardsFlavor_ret (Zmod.of_Z p (OS2IP (skipn 48 ub)))
                SetExtendedCoordinates_total) as (Q1 & E1).
    exists Q0, Q1. split; [exact E0|]. split; [exact E1|].
    cbn [bind]. rewrite E0. cbn [bind]. rewrite E1. cbn [bind].
    rewrite <- MultByCofactor_spec. split; [reflexivity|].
    apply cofactor_cleared_annihilated.
Qed.

(** [encodeToCurve] and [hashToCurve] do not panic on 48 and 96
    uniform bytes; they return 8 times the Elligator point (the sum
    of the two Elligator points), which [q] annihilates: a point of
    the prime-order subgroup. *)
Theorem hash_to_curve_subgroup (ub : list byte) :
  (length ub = 48%nat ->
   exists Q, ell2EdwardsFlavor (Zmod.of_Z p (OS2IP ub)) = Ret Q /\
     encodeToCurve ub = Ret (zmul 8 Q) /\
     zmul q (zmul 8 Q) = NewIdentityPoint) /\
  (length ub = 96%nat ->
   exists Q0 Q1,
     ell2EdwardsFlavor (Zmod.of_Z p (OS2IP (firstn 48 ub))) = Ret Q0 /\
     ell2EdwardsFlavor (Zmod.of_Z p (OS2IP (skipn 48 ub))) = Ret Q1 /\
     hashToCurve ub = Ret (zmul 8 (edwards25519.Add Q0 Q1)) /\
     zmul q (zmul 8 (edwards25519.Add Q0 Q1)) = NewIdentityPoint).
Proof.
  split; intros Lb.
  - destruct (proj1 (uniform_bytes_to_subgroup ub) Lb) as (Q & E & R & A).
    exists Q. auto.
  - destruct (proj2 (uniform_bytes_to_subgroup ub) Lb) as (Q0 & Q1 & E0 & E1 & R & A).
    exists Q0, Q1. auto.
Qed.

Lemma length_expand_into (n : nat) (hFunc : crypto.Hash) (dst msg out : list byte) :
  expand_into n hFunc dst msg = Ok out -> length out = n.
Proof.
  unfold expand_into. destruct (ExpandMessageXMD n hFunc dst msg); [|discriminate].
  intros E. injection E as <-. rewrite length_copy_at; rewrite length_zeros; lia.
Qed.

(** The generic suites: when the expansion fails they return its
    error, wrapped; otherwise they return a point of the prime-order
    subgroup, and never panic. *)
Theorem suites_expand_then_map (hFunc : crypto.Hash) (dst msg : list byte) :
  (forall e, ExpandMessageXMD 48 hFunc dst msg = Err e ->
     Edwards25519_XMD_ELL2_NU hFunc dst msg
     = Ret (Err ("h2c: failed to expand message: " ++ e))) /\
  (forall out, ExpandMessageXMD 48 hFunc dst msg = Ok out ->
     exists P, Edwards25519_XMD_ELL2_NU hFunc dst msg = Ret (Ok P) /\
               zmul q P = NewIdentityPoint) /\
  (forall e, ExpandMessageXMD 96 hFunc dst msg = Err e ->
     Edwards25519_XMD_ELL2_RO hFunc dst msg
     = Ret (Err ("h2c: failed to expand message: " ++ e))) /\
  (forall out, ExpandMessageXMD 96 hFunc dst msg = Ok out ->
     exists P, Edwards25519_XMD_ELL2_RO hFunc dst msg = Ret (Ok P) /\
               zmul q P = NewIdentityPoint).
Proof.
  unfold Edwards25519_XMD_ELL2_NU, Edwards25519_XMD_ELL2_RO.
  change encodeToCurveSize with 48%nat. change hashToCurveSize with 96%nat.
  split; [|split; [|split]].
  - intros e E. unfold expand_into. rewrite E. reflexivity.
  - intros out E.
    destruct (expand_into 48 hFunc dst msg) as [ub|e] eqn:X;
      [|unfold expand_into in X; rewrite E in X; discriminate].
    destruct (proj1 (uniform_bytes_to_subgroup ub) (length_expand_into _ _ _ _ _ X))
      as (Q & _ & -> & A).
    eexists. split; [reflexivity|exact A].
  - intros e E. unfold expand_into. rewrite E. reflexivity.
  - intros out E.
    destruct (expand_into 96 hFunc dst msg) as [ub|e] eqn:X;
      [|unfold expand_into in X; rewrite E in X; discriminate].
    destruct (proj2 (uniform_bytes_to_subgroup ub) (length_expand_into _ _ _ _ _ X))
      as (Q0 & Q1 & _ & _ & -> & A).
    eexists. split; [reflexivity|exact A].
Qed.
End WithGroupLaws.

End h2c_more.

Module vrf_more.
Import statements samples.
Import field edwards25519 bytes_facts scalar_facts mem_facts group_facts clamp_facts
       suite_facts vrf_facts prove_facts verify_facts reject_facts models model_facts.

(** A 32-byte string whose value is below [2^128] ends in 16 zero
    bytes. *)
Lemma short_scalar_bytes (c : Scalar.t) :
  Zmod.to_Z c < 2 ^ 128 ->
  Scalar.Bytes c = firstn 16 (Scalar.Bytes c) ++ zeros 16.
Proof.
  intros Hc. pose proof (Scalar_to_Z_range c) as R.
  pose proof (Scalar_Bytes_length c) as Lc.
  assert (L : length (firstn 16 (Scalar.Bytes c) ++ zeros 16) = 32%nat).
  { rewrite length_app, length_firstn, length_zeros, Lc. reflexivity. }
  rewrite <- (split_le_combine (Scalar.Bytes c)) at 1.
  rewrite <- (split_le_combine (firstn 16 (Scalar.Bytes c) ++ zeros 16)).
  rewrite L, Lc. f_equal.
  unfold zeros. rewrite le_combine_app_0, le_combine_firstn, le_combine_Bytes.
  rewrite Z.mod_small; [reflexivity|].
  change (2 ^ (8 * Z.of_nat 16)) with (2 ^ 128). lia.
Qed.

Lemma split_80 (pi : list byte) :
  length pi = 80%nat -> pi = slice pi 0 32 ++ slice pi 32 48 ++ skipn 48 pi.
Proof.
  intros L. unfold slice. cbn [skipn Nat.sub].
  rewrite <- (firstn_skipn 32 pi) at 1. f_equal.
  rewrite <- (firstn_skipn 16 (skipn 32 pi)) at 1. f_equal.
  rewrite skipn_skipn. reflexivity.
Qed.

Section WithBackend.
Context {rep : PointRep} {ops : PointOps} {H : Sha512}.

(** The challenge is the first 16 bytes of the hash of
    [suite || 0x02 || p1 || p2 || p3 || p4 || p5 || 0x00], read
    little-endian: below [2^128], and never a panic.  With no [p1]
    it is the challenge of the older copy. *)
Theorem challengeGeneration_value (p1 p2 p3 : list byte) (p4 p5 : Point) :
  let str := [vrf.suiteString; vrf.twoString] ++ p1 ++ p2 ++ p3 ++
             Bytes p4 ++ Bytes p5 ++ [vrf.zeroString] in
  let c := Zmod.of_Z q (le_combine (firstn 16 (sum_into 64 (sha512 str)))) in
  vrf.challengeGeneration p1 p2 p3 p4 p5 = Ret c /\
  Zmod.to_Z c < 2 ^ 128 /\
  ecvrf.hashPoints p2 p3 p4 p5 = vrf.challengeGeneration [] p2 p3 p4 p5.
Proof.
  cbv zeta. split; [|split; [|apply hashPoints_agree]].
  - unfold vrf.challengeGeneration.
    assert (S : (if (0 <? length p1)%nat
                 then [vrf.suiteString; vrf.twoString] ++ p1
                 else [vrf.suiteString; vrf.twoString])
                = [vrf.suiteString; vrf.twoString] ++ p1).
    { destruct p1; reflexivity. }
    rewrite S. rewrite <- !app_assoc.
    set (dg := sum_into 64 (sha512 _)).
    assert (L : length (slice dg 0 16) = 16%nat).
    { rewrite length_slice; unfold dg; rewrite ?length_sum_into; lia. }
    rewrite copy_prefix_zeros by lia.
    rewrite (@firstn_all2 _ 16 (slice dg 0 16)) by lia.
    change (32 - 16)%nat with 16%nat.
    destruct (SetCanonicalBytes_cases (slice dg 0 16 ++ zeros 16))
      as [(_ & _ & E & _)|[[N|N] _]].
    + rewrite E. cbn [must]. f_equal. f_equal.
      unfold zeros. rewrite le_combine_app_0. reflexivity.
    + rewrite length_app, L, length_zeros in N. lia.
    + pose proof (le_combine_16_bound _ L). lia.
  - rewrite Zmod.unsigned_of_Z.
    set (dg := sum_into 64 (sha512 _)).
    pose proof (le_combine_bound (firstn 16 dg)) as B.
    assert (L : length (firstn 16 dg) = 16%nat).
    { rewrite length_firstn. unfold dg. rewrite length_sum_into. reflexivity. }
    rewrite L in B. change (2 ^ (8 * Z.of_nat 16)) with (2 ^ 128) in B.
    assert (2 ^ 128 < q) by reflexivity.
    rewrite Z.mod_small by lia. lia.
Qed.

Context {L : GroupLaws rep ops}.

(** Encoding and decoding a proof are inverse: a proof that decodes
    is the concatenation of the encodings of its parts, with a
    challenge below [2^128], and every such concatenation decodes to
    its parts. *)
Theorem decodeProof_roundtrip (pi : list byte) (gamma : Point) (c s : Scalar.t) :
  (vrf.decodeProof pi = Ok (gamma, c, s) ->
   pi = Bytes gamma ++ firstn 16 (Scalar.Bytes c) ++ Scalar.Bytes s /\
   Zmod.to_Z c < 2 ^ 128) /\
  (Zmod.to_Z c < 2 ^ 128 ->
   vrf.decodeProof (Bytes gamma ++ firstn 16 (Scalar.Bytes c) ++ Scalar.Bytes s)
   = Ok (gamma, c, s)).
Proof.
  split.
  - intros D.
    destruct (vrf_decodeProof_cases pi) as [(g & L80 & EG & EB & Bs & E)|[_ [e E]]];
      [|congruence].
    rewrite E in D.
    assert (G1 : g = gamma) by congruence.
    assert (G2 : Zmod.of_Z q (le_combine (slice pi 32 48)) = c) by congruence.
    assert (G3 : Zmod.of_Z q (le_combine (skipn 48 pi)) = s) by congruence.
    clear D. subst gamma c s.
    assert (L16 : length (slice pi 32 48) = 16%nat) by (apply length_slice_32_48; exact L80).
    pose proof (le_combine_bound (slice pi 32 48)) as B16. rewrite L16 in B16.
    change (2 ^ (8 * Z.of_nat 16)) with (2 ^ 128) in B16.
    assert (Q128 : 2 ^ 128 < q) by reflexivity.
    assert (Ec : Scalar.Bytes (Zmod.of_Z q (le_combine (slice pi 32 48)))
                 = slice pi 32 48 ++ zeros 16).
    { destruct (SetCanonicalBytes_cases (slice pi 32 48 ++ zeros 16))
        as [(_ & _ & _ & B)|[[N|N] _]].
      - unfold zeros in B. rewrite le_combine_app_0 in B. exact B.
      - rewrite length_app, L16, length_zeros in N. lia.
      - pose proof (le_combine_16_bound _ L16). lia. }
    assert (Es : Scalar.Bytes (Zmod.of_Z q (le_combine (skipn 48 pi))) = skipn 48 pi).
    { destruct (SetCanonicalBytes_cases (skipn 48 pi)) as [(_ & _ & _ & B)|[[N|N] _]].
      - exact B.
      - rewrite length_skipn in N. lia.
      - lia. }
    split.
    + rewrite EB, Ec, Es. rewrite firstn_app_exact by exact L16.
      apply split_80. exact L80.
    + rewrite Zmod.unsigned_of_Z, Z.mod_small by lia. lia.
  - intros Hc. apply decodeProof_layout. apply short_scalar_bytes. exact Hc.
Qed.

(** [Verify] returns either [(false, nil)] or [(true, beta)] with
    [beta] what [ProofToHash] returns for the proof; it accepts
    32-byte keys and 80-byte proofs only. *)
Theorem Verify_returns_ProofToHash (pk pi alpha : list byte) (draftPreV11 : bool)
    (m : Mem) (pkS piS alphaS : Slice) :
  (vrf.doVerify pk pi alpha draftPreV11 = Ret (false, None) \/
   exists beta,
     vrf.doVerify pk pi alpha draftPreV11 = Ret (true, Some beta) /\
     vrf.ProofToHash pi = Ok beta /\
     length pk = 32%nat /\ length pi = 80%nat) /\
  (ecvrf.Verify m pkS piS alphaS = Ret (false, None) \/
   exists beta,
     ecvrf.Verify m pkS piS alphaS = Ret (true, Some beta) /\
     ecvrf.ProofToHash (load m piS) = Ok beta /\
     length (load m pkS) = 32%nat /\ length (load m piS) = 80%nat).
Proof.
  split.
  - unfold vrf.doVerify, vrf.ProofToHash.
    destruct (SetBytes pk) as [Y|e] eqn:EY; [|left; reflexivity].
    destruct (bytes_eqb (Bytes Y) pk) eqn:EB; cbn [negb]; [|left; reflexivity].
    apply bytes_eqb_eq in EB.
    destruct (cofactor_check_cases Y) as [[E8 ->]|[N8 ->]]; [left; reflexivity|].
    destruct (vrf_decodeProof_cases pi) as [(g & L80 & _ & _ & _ & ->)|[_ [e ->]]];
      [|left; reflexivity].
    destruct (encodeToCurveH2cSuite_ret pk alpha) as (Q & ->). cbn [must bind].
    match goal with |- context [vrf.challengeGeneration ?a ?b ?c ?d ?e] =>
      destruct (challengeGeneration_ret a b c d e) as (c' & -> & _) end.
    cbn [bind]. rewrite challenge_compare.
    destruct (Zmod.eqb _ c'); [right|left; reflexivity].
    eexists. split; [reflexivity|]. split; [reflexivity|].
    split; [rewrite <- EB; apply Bytes_length|exact L80].
  - unfold ecvrf.Verify, ecvrf.ProofToHash. rewrite decodeProof_agree.
    destruct (vrf_decodeProof_cases (load m piS))
      as [(g & L80 & _ & _ & _ & ->)|[_ [e ->]]]; [|left; reflexivity].
    destruct (SetBytes (load m pkS)) as [Y|e] eqn:EY; [|left; reflexivity].
    destruct (bytes_eqb (Bytes Y) (load m pkS)) eqn:EB; cbn [negb]; [|left; reflexivity].
    apply bytes_eqb_eq in EB.
    destruct (cofactor_check_cases Y) as [[E8 ->]|[N8 ->]]; [left; reflexivity|].
    destruct (hashToCurveH2cSuite_ret m pkS alphaS) as (Q & EH).
    destruct (ecvrf.hashToCurveH2cSuite m pkS alphaS) as [m' r]. cbn [snd] in EH.
    rewrite EH. cbn [must bind]. rewrite hashPoints_agree.
    match goal with |- context [vrf.challengeGeneration ?a ?b ?c ?d ?e] =>
      destruct (challengeGeneration_ret a b c d e) as (c' & -> & _) end.
    cbn [bind]. rewrite challenge_compare.
    destruct (Zmod.eqb _ c'); [right|left; reflexivity].
    eexists. split; [reflexivity|]. split; [reflexivity|].
    split; [rewrite <- EB; apply Bytes_length|exact L80].
Qed.

(** [Prove] panics exactly when the key is not 64 bytes long,
    whatever the key holds. *)
Theorem Prove_panics_iff (sk alpha : list byte) (draftPreV11 : bool)
    (m : Mem) (skS alphaS : Slice) :
  ((exists msg, vrf.doProve sk alpha draftPreV11 = Panic msg) <-> length sk <> 64%nat) /\
  (valid_slice m skS ->
   ((exists msg, ecvrf.Prove m skS alphaS = Panic msg) <-> len skS <> 64%nat)).
Proof.
  assert (A : forall sk alpha flag,
             (exists msg, vrf.doProve sk alpha flag = Panic msg) <-> length sk <> 64%nat).
  { intros sk' alpha' flag. split.
    - intros [msg E] L64.
      destruct (doProve_ret sk' alpha' flag L64) as (x & Hp & k & c & _ & _ & _ & _ & _ & _ & EP).
      congruence.
    - intros N. unfold vrf.doProve.
      destruct (Nat.eqb_spec (length sk') 64) as [E|_]; [contradiction|].
      eexists. reflexivity. }
  split; [apply A|].
  intros V. rewrite (ecvrf_Prove_agree m skS alphaS V). unfold vrf.Prove_v10.
  rewrite A. rewrite length_load by (destruct V; lia). reflexivity.
Qed.

(** The VRF output does not depend on the draft version: [Prove] and
    [Prove_v10] put the same [Gamma] in the first 32 bytes of their
    proofs, and [ProofToHash] gives the same output for both. *)
Theorem output_independent_of_mode (sk alpha : list byte) :
  length sk = 64%nat ->
  exists pi pi10 beta,
    vrf.Prove sk alpha = Ret pi /\ vrf.Prove_v10 sk alpha = Ret pi10 /\
    firstn 32 pi = firstn 32 pi10 /\
    vrf.ProofToHash pi = Ok beta /\ vrf.ProofToHash pi10 = Ok beta.
Proof.
  intros L64. unfold vrf.Prove, vrf.Prove_v10.
  destruct (doProve_ret sk alpha false L64)
    as (x & Hp & k & c & Ex & EH & _ & Ek & _ & Bc & EP).
  destruct (doProve_ret sk alpha true L64)
    as (x' & Hp' & k' & c' & Ex' & EH' & _ & Ek' & _ & Bc' & EP').
  rewrite Ex in Ex'. injection Ex' as <-.
  rewrite EH in EH'. injection EH' as <-.
  eexists. eexists. exists (vrf.gammaToHash (ScalarMult x Hp)).
  split; [exact EP|]. split; [exact EP'|].
  split.
  - rewrite !firstn_app_exact by apply Bytes_length. reflexivity.
  - unfold vrf.ProofToHash.
    rewrite (decodeProof_layout _ _ _ Bc), (decodeProof_layout _ _ _ Bc').
    split; reflexivity.
Qed.

End WithBackend.

Section OnCyclicModel.
Existing Instances cyclic_rep cyclic_ops sample_sha512 cyclic_laws.

Lemma decodeProof_roundtrip_witness :
  vrf.decodeProof (Bytes NewGeneratorPoint ++
                   firstn 16 (Scalar.Bytes (Zmod.of_Z q 5)) ++
                   Scalar.Bytes (Zmod.of_Z q 7))
  = Ok (NewGeneratorPoint, Zmod.of_Z q 5, Zmod.of_Z q 7).
Proof.
  apply (proj2 (decodeProof_roundtrip [] NewGeneratorPoint (Zmod.of_Z q 5) (Zmod.of_Z q 7))).
  reflexivity.
Defined.

Lemma Verify_returns_ProofToHash_witness :
  ecvrf.Verify shared_buffer pk_window pi_window alpha_window = Ret (false, None) \/
  exists beta,
    ecvrf.Verify shared_buffer pk_window pi_window alpha_window = Ret (true, Some beta) /\
    ecvrf.ProofToHash (load shared_buffer pi_window) = Ok beta /\
    length (load shared_buffer pk_window) = 32%nat /\
    length (load shared_buffer pi_window) = 80%nat.
Proof.
  exact (proj2 (Verify_returns_ProofToHash sample_pk sample_pi sample_alpha true
                  shared_buffer pk_window pi_window alpha_window)).
Defined.

Lemma Prove_panics_iff_witness :
  (exists msg, vrf.doProve sample_seed sample_alpha false = Panic msg) <->
  length sample_seed <> 64%nat.
Proof.
  exact (proj1 (Prove_panics_iff sample_seed sample_alpha false
                  key_buffer sk_window message_window)).
Defined.

Lemma output_independent_of_mode_witness :
  exists pi pi10 beta,
    vrf.Prove sample_sk sample_alpha = Ret pi /\
    vrf.Prove_v10 sample_sk sample_alpha = Ret pi10 /\
    firstn 32 pi = firstn 32 pi10 /\
    vrf.ProofToHash pi = Ok beta /\ vrf.ProofToHash pi10 = Ok beta.
Proof.
  apply (output_independent_of_mode sample_sk sample_alpha). reflexivity.
Defined.

End OnCyclicModel.

End vrf_more.

Module more_witnesses.
Import statements samples.
Import field edwards25519 h2c models model_facts montgomery_facts h2c_more.

Section OnExtendedModel.
Existing Instances extended_rep extended_laws.
Local Open Scope Zmod_scope.

Lemma newMontgomeryPointFromEdwards_on_curve_witness :
  let m := newMontgomeryPointFromEdwards extended_identity in
  mont_v m * mont_v m =
  mont_u m * mont_u m * mont_u m + constMONTGOMERY_A * (mont_u m * mont_u m) + mont_u m.
Proof. exact (newMontgomeryPointFromEdwards_on_curve extended_identity). Defined.

Lemma ToEdwardsPoint_roundtrip_witness :
  let '(x, y) := affine extended_identity in
  exists P', ToEdwardsPoint (newMontgomeryPointFromEdwards extended_identity) = Ret P' /\
    (x <> 0 -> affine P' = (x, y)) /\
    (x = 0 -> affine P' = (0, 1)).
Proof. exact (ToEdwardsPoint_roundtrip extended_identity). Defined.

Lemma ToEdwardsPoint_domain_witness :
  let u := mont_u montgomery_origin in
  let v := mont_v montgomery_origin in
  (v * v = u * u * u + constMONTGOMERY_A * (u * u) + u ->
   exists P, ToEdwardsPoint montgomery_origin = Ret P /\
     ((v = 0 \/ u + 1 = 0) -> affine P = (0, 1)) /\
     (v <> 0 -> u + 1 <> 0 ->
      affine P = (Zmod.mdiv u v * constMONTGOMERY_SQRT_NEG_A_PLUS_TWO,
                  Zmod.mdiv (u - 1) (u + 1)))) /\
  (v * v <> u * u * u + constMONTGOMERY_A * (u * u) + u ->
   v <> 0 -> u + 1 <> 0 -> u <> 0 ->
   exists msg, ToEdwardsPoint montgomery_origin = Panic msg).
Proof. exact (ToEdwardsPoint_domain montgomery_origin). Defined.

Lemma newEdwardsFromXY_spec_witness :
  (1 * 1 - 0 * 0 = 1 + d * (0 * 0) * (1 * 1) ->
   exists P, newEdwardsFromXY 0 1 = Ret P /\ affine P = (0, 1)) /\
  (1 * 1 - 0 * 0 <> 1 + d * (0 * 0) * (1 * 1) ->
   exists msg, newEdwardsFromXY 0 1 = Panic msg).
Proof. exact (newEdwardsFromXY_spec 0 1). Defined.
End OnExtendedModel.

Section OnCyclicModel.
Existing Instances cyclic_rep cyclic_ops sample_sha512 cyclic_laws.

Lemma hash_to_curve_subgroup_witness :
  exists Q, ell2EdwardsFlavor (Zmod.of_Z p (OS2IP sample_uniform_bytes)) = Ret Q /\
    encodeToCurve sample_uniform_bytes = Ret (zmul 8 Q) /\
    zmul q (zmul 8 Q) = NewIdentityPoint.
Proof.
  apply (proj1 (hash_to_curve_subgroup sample_uniform_bytes)). reflexivity.
Defined.

Lemma suites_expand_then_map_witness :
  (forall e, ExpandMessageXMD 48 crypto.SHA512 [] sample_alpha = Err e ->
     Edwards25519_XMD_ELL2_NU crypto.SHA512 [] sample_alpha
     = Ret (Err ("h2c: failed to expand message: " ++ e))) /\
  (forall out, ExpandMessageXMD 48 crypto.SHA512 [] sample_alpha = Ok out ->
     exists P, Edwards25519_XMD_ELL2_NU crypto.SHA512 [] sample_alpha = Ret (Ok P) /\
               zmul q P = NewIdentityPoint) /\
  (forall e, ExpandMessageXMD 96 crypto.SHA512 [] sample_alpha = Err e ->
     Edwards25519_XMD_ELL2_RO crypto.SHA512 [] sample_alpha
     = Ret (Err ("h2c: failed to expand message: " ++ e))) /\
  (forall out, ExpandMessageXMD 96 crypto.SHA512 [] sample_alpha = Ok out ->
     exists P, Edwards25519_XMD_ELL2_RO crypto.SHA512 [] sample_alpha = Ret (Ok P) /\
               zmul q P = NewIdentityPoint).
Proof. exact (suites_expand_then_map crypto.SHA512 [] sample_alpha). Defined.
End OnCyclicModel.

End more_witnesses.

Module h2c_compose.
Import statements samples.
Import field edwards25519 h2c h2c_claims bytes_facts group_facts h2c_more models model_facts.

Section WithGroupLaws.
Context {rep : PointRep} {ops : PointOps} {L : GroupLaws rep ops}.

(** Hashing 96 uniform bytes is the sum of the encodings of the two
    halves: [hashToCurve (b0 || b1) = encodeToCurve b0 + encodeToCurve b1]. *)
Theorem hashToCurve_is_sum (b0 b1 : list byte) :
  length b0 = 48%nat -> length b1 = 48%nat ->
  exists P0 P1,
    encodeToCurve b0 = Ret P0 /\ encodeToCurve b1 = Ret P1 /\
    hashToCurve (b0 ++ b1) = Ret (edwards25519.Add P0 P1).
Proof.
  intros L0 L1.
  destruct (proj1 (uniform_bytes_to_subgroup b0) L0) as (Q0 & E0 & R0 & _).
  destruct (proj1 (uniform_bytes_to_subgroup b1) L1) as (Q1 & E1 & R1 & _).
  assert (L96 : length (b0 ++ b1) = 96%nat) by (rewrite length_app; lia).
  destruct (proj2 (uniform_bytes_to_subgroup (b0 ++ b1)) L96)
    as (Q0' & Q1' & E0' & E1' & R & _).
  rewrite firstn_app_exact in E0' by exact L0.
  rewrite skipn_app_exact in E1' by exact L0.
  rewrite E0 in E0'. rewrite E1 in E1'.
  assert (Q0' = Q0) by congruence. assert (Q1' = Q1) by congruence. subst Q0' Q1'.
  exists (zmul 8 Q0), (zmul 8 Q1).
  split; [exact R0|]. split; [exact R1|].
  rewrite R. unfold zmul. rewrite nmul_Add. reflexivity.
Qed.
End WithGroupLaws.

Section OnCyclicModel.
Existing Instances cyclic_rep cyclic_ops sample_sha512 cyclic_laws.

Lemma hashToCurve_is_sum_witness :
  exists P0 P1,
    encodeToCurve sample_uniform_bytes = Ret P0 /\
    encodeToCurve sample_uniform_bytes = Ret P1 /\
    hashToCurve (sample_uniform_bytes ++ sample_uniform_bytes)
    = Ret (edwards25519.Add P0 P1).
Proof.
  apply (hashToCurve_is_sum sample_uniform_bytes sample_uniform_bytes); reflexivity.
Defined.
End OnCyclicModel.

End h2c_compose.
